(** * ssh-mcp-server: the session registry, the command policy and the
      status collector

    A shallow embedding of [SSHConnectionManager]
    (services/ssh-connection-manager.ts) and of [collectSystemStatus]
    (utils/status-collector.ts), followed by the properties of the
    specification stated over it.

    Conventions of the embedding:
    - a JavaScript string is a [string] of 8-bit code units;
    - a computation that may throw (or a promise that may reject) returns a
      [Result]: [Ok v] or [Throw msg];
    - an optional property ([x?: T]) is an [option T];
    - a [Map<string, V>] is a [gmap string V]; the configuration object
      ([Record<string, SSHConfig>]) is an association list of its own
      properties, in the order in which [Object.keys] enumerates them;
    - an [ssh2] [Client] object is identified by a number (its identity);
    - the asynchronous methods are cut at their suspension points: the
      synchronous prefix of a call is a function on the [World], and every
      later callback (ready, error, close, continuation of an [await]) is an
      [Event] of the step function [step]. *)

From Stdlib Require Import ZArith String Ascii List Bool Lia.
From stdpp Require Import base option gmap strings list pretty.

Open Scope string_scope.
Open Scope Z_scope.

(* ===================================================================== *)
(** ** Results of computations that may throw *)
(* ===================================================================== *)

Inductive Result (A : Type) : Type :=
| Ok (value : A)
| Throw (message : string).
Arguments Ok {A} value.
Arguments Throw {A} message.

(** Sequencing: a throw skips the rest ([x ← r; k] below). *)
#[global] Instance Result_bind : MBind Result := fun A B k r =>
  match r with
  | Ok v => k v
  | Throw msg => Throw msg
  end.

#[global] Instance Result_ret : MRet Result := fun A v => Ok v.

(** [promise.catch(() => d)]: a rejection is replaced by [d]. *)
Definition catch_with {A : Type} (r : Result A) (d : A) : Result A :=
  match r with
  | Ok v => Ok v
  | Throw _ => Ok d
  end.

(** The outcome objects of [Promise.allSettled]. *)
Inductive Settled (A : Type) : Type :=
| fulfilled (value : A)
| rejected (reason : string).
Arguments fulfilled {A} value.
Arguments rejected {A} reason.

Definition settle {A : Type} (r : Result A) : Settled A :=
  match r with
  | Ok v => fulfilled v
  | Throw msg => rejected msg
  end.

(* ===================================================================== *)
(** ** JavaScript strings and numbers *)
(* ===================================================================== *)

(** A string is truthy when it is not empty. *)
Definition truthy (s : string) : bool :=
  match s with
  | EmptyString => false
  | String _ _ => true
  end.

(** An optional string property is truthy when present and not empty. *)
Definition truthy_opt (o : option string) : bool :=
  match o with
  | Some s => truthy s
  | None => false
  end.

(** [a || b] on an optional string and a string. *)
Definition or_default (o : option string) (d : string) : string :=
  match o with
  | Some s => if truthy s then s else d
  | None => d
  end.

(** White space as [String.prototype.trim] and the class [\s] see it, on
    code units below 256: TAB, LF, VT, FF, CR, SPACE and NBSP. *)
Definition is_space (c : ascii) : bool :=
  let n := nat_of_ascii c in
  ((9 <=? n)%nat && (n <=? 13)%nat) || (n =? 32)%nat || (n =? 160)%nat.

Fixpoint trimStart (s : string) : string :=
  match s with
  | EmptyString => EmptyString
  | String c rest => if is_space c then trimStart rest else s
  end.

Fixpoint trimEnd (s : string) : string :=
  match s with
  | EmptyString => EmptyString
  | String c rest =>
      match trimEnd rest with
      | EmptyString => if is_space c then EmptyString else String c EmptyString
      | t => String c t
      end
  end.

Definition trim (s : string) : string := trimEnd (trimStart s).

(** [s.split(sep)] for a separator of one code unit. *)
Fixpoint split (sep : ascii) (s : string) : list string :=
  match s with
  | EmptyString => [EmptyString]
  | String c rest =>
      if Ascii.eqb c sep then EmptyString :: split sep rest
      else match split sep rest with
           | [] => [String c EmptyString]
           | seg :: segs => String c seg :: segs
           end
  end.

(** [segs.join(sep)]. *)
Fixpoint join (sep : string) (segs : list string) : string :=
  match segs with
  | [] => EmptyString
  | [seg] => seg
  | seg :: rest => seg +:+ sep +:+ join sep rest
  end.

(** [s.startsWith(p)]. *)
Definition startsWith (s p : string) : bool := String.prefix p s.

(** [s.includes(needle)]. *)
Fixpoint includes (s needle : string) : bool :=
  String.prefix needle s ||
  match s with
  | EmptyString => false
  | String _ rest => includes rest needle
  end.

(** The numbers of the options and of the proxy port: integers and
    [NaN]. *)
Inductive JsNum : Type :=
| NaN
| Num (z : Z).

(** A finite double that is not negative, as [mantissa * 2 ^ exponent]. *)
Record Binary : Type := { mantissa : Z; exponent : Z }.

Definition two_52 : Z := 4503599627370496.

Definition two_53 : Z := 9007199254740992.

(** The double nearest to [num / den], for [0 <= num] and [0 < den]: 53
    bits are kept (fewer below [2 ^ -1022]) and a tie goes to the even
    mantissa; [None] is the overflow to [Infinity]. *)
Definition nearest_double (num den : Z) : option Binary :=
  if num =? 0 then Some {| mantissa := 0; exponent := 0 |} else
  let scaled e := (num * 2 ^ Z.max 0 (- e), den * 2 ^ Z.max 0 e) in
  let e1 := Z.log2 num - Z.log2 den - 52 in
  let e2 := let '(a, b) := scaled e1 in if a / b <? two_52 then e1 - 1 else e1 in
  let e := Z.max e2 (-1074) in
  let '(a, b) := scaled e in
  let q := a / b in
  let r := a mod b in
  let m := if (b <? 2 * r) || ((2 * r =? b) && Z.odd q) then q + 1 else q in
  if 1024 <=? Z.log2 m + e then None else Some {| mantissa := m; exponent := e |}.

(** The numbers the collector computes with, which are doubles: [NaN], an
    integer that is a double, or an infinity. A [JsNum] is read as such a
    number where one is expected. *)
Inductive Double : Type :=
| Ordinary (x : JsNum)
| Infinity (negative : bool).

Coercion Ordinary : JsNum >-> Double.

(** The Number value of the integer [z]: [z] itself up to [2 ^ 53], the
    nearest double beyond. *)
Definition Number_of (z : Z) : Double :=
  if Z.abs z <=? two_53 then Num z
  else match nearest_double (Z.abs z) 1 with
       | Some b => Num (Z.sgn z * (mantissa b * 2 ^ exponent b))
       | None => Infinity (z <? 0)
       end.

Definition is_digit (c : ascii) : bool :=
  let n := nat_of_ascii c in (48 <=? n)%nat && (n <=? 57)%nat.

Definition digit_value (c : ascii) : Z := Z.of_nat (nat_of_ascii c) - 48.

(** The longest prefix of decimal digits, read as a number; [None] when the
    string does not start with a digit. *)
Fixpoint leading_digits (s : string) (acc : option Z) : option Z :=
  match s with
  | EmptyString => acc
  | String c rest =>
      if is_digit c
      then leading_digits rest (Some (10 * default 0 acc + digit_value c))
      else acc
  end.

(** [parseInt(s, 10)]: leading white space is skipped, one sign is
    accepted, the digits that follow are read and the rest is ignored; the
    result is the Number value of the integer read. *)
Definition parseInt (s : string) : Double :=
  match trimStart s with
  | String "-" rest =>
      match leading_digits rest None with
      | Some n => Number_of (- n)
      | None => NaN
      end
  | String "+" rest =>
      match leading_digits rest None with
      | Some n => Number_of n
      | None => NaN
      end
  | t =>
      match leading_digits t None with
      | Some n => Number_of n
      | None => NaN
      end
  end.

(** [x - 1]. *)
Definition minus_one (x : Double) : Double :=
  match x with
  | Ordinary NaN => NaN
  | Ordinary (Num z) => Number_of (z - 1)
  | Infinity negative => Infinity negative
  end.

(** [Math.max(0, x)]. *)
Definition Math_max0 (x : Double) : Double :=
  match x with
  | Ordinary NaN => NaN
  | Ordinary (Num z) => Num (Z.max 0 z)
  | Infinity true => Num 0
  | Infinity false => Infinity false
  end.

(* ===================================================================== *)
(** ** models/types.ts *)
(* ===================================================================== *)

Record SSHConfig : Type := {
  name : option string;
  host : string;
  port : Z;
  username : string;
  password : option string;
  privateKey : option string;
  passphrase : option string;
  commandWhitelist : option (list string);
  commandBlacklist : option (list string);
  socksProxy : option string;
}.

Record Space : Type := { free : string; total : string }.

Record Drive : Type := {
  device : string;
  mountPoint : string;
  drive_total : string;
  used : string;
  drive_free : string;
  usagePercent : string;
  filesystem : option string;
}.

Record Cpu : Type := { cpu_name : option string; cpu_usage : option string }.

Record Gpu : Type := {
  gpu_name : string;
  gpu_usage : option string;
  gpu_path : option string;
}.

Record Processes : Type := { running : Double; threads : Double }.

Record Services : Type := { services_running : Double; installed : Double }.

Record ServerStatus : Type := {
  reachable : bool;
  hostname : option string;
  ipAddresses : option (list string);
  osName : option string;
  osVersion : option string;
  kernelVersion : option string;
  uptime : option string;
  diskSpace : option Space;
  drives : option (list Drive);
  memory : option Space;
  cpu : option Cpu;
  gpus : option (list Gpu);
  processes : option Processes;
  services : option Services;
  lastUpdated : option string;
}.

(* ===================================================================== *)
(** ** utils/status-collector.ts *)
(* ===================================================================== *)

(** What the remote side does with one [client.exec(command, callback)]:
    the callback gets an error, or a stream that delivers chunks on its
    standard output and standard error and then closes with an exit code
    ([None] when the remote process ended without one). *)
Inductive Chunk : Type :=
| Stdout (text : string)
| Stderr (text : string).

Inductive ExecOutcome : Type :=
| ExecError (message : string)
| ExecClose (chunks : list Chunk) (code : option Z).

(** An established session, as far as the collector uses it. *)
Definition Session : Type := string -> ExecOutcome.

Definition chunk_text (c : Chunk) : string :=
  match c with
  | Stdout t => t
  | Stderr t => t
  end.

Definition code_text (code : option Z) : string :=
  match code with
  | Some z => pretty z
  | None => "null"
  end.

(** The helper [execCommand]: both streams are appended to [data] as their
    chunks arrive; exit code 0 resolves with the trimmed text, every other
    close rejects. *)
Definition execCommand (client : Session) (command : string) : Result string :=
  match client command with
  | ExecError msg => Throw msg
  | ExecClose chunks code =>
      let data := fold_left (fun data c => data +:+ chunk_text c) chunks "" in
      match code with
      | Some 0 => Ok (trim data)
      | _ => Throw ("Command exited with code " +:+ code_text code)
      end
  end.

(** The double quote, for the command texts below. *)
Definition dq : string := String (ascii_of_nat 34) EmptyString.

Module commands.

Definition hostname : string :=
    "hostname".

Definition ipAddresses : string :=
    "ip -o addr show | awk '{print $4}' | grep -v '^127\.' | "
     +:+ "cut -d'/' -f1".

Definition osName : string :=
    "uname -s".

Definition osVersion : string :=
    "cat /etc/os-release 2>/dev/null | grep '^PRETTY_NAME=' |"
     +:+ " cut -d'=' -f2 | tr -d '" +:+ dq +:+ "' || uname -o".

Definition kernelVersion : string :=
    "uname -r".

Definition uptime : string :=
    "uptime -p 2>/dev/null || uptime | awk -F'up ' '{print $2"
     +:+ "}' | awk -F',' '{print $1}'".

Definition diskSpace : string :=
    "df -h / | tail -1 | awk '{print " +:+ dq +:+ "free:" +:+ dq +:+ " $4 "
     +:+ dq +:+ " total:" +:+ dq +:+ " $2}'".

Definition memory : string :=
    "free -h | grep '^Mem:' | awk '{print " +:+ dq +:+ "free:" +:+ dq
     +:+ " $7 " +:+ dq +:+ " total:" +:+ dq +:+ " $2}'".

Definition cpuName : string :=
    "sh -c '(lscpu 2>/dev/null | grep " +:+ dq +:+ "^Model name:" +:+ dq
     +:+ " | cut -d" +:+ dq +:+ ":" +:+ dq
     +:+ " -f2 | xargs || cat /proc/cpuinfo 2>/dev/null | grep " +:+ dq
     +:+ "model name" +:+ dq +:+ " | head -1 | cut -d" +:+ dq +:+ ":" +:+ dq
     +:+ " -f2 | xargs || echo " +:+ dq
     +:+ "$(nproc 2>/dev/null || echo '''?''')-core $(uname -m 2>/"
     +:+ "dev/null || echo '''unknown''') processor" +:+ dq +:+ ") || true'".

Definition cpuUsage : string :=
    "top -bn1 | grep 'Cpu(s)' | sed 's/.*, *\([0-9.]*\)%* id."
     +:+ "*/\1/' | awk '{print 100 - $1}'".

Definition gpus : string :=
    "sh -c '(nvidia-smi --query-gpu=name,utilization.gpu --fo"
     +:+ "rmat=csv,noheader,nounits 2>/dev/null | while IFS=" +:+ dq +:+ ","
     +:+ dq +:+ " read -r name usage; do echo " +:+ dq
     +:+ "NVIDIA|${name}|${usage}" +:+ dq +:+ "; done || lspci | grep -iE "
     +:+ dq +:+ "vga|3d|display" +:+ dq
     +:+ " | while read -r line; do gpu_name=$(echo " +:+ dq +:+ "$line"
     +:+ dq +:+ " | cut -d" +:+ dq +:+ ":" +:+ dq +:+ " -f3 | xargs); echo "
     +:+ dq +:+ "OTHER|${gpu_name}|" +:+ dq +:+ "; done) || true'".

Definition gpuPaths : string :=
    "ls -1 /dev/dri/card* 2>/dev/null | sort -V || echo ''".

Definition drives : string :=
    "df -h | awk 'NR>1 && $1 !~ /^(tmpfs|devtmpfs|overlay|shf"
     +:+ "s|rootfs)$/ && $6 !~ /^(\/dev|\/run|\/sys|\/proc|\/boot|"
     +:+ "\/usr|\/lib)$/ && $6 != " +:+ dq +:+ dq +:+ " {print $1" +:+ dq
     +:+ "|" +:+ dq +:+ "$2" +:+ dq +:+ "|" +:+ dq +:+ "$3" +:+ dq +:+ "|"
     +:+ dq +:+ "$4" +:+ dq +:+ "|" +:+ dq +:+ "$5" +:+ dq +:+ "|" +:+ dq
     +:+ "$6}'".

Definition processes : string :=
    "ps aux | wc -l".

Definition threads : string :=
    "ps -eLf | wc -l".

Definition servicesRunning : string :=
    "systemctl list-units --type=service --state=running 2>/d"
     +:+ "ev/null | wc -l || service --status-all 2>/dev/null | gr"
     +:+ "ep running | wc -l || echo '0'".

Definition servicesInstalled : string :=
    "systemctl list-unit-files --type=service 2>/dev/null | w"
     +:+ "c -l || ls /etc/init.d/ 2>/dev/null | wc -l || echo '0'".

End commands.

(** The longest prefix of [s] whose code units satisfy [p], and the rest. *)
Fixpoint span (p : ascii -> bool) (s : string) : string * string :=
  match s with
  | EmptyString => (EmptyString, EmptyString)
  | String c rest =>
      if p c then let '(run, tl) := span p rest in (String c run, tl)
      else (EmptyString, s)
  end.

(** [s] without the prefix [p], when it has it. *)
Fixpoint strip_prefix (p s : string) : option string :=
  match p, s with
  | EmptyString, _ => Some s
  | String a p', String b s' => if Ascii.eqb a b then strip_prefix p' s' else None
  | String _ _, EmptyString => None
  end.

Definition non_space (c : ascii) : bool := negb (is_space c).

(** The pattern [(\S+)\s+total:(\S+)] applied right after a [free:]. The
    greedy runs cannot give anything back: a shorter [\S+] is followed by a
    non-space, a shorter [\s+] by a space. *)
Definition free_total_after (s : string) : option (string * string) :=
  let '(g1, r1) := span non_space s in
  let '(ws, r2) := span is_space r1 in
  if truthy g1 && truthy ws then
    match strip_prefix "total:" r2 with
    | Some r3 =>
        let '(g2, _) := span non_space r3 in
        if truthy g2 then Some (g1, g2) else None
    | None => None
    end
  else None.

(** [s.match(/free:(\S+)\s+total:(\S+)/)]: the leftmost match, as the pair
    of its two groups. *)
Fixpoint match_free_total (s : string) : option (string * string) :=
  let here :=
    match strip_prefix "free:" s with
    | Some rest => free_total_after rest
    | None => None
    end in
  match here with
  | Some groups => Some groups
  | None =>
      match s with
      | EmptyString => None
      | String _ rest => match_free_total rest
      end
  end.

(** [parseFloat] and [toFixed(1)] of the runtime, on texts:
    [parseFloat_isNaN s] is [isNaN(parseFloat(s))] and
    [parseFloat_toFixed1 s] is [parseFloat(s).toFixed(1)]. *)
Class FloatText : Type := {
  parseFloat_isNaN : string -> bool;
  parseFloat_toFixed1 : string -> string;
}.

Section Collector.

Context {float_text : FloatText}.

(** The value of a fulfilled outcome, passed to [k]. *)
Definition when_fulfilled {A B : Type} (r : Settled A) (k : A -> option B)
  : option B :=
  match r with
  | fulfilled v => k v
  | rejected _ => None
  end.

Definition text_field (r : Settled string) : option string :=
  when_fulfilled r (fun value => if truthy value then Some value else None).

Definition ip_field (r : Settled string) : option (list string) :=
  when_fulfilled r (fun value =>
    if truthy value
    then Some (List.filter
                 (fun ip => truthy (trim ip) && negb (includes ip "127.0.0.1"))
                 (split "010" value))
    else None).

Definition space_field (r : Settled string) : option Space :=
  when_fulfilled r (fun value =>
    if truthy value
    then match match_free_total value with
         | Some (f, t) => Some {| free := f; total := t |}
         | None => None
         end
    else None).

Definition cpu_field (cpuNameResult cpuUsageResult : Settled string) : option Cpu :=
  when_fulfilled cpuNameResult (fun value =>
    if truthy value && truthy (trim value)
    then Some {| cpu_name := Some (trim value);
                 cpu_usage :=
                   when_fulfilled cpuUsageResult (fun usage =>
                     if truthy usage && negb (usage =? "N/A")%string
                     then Some (parseFloat_toFixed1 usage +:+ "%")
                     else None) |}
    else None).

Definition non_blank_lines (value : string) : list string :=
  List.filter (fun line => truthy (trim line)) (split "010" value).

(** One step of [gpuLines.forEach((line, index) => ...)]: the entry pushed
    for the line, if any. *)
Definition gpu_of_line (gpuPaths : list string) (index : nat) (line : string)
  : option Gpu :=
  let parts := split "|" line in
  if (2 <=? length parts)%nat then
    let vendor := trim (nth 0 parts "") in
    let name := trim (nth 1 parts "") in
    let usage := trim <$> (parts !! 2%nat) in
    if truthy name && negb (name =? "N/A")%string then
      Some {| gpu_name := name;
              gpu_usage :=
                match usage with
                | Some u =>
                    if truthy u && negb (trim u =? "")%string
                       && negb (trim u =? "N/A")%string
                       && negb (parseFloat_isNaN (trim u))
                    then Some (parseFloat_toFixed1 (trim u) +:+ "%")
                    else None
                | None => None
                end;
              gpu_path :=
                match gpuPaths !! index with
                | Some p => if truthy p then Some p else None
                | None => None
                end |}
    else None
  else None.

Definition gpus_field (gpusResult gpuPathsResult : Settled string)
  : option (list Gpu) :=
  when_fulfilled gpusResult (fun value =>
    if truthy value && truthy (trim value) then
      let gpuPaths :=
        match gpuPathsResult with
        | fulfilled paths => if truthy paths then non_blank_lines paths else []
        | rejected _ => []
        end in
      let gpuLines := non_blank_lines value in
      let gpus := omap id (imap (gpu_of_line gpuPaths) gpuLines) in
      if (0 <? length gpus)%nat then Some gpus else None
    else None).

Definition drive_of_line (line : string) : option Drive :=
  let parts := split "|" line in
  if (6 <=? length parts)%nat then
    let device := trim (nth 0 parts "") in
    let total := trim (nth 1 parts "") in
    let used := trim (nth 2 parts "") in
    let free := trim (nth 3 parts "") in
    let usagePercent := trim (nth 4 parts "") in
    let mountPoint := trim (nth 5 parts "") in
    if truthy device && truthy mountPoint then
      Some {| device := device; mountPoint := mountPoint; drive_total := total;
              used := used; drive_free := free; usagePercent := usagePercent;
              filesystem := None |}
    else None
  else None.

Definition drives_field (drivesResult : Settled string) : option (list Drive) :=
  when_fulfilled drivesResult (fun value =>
    if truthy value && truthy (trim value) then
      let drives := omap drive_of_line (non_blank_lines value) in
      if (0 <? length drives)%nat then Some drives else None
    else None).

(** [Math.max(0, parseInt(value, 10) - 1)]: the header line is not counted. *)
Definition count_of (value : string) : Double :=
  Math_max0 (minus_one (parseInt value)).

Definition processes_field (processesResult threadsResult : Settled string)
  : option Processes :=
  match processesResult, threadsResult with
  | fulfilled p, fulfilled t =>
      Some {| running := count_of p; threads := count_of t |}
  | _, _ => None
  end.

Definition services_field (servicesRunningResult servicesInstalledResult : Settled string)
  : option Services :=
  match servicesRunningResult, servicesInstalledResult with
  | fulfilled r, fulfilled i =>
      Some {| services_running := count_of r; installed := count_of i |}
  | _, _ => None
  end.

(** One entry of the array given to [Promise.allSettled]:
    [execCommand(command).catch(() => fallback)], settled. *)
Definition run (client : Session) (command fallback : string) : Settled string :=
  settle (catch_with (execCommand client command) fallback).

(** The [try] block: the seventeen commands are run and the status object,
    created with [reachable: true] and the time of the call, receives one
    property per usable result. Nothing in the block throws. *)
Definition collect_try (client : Session) (now : string) : Result ServerStatus :=
  let hostnameResult := run client commands.hostname "" in
  let ipAddressesResult := run client commands.ipAddresses "" in
  let osNameResult := run client commands.osName "" in
  let osVersionResult := run client commands.osVersion "" in
  let kernelVersionResult := run client commands.kernelVersion "" in
  let uptimeResult := run client commands.uptime "" in
  let diskSpaceResult := run client commands.diskSpace "" in
  let memoryResult := run client commands.memory "" in
  let cpuNameResult := run client commands.cpuName "" in
  let cpuUsageResult := run client commands.cpuUsage "" in
  let gpusResult := run client commands.gpus "" in
  let gpuPathsResult := run client commands.gpuPaths "" in
  let drivesResult := run client commands.drives "" in
  let processesResult := run client commands.processes "0" in
  let threadsResult := run client commands.threads "0" in
  let servicesRunningResult := run client commands.servicesRunning "0" in
  let servicesInstalledResult := run client commands.servicesInstalled "0" in
  Ok {| reachable := true;
        hostname := text_field hostnameResult;
        ipAddresses := ip_field ipAddressesResult;
        osName := text_field osNameResult;
        osVersion := text_field osVersionResult;
        kernelVersion := text_field kernelVersionResult;
        uptime := text_field uptimeResult;
        diskSpace := space_field diskSpaceResult;
        drives := drives_field drivesResult;
        memory := space_field memoryResult;
        cpu := cpu_field cpuNameResult cpuUsageResult;
        gpus := gpus_field gpusResult gpuPathsResult;
        processes := processes_field processesResult threadsResult;
        services := services_field servicesRunningResult servicesInstalledResult;
        lastUpdated := Some now |}.

(** [collectSystemStatus(client, connectionName)], called at time [now]: an
    exception escaping the [try] block is logged and clears [reachable] on
    the status object (which, no step of the block raising one, would still
    be the initial object). *)
Definition collectSystemStatus (client : Session) (connectionName : string)
    (now : string) : Result ServerStatus :=
  match collect_try client now with
  | Ok status => Ok status
  | Throw _ =>
      Ok {| reachable := false;
            hostname := None; ipAddresses := None; osName := None;
            osVersion := None; kernelVersion := None; uptime := None;
            diskSpace := None; drives := None; memory := None; cpu := None;
            gpus := None; processes := None; services := None;
            lastUpdated := Some now |}
  end.

End Collector.

(* ===================================================================== *)
(** ** The runtime under the connection manager *)
(* ===================================================================== *)

(** What the manager takes from the JavaScript runtime and from Node:
    - [RegExp_new pattern] is [new RegExp(pattern)], which throws a
      [SyntaxError] on a malformed pattern, and [RegExp_test regex text] is
      [regex.test(text)] (no flags, so without state);
    - [readFileSync path] is [fs.readFileSync(path, "utf8")];
    - [URL_new text] is [new URL(text)], reduced to its [hostname] and to
      [parseInt(port, 10)]. *)
Class Runtime : Type := {
  RegExp : Type;
  RegExp_new : string -> Result RegExp;
  RegExp_test : RegExp -> string -> bool;
  readFileSync : string -> Result string;
  URL_new : string -> Result (string * JsNum);
}.

(** [path.resolve(p)] of Node on POSIX, for a process whose working
    directory is the absolute path [cwd]: a relative [p] is taken from
    [cwd]; then empty and [.] segments are dropped, [..] removes the segment
    before it (nothing at the root), and the result has no trailing slash.
    Symbolic links are not followed: no file system is consulted. *)
Fixpoint normalize_segments (segs : list string) (kept : list string)
  : list string :=
  match segs with
  | [] => rev kept
  | seg :: rest =>
      if (seg =? "")%string || (seg =? ".")%string
      then normalize_segments rest kept
      else if (seg =? "..")%string
           then normalize_segments rest (tail kept)
           else normalize_segments rest (seg :: kept)
  end.

Definition path_resolve (cwd p : string) : string :=
  let full :=
    if startsWith p "/" then p
    else if truthy p then cwd +:+ "/" +:+ p
         else cwd in
  "/" +:+ join "/" (normalize_segments (split "/" full) []).

(* ===================================================================== *)
(** ** services/ssh-connection-manager.ts: the object and its synchronous
       methods *)
(* ===================================================================== *)

(** An [ssh2] client object, by identity. *)
Definition Client : Type := nat.

Record SSHConnectionManager : Type := {
  clients : gmap string Client;
  configs : list (string * SSHConfig);
  connected : gmap string bool;
  statusCache : gmap string ServerStatus;
  defaultName : string;
}.

(** The instance [getInstance] creates. *)
Definition new_manager : SSHConnectionManager :=
  {| clients := ∅; configs := []; connected := ∅; statusCache := ∅;
     defaultName := "default" |}.

Definition with_clients (this : SSHConnectionManager) (v : gmap string Client)
  : SSHConnectionManager :=
  {| clients := v; configs := configs this; connected := connected this;
     statusCache := statusCache this; defaultName := defaultName this |}.

Definition with_connected (this : SSHConnectionManager) (v : gmap string bool)
  : SSHConnectionManager :=
  {| clients := clients this; configs := configs this; connected := v;
     statusCache := statusCache this; defaultName := defaultName this |}.

Definition with_statusCache (this : SSHConnectionManager)
    (v : gmap string ServerStatus) : SSHConnectionManager :=
  {| clients := clients this; configs := configs this;
     connected := connected this; statusCache := v;
     defaultName := defaultName this |}.

(** The own property [key] of [configs]. *)
Fixpoint config_of (configs : list (string * SSHConfig)) (key : string)
  : option SSHConfig :=
  match configs with
  | [] => None
  | (k, config) :: rest => if (k =? key)%string then Some config else config_of rest key
  end.

(** The names every plain object inherits from [Object.prototype]. *)
Definition Object_prototype_names : list string :=
  ["constructor"; "__defineGetter__"; "__defineSetter__"; "hasOwnProperty";
   "__lookupGetter__"; "__lookupSetter__"; "isPrototypeOf";
   "propertyIsEnumerable"; "toString"; "valueOf"; "__proto__";
   "toLocaleString"].

(** What the manager holds when it takes the member inherited under [key]
    for a descriptor: a function (for [__proto__], the prototype itself), in
    which no property of a descriptor is defined but, for a function, its
    [name]. The properties [host], [port] and [username], undefined there,
    stand here as the empty text and zero: the manager reads them to fill
    the options of [client.connect] only, which is not called for a
    descriptor without credentials. *)
Definition inherited_member (key : string) : SSHConfig :=
  {| name := if (key =? "__proto__")%string then None
             else if (key =? "constructor")%string then Some "Object"
                  else Some key;
     host := ""; port := 0; username := "";
     password := None; privateKey := None; passphrase := None;
     commandWhitelist := None; commandBlacklist := None; socksProxy := None |}.

(** [configs[key]], [configs] being a plain object: the descriptor
    configured under [key] or, when there is none, the member inherited
    under that name, if any. Both are objects, hence truthy. *)
Definition configs_get (configs : list (string * SSHConfig)) (key : string)
  : option SSHConfig :=
  match config_of configs key with
  | Some config => Some config
  | None =>
      if existsb (String.eqb key) Object_prototype_names
      then Some (inherited_member key)
      else None
  end.

(** [Object.keys(configs)]. *)
Definition Object_keys (configs : list (string * SSHConfig)) : list string :=
  map fst configs.

Definition setConfig (this : SSHConnectionManager)
    (newConfigs : list (string * SSHConfig)) (newDefault : option string)
  : SSHConnectionManager :=
  let chosen :=
    match newDefault with
    | Some d =>
        if truthy d && bool_decide (is_Some (configs_get newConfigs d))
        then Some d else None
    | None => None
    end in
  {| clients := clients this; configs := newConfigs;
     connected := connected this; statusCache := statusCache this;
     defaultName :=
       match chosen with
       | Some d => d
       | None =>
           match Object_keys newConfigs with
           | first :: _ => first
           | [] => defaultName this
           end
       end |}.

Definition getConfig (this : SSHConnectionManager) (name : option string)
  : Result SSHConfig :=
  let key := or_default name (defaultName this) in
  match configs_get (configs this) key with
  | Some config => Ok config
  | None => Throw ("SSH configuration for '" +:+ key +:+ "' not set")
  end.

Definition getClient (this : SSHConnectionManager) (name : option string)
  : Result Client :=
  let key := or_default name (defaultName this) in
  match clients this !! key with
  | Some client => Ok client
  | None => Throw ("SSH client for '" +:+ key +:+ "' not connected")
  end.

Record Verdict : Type := { isAllowed : bool; reason : option string }.

Section Policy.

Context {runtime : Runtime}.

(** [patterns.some((pattern) => new RegExp(pattern).test(command))]: the
    patterns are compiled one by one, up to the first that matches. *)
Fixpoint some_pattern_matches (patterns : list string) (command : string)
  : Result bool :=
  match patterns with
  | [] => Ok false
  | pattern :: rest =>
      regex ← RegExp_new pattern;
      if RegExp_test regex command then Ok true
      else some_pattern_matches rest command
  end.

(** [list && list.length > 0]. *)
Definition configured (patterns : option (list string)) : option (list string) :=
  match patterns with
  | Some (p :: ps) => Some (p :: ps)
  | _ => None
  end.

Definition validateCommand (this : SSHConnectionManager) (command : string)
    (name : option string) : Result Verdict :=
  config ← getConfig this name;
  matchesWhitelist ←
    match configured (commandWhitelist config) with
    | Some whitelist => some_pattern_matches whitelist command
    | None => Ok true
    end;
  if negb matchesWhitelist then
    Ok {| isAllowed := false;
          reason := Some "Command not in whitelist, execution forbidden" |}
  else
    matchesBlacklist ←
      match configured (commandBlacklist config) with
      | Some blacklist => some_pattern_matches blacklist command
      | None => Ok false
      end;
    if (matchesBlacklist : bool) then
      Ok {| isAllowed := false;
            reason := Some "Command matches blacklist, execution forbidden" |}
    else Ok {| isAllowed := true; reason := None |}.

End Policy.

(** [validateLocalPath(localPath)] in a process whose working directory is
    [cwd] ([process.cwd()]). *)
Definition validateLocalPath (cwd : string) (localPath : string) : Result string :=
  let resolvedPath := path_resolve cwd localPath in
  let workingDir := cwd in
  if negb (startsWith resolvedPath workingDir) then
    Throw "Path traversal detected. Local path must be within the working directory."
  else Ok resolvedPath.

(** [disconnect()]: the new state of the manager and the clients on which
    [end()] was called. *)
Definition disconnect (this : SSHConnectionManager)
  : SSHConnectionManager * list Client :=
  if (0 <? size (clients this))%nat then
    (with_clients this ∅, (map_to_list (clients this)).*2)
  else (this, []).

Record ServerInfo : Type := {
  info_name : string;
  info_host : string;
  info_port : Z;
  info_username : string;
  info_connected : bool;
  info_status : option ServerStatus;
}.

(** [this.connected.get(key) === true]. *)
Definition is_connected (this : SSHConnectionManager) (key : string) : bool :=
  match connected this !! key with
  | Some true => true
  | _ => false
  end.

(** [getAllServerInfos()]: the names are those of [Object.keys], so what
    [configs[key]] reads there is an own property. *)
Definition getAllServerInfos (this : SSHConnectionManager) : list ServerInfo :=
  omap (fun key =>
          config ← config_of (configs this) key;
          Some {| info_name := key;
                  info_host := host config;
                  info_port := port config;
                  info_username := username config;
                  info_connected := is_connected this key;
                  info_status := statusCache this !! key |})
       (Object_keys (configs this)).

(* ===================================================================== *)
(** ** The asynchronous methods: connections *)
(* ===================================================================== *)

(** The state of a client object's transport: [connect] not called yet,
    authentication sequence in flight, session established (["ready"] was
    emitted), closed. *)
Inductive Link : Type := Idle | Handshaking | Established | Gone.

(** The state of the [connect] call that created the client: suspended in
    [SocksClient.createConnection]; suspended until ["ready"] or
    ["error"]; promise resolved, continuation not run yet; returned;
    rejected. *)
Inductive Call : Type :=
| AwaitingProxy
| AwaitingReady
| Resolved
| Returned
| Failed (message : string).

(** The object given to [client.connect]. *)
Record ConnectOptions : Type := {
  opt_host : string;
  opt_port : Z;
  opt_username : string;
  opt_sock : bool;
  opt_privateKey : option string;
  opt_passphrase : option string;
  opt_password : option string;
}.

(** One [new Client()] of a [connect] call, with the handlers of that call
    attached to it. *)
Record Attempt : Type := {
  attempt_key : string;
  attempt_config : SSHConfig;
  link : Link;
  call : Call;
  sshConfig : option ConnectOptions;
  collecting : bool;
}.

(** The manager, every client created so far (a client is its index in
    [attempts]) and the clients on which [end()] was called. *)
Record World : Type := {
  manager : SSHConnectionManager;
  attempts : list Attempt;
  ended : list Client;
}.

Definition with_manager (w : World) (m : SSHConnectionManager) : World :=
  {| manager := m; attempts := attempts w; ended := ended w |}.

Definition add_attempt (w : World) (a : Attempt) : World :=
  {| manager := manager w; attempts := attempts w ++ [a]; ended := ended w |}.

Definition set_attempt (w : World) (c : Client) (a : Attempt) : World :=
  {| manager := manager w; attempts := <[c := a]> (attempts w); ended := ended w |}.

Definition with_link (a : Attempt) (l : Link) : Attempt :=
  {| attempt_key := attempt_key a; attempt_config := attempt_config a;
     link := l; call := call a; sshConfig := sshConfig a;
     collecting := collecting a |}.

Definition with_call (a : Attempt) (c : Call) : Attempt :=
  {| attempt_key := attempt_key a; attempt_config := attempt_config a;
     link := link a; call := c; sshConfig := sshConfig a;
     collecting := collecting a |}.

Definition with_collecting (a : Attempt) (b : bool) : Attempt :=
  {| attempt_key := attempt_key a; attempt_config := attempt_config a;
     link := link a; call := call a; sshConfig := sshConfig a;
     collecting := b |}.

(** [this.connected.set(key, flag)]. *)
Definition set_connected (w : World) (key : string) (flag : bool) : World :=
  with_manager w (with_connected (manager w) (<[key := flag]> (connected (manager w)))).

(** How far a call got before it had to wait: it finished (returned or
    threw), or it waits for events on a client. *)
Inductive Started (A : Type) : Type :=
| Finished (outcome : Result A)
| Waiting (client : Client).
Arguments Finished {A} outcome.
Arguments Waiting {A} client.

Section Connections.

Context {runtime : Runtime} {float_text : FloatText}.

(** The end of the promise executor of [connect]: the credentials are
    chosen, the private key first, and [client.connect(sshConfig)] starts
    the authentication sequence; without credentials, or with an unreadable
    key file, the promise is rejected and nothing is sent. *)
Definition authenticate (key : string) (config : SSHConfig) (sock : bool)
  : Result ConnectOptions :=
  let base privateKey passphrase password :=
    {| opt_host := host config; opt_port := port config;
       opt_username := username config; opt_sock := sock;
       opt_privateKey := privateKey; opt_passphrase := passphrase;
       opt_password := password |} in
  if truthy_opt (privateKey config) then
    match readFileSync (default "" (privateKey config)) with
    | Ok content =>
        Ok (base (Some content)
                 (if truthy_opt (passphrase config) then passphrase config else None)
                 None)
    | Throw msg =>
        Throw ("Failed to read private key file for [" +:+ key +:+ "]: " +:+ msg)
    end
  else if truthy_opt (password config) then
    Ok (base None None (password config))
  else
    Throw ("No valid authentication method provided for [" +:+ key
           +:+ "] (password or private key)").

Definition attempt_after_authenticate (key : string) (config : SSHConfig)
    (sock : bool) : Attempt :=
  match authenticate key config sock with
  | Ok options =>
      {| attempt_key := key; attempt_config := config; link := Handshaking;
         call := AwaitingReady; sshConfig := Some options; collecting := false |}
  | Throw msg =>
      {| attempt_key := key; attempt_config := config; link := Idle;
         call := Failed msg; sshConfig := None; collecting := false |}
  end.

(** What the caller of [connect] sees once the executor has run as far as
    it can. *)
Definition started_of (client : Client) (a : Attempt) : Started unit :=
  match call a with
  | Failed msg => Finished (Throw msg)
  | Returned => Finished (Ok ())
  | _ => Waiting client
  end.

(** [connect(name)], up to its first suspension. *)
Definition connect (w : World) (name : option string) : World * Started unit :=
  let this := manager w in
  let key := or_default name (defaultName this) in
  if is_connected this key && bool_decide (is_Some (clients this !! key)) then
    (w, Finished (Ok ()))
  else
    match getConfig this (Some key) with
    | Throw msg => (w, Finished (Throw msg))
    | Ok config =>
        let client : Client := length (attempts w) in
        let attempt :=
          if truthy_opt (socksProxy config) then
            match URL_new (default "" (socksProxy config)) with
            | Ok _ =>
                {| attempt_key := key; attempt_config := config; link := Idle;
                   call := AwaitingProxy; sshConfig := None;
                   collecting := false |}
            | Throw msg =>
                {| attempt_key := key; attempt_config := config; link := Idle;
                   call := Failed ("Failed to create SOCKS proxy connection for ["
                                   +:+ key +:+ "]: " +:+ msg);
                   sshConfig := None; collecting := false |}
            end
          else attempt_after_authenticate key config false in
        (add_attempt w attempt, started_of client attempt)
    end.

(** What happens later, one callback at a time. *)
Inductive Event : Type :=
| ProxyConnected (c : Client)
| ProxyFailed (c : Client) (message : string)
| Ready (c : Client)
| Resume (c : Client)
| ClientError (c : Client) (message : string)
| ClientClose (c : Client)
| StatusSettled (c : Client) (session : Session) (started finished : string).

Definition link_open (l : Link) : bool :=
  match l with
  | Handshaking | Established => true
  | Idle | Gone => false
  end.

(** One callback; [None] when the event cannot occur in this state.
    - [ProxyConnected], [ProxyFailed]: the awaited SOCKS connection settles
      and the executor goes on, or rejects;
    - [Ready]: the ["ready"] handler sets the flag, starts the status
      collection and resolves the promise;
    - [Resume]: the continuation of [connect] after its [await],
      [this.clients.set(key, client)];
    - [ClientError], [ClientClose]: the ["error"] and ["close"] handlers;
    - [StatusSettled]: the collection started by ["ready"] has run over
      [session] and its [then] (or [catch]) handler fills the cache. *)
Definition step (w : World) (e : Event) : option World :=
  match e with
  | ProxyConnected c =>
      a ← attempts w !! c;
      match call a with
      | AwaitingProxy =>
          Some (set_attempt w c
                  (attempt_after_authenticate (attempt_key a) (attempt_config a) true))
      | _ => None
      end
  | ProxyFailed c msg =>
      a ← attempts w !! c;
      match call a with
      | AwaitingProxy =>
          Some (set_attempt w c
                  (with_call a
                     (Failed ("Failed to create SOCKS proxy connection for ["
                              +:+ attempt_key a +:+ "]: " +:+ msg))))
      | _ => None
      end
  | Ready c =>
      a ← attempts w !! c;
      match link a with
      | Handshaking =>
          let a1 := with_collecting (with_link a Established) true in
          let a2 := match call a with
                    | AwaitingReady => with_call a1 Resolved
                    | _ => a1
                    end in
          Some (set_attempt (set_connected w (attempt_key a) true) c a2)
      | _ => None
      end
  | Resume c =>
      a ← attempts w !! c;
      match call a with
      | Resolved =>
          let this := manager w in
          Some (set_attempt
                  (with_manager w
                     (with_clients this (<[attempt_key a := c]> (clients this))))
                  c (with_call a Returned))
      | _ => None
      end
  | ClientError c msg =>
      a ← attempts w !! c;
      if link_open (link a) then
        let a' := match call a with
                  | AwaitingReady =>
                      with_call a (Failed ("SSH connection [" +:+ attempt_key a
                                           +:+ "] failed: " +:+ msg))
                  | _ => a
                  end in
        Some (set_attempt (set_connected w (attempt_key a) false) c a')
      else None
  | ClientClose c =>
      a ← attempts w !! c;
      if link_open (link a) then
        Some (set_attempt (set_connected w (attempt_key a) false) c (with_link a Gone))
      else None
  | StatusSettled c session started finished =>
      a ← attempts w !! c;
      if collecting a then
        let status :=
          match collectSystemStatus session (attempt_key a) started with
          | Ok status => status
          | Throw _ =>
              {| reachable := true;
                 hostname := None; ipAddresses := None; osName := None;
                 osVersion := None; kernelVersion := None; uptime := None;
                 diskSpace := None; drives := None; memory := None;
                 cpu := None; gpus := None; processes := None;
                 services := None; lastUpdated := Some finished |}
          end in
        let this := manager w in
        Some (set_attempt
                (with_manager w
                   (with_statusCache this
                      (<[attempt_key a := status]> (statusCache this))))
                c (with_collecting a false))
      else None
  end.

(** A schedule of callbacks, run from left to right. *)
Fixpoint run_events (w : World) (es : list Event) : option World :=
  match es with
  | [] => Some w
  | e :: rest => w' ← step w e; run_events w' rest
  end.

(** The end of [ensureConnected], after its [await] if there was one. *)
Definition ensureConnected_resume (w : World) (key : string) : Result Client :=
  match clients (manager w) !! key with
  | Some client => Ok client
  | None => Throw ("SSH client for '" +:+ key +:+ "' not initialized")
  end.

(** [ensureConnected(name)], up to its first suspension. *)
Definition ensureConnected (w : World) (name : option string)
  : World * Started Client :=
  let this := manager w in
  let key := or_default name (defaultName this) in
  if negb (is_connected this key) || negb (bool_decide (is_Some (clients this !! key)))
  then
    match connect w (Some key) with
    | (w', Finished (Ok _)) => (w', Finished (ensureConnected_resume w' key))
    | (w', Finished (Throw msg)) => (w', Finished (Throw msg))
    | (w', Waiting c) => (w', Waiting c)
    end
  else (w, Finished (ensureConnected_resume w key)).

(** [disconnect()] in the world: [end()] is called on every stored client
    and the map of clients is emptied. *)
Definition disconnect_call (w : World) : World :=
  let '(this, closing) := disconnect (manager w) in
  {| manager := this; attempts := attempts w; ended := ended w ++ closing |}.

(** The number of authentication sequences in flight for [key]. *)
Definition in_flight (w : World) (key : string) : nat :=
  length (List.filter
            (fun a => (attempt_key a =? key)%string
                      && match link a with Handshaking => true | _ => false end)
            (attempts w)).

End Connections.

(* ===================================================================== *)
(** ** The asynchronous methods: commands and transfers *)
(* ===================================================================== *)

(** The events of a command stream, in the order of their delivery;
    [TimerFired] is the callback of [setTimeout]. *)
Inductive StreamEvent : Type :=
| Data (chunk : string)
| ErrData (chunk : string)
| Close (code : option Z)
| Error (message : string)
| TimerFired.

(** What [client.exec] hands to its callback: an error, or a stream and
    the events it goes on to deliver. *)
Inductive ExecReply : Type :=
| ExecFailed (message : string)
| ExecStream (events : list StreamEvent).

(** The variables of one [executeCommand] call: the two buffers, the timer
    ([delay] is what [setTimeout] was given, [timeoutId] is set while the
    timer can still fire), whether [stream.close()] was called, and the
    state of the returned promise. *)
Record Exec : Type := {
  data : string;
  errorData : string;
  delay : option Z;
  timeoutId : bool;
  closeAsked : bool;
  promise : option (Result string);
}.

(** [resolve] and [reject] settle the promise once. *)
Definition settle_promise (st : Exec) (r : Result string) : Exec :=
  {| data := data st; errorData := errorData st; delay := delay st;
     timeoutId := timeoutId st; closeAsked := closeAsked st;
     promise := match promise st with
                | Some first => Some first
                | None => Some r
                end |}.

Definition cleanup (st : Exec) : Exec :=
  {| data := data st; errorData := errorData st; delay := delay st;
     timeoutId := false; closeAsked := closeAsked st; promise := promise st |}.

Definition on_event (st : Exec) (e : StreamEvent) : Exec :=
  match e with
  | Data chunk =>
      {| data := data st +:+ chunk; errorData := errorData st;
         delay := delay st; timeoutId := timeoutId st;
         closeAsked := closeAsked st; promise := promise st |}
  | ErrData chunk =>
      {| data := data st; errorData := errorData st +:+ chunk;
         delay := delay st; timeoutId := timeoutId st;
         closeAsked := closeAsked st; promise := promise st |}
  | Close code => settle_promise (cleanup st) (Ok (data st))
  | Error msg => settle_promise (cleanup st) (Throw ("Stream error: " +:+ msg))
  | TimerFired =>
      if timeoutId st then
        {| data := data st; errorData := errorData st; delay := delay st;
           timeoutId := false; closeAsked := true; promise := promise st |}
      else st
  end.

Definition rejected_call (msg : string) : Exec :=
  {| data := ""; errorData := ""; delay := None; timeoutId := false;
     closeAsked := false; promise := Some (Throw msg) |}.

(** The callback of [client.exec(cmdString, ...)] and the handlers it
    installs, run over the reply of the remote side. *)
Definition exec_phase (timeout : Z) (reply : ExecReply) : Exec :=
  match reply with
  | ExecFailed msg => rejected_call ("Command execution error: " +:+ msg)
  | ExecStream events =>
      fold_left on_event events
        {| data := ""; errorData := ""; delay := Some timeout;
           timeoutId := true; closeAsked := false; promise := None |}
  end.

(** [options.timeout || 30000]. *)
Definition effective_timeout (timeout : option JsNum) : Z :=
  match timeout with
  | Some (Num z) => if (z =? 0)%Z then 30000 else z
  | Some NaN => 30000
  | None => 30000
  end.

Section Commands.

Context {runtime : Runtime} {float_text : FloatText}.

(** The first statements of [executeCommand]: the policy check. *)
Definition check_command (this : SSHConnectionManager) (cmdString : string)
    (name : option string) : Result unit :=
  validationResult ← validateCommand this cmdString name;
  if negb (isAllowed validationResult) then
    Throw ("Command validation failed: "
           +:+ default "undefined" (reason validationResult))
  else Ok ().

(** [executeCommand(cmdString, name, options)], up to its first
    suspension. *)
Definition executeCommand_start (w : World) (cmdString : string)
    (name : option string) : World * Started Client :=
  match check_command (manager w) cmdString name with
  | Throw msg => (w, Finished (Throw msg))
  | Ok _ => ensureConnected w name
  end.

(** [executeCommand(cmdString, name, { timeout })] as a whole, given what
    its two waits deliver: [ensured] is the outcome of
    [await this.ensureConnected(name)] and [reply] what the remote side
    answers to [client.exec]. The promise of the result is still pending
    when the events so far contain neither a close nor an error. *)
Definition executeCommand (this : SSHConnectionManager) (cmdString : string)
    (name : option string) (timeout : option JsNum)
    (ensured : Result Client) (reply : ExecReply) : Exec :=
  match check_command this cmdString name with
  | Throw msg => rejected_call msg
  | Ok _ =>
      match ensured with
      | Throw msg => rejected_call msg
      | Ok client => exec_phase (effective_timeout timeout) reply
      end
  end.

(** [upload(localPath, remotePath, name)] and
    [download(remotePath, localPath, name)], up to their first suspension:
    the local path is validated, then the session is ensured. The transfer
    over the SFTP channel that follows is not part of this development. *)
Definition upload_start (w : World) (cwd : string) (localPath remotePath : string)
    (name : option string) : World * Started Client :=
  match validateLocalPath cwd localPath with
  | Throw msg => (w, Finished (Throw msg))
  | Ok validatedLocalPath => ensureConnected w name
  end.

Definition download_start (w : World) (cwd : string) (remotePath localPath : string)
    (name : option string) : World * Started Client :=
  match validateLocalPath cwd localPath with
  | Throw msg => (w, Finished (Throw msg))
  | Ok validatedLocalPath => ensureConnected w name
  end.

End Commands.

(* ===================================================================== *)
(** ** A small runtime, for running the definitions on examples, and the
       number texts of the runtime *)
(* ===================================================================== *)

(** Patterns without operators: an optional leading [^], then literal
    text. Any other pattern is refused by this runtime, as a malformed
    pattern is by the real one. *)
Record LiteralPattern : Type := { anchored : bool; literal : string }.

Definition is_operator (c : ascii) : bool :=
  existsb (Ascii.eqb c)
    ["\"; "^"; "$"; "."; "|"; "?"; "*"; "+"; "("; ")"; "["; "]"; "{"; "}"]%char.

Fixpoint all_literal (s : string) : bool :=
  match s with
  | EmptyString => true
  | String c rest => negb (is_operator c) && all_literal rest
  end.

Definition literal_pattern (pattern : string) : Result LiteralPattern :=
  let '(anchor, text) :=
    match pattern with
    | String "^" rest => (true, rest)
    | _ => (false, pattern)
    end in
  if all_literal text then Ok {| anchored := anchor; literal := text |}
  else Throw ("Invalid regular expression: /" +:+ pattern +:+ "/").

Definition literal_test (p : LiteralPattern) (text : string) : bool :=
  if anchored p then startsWith text (literal p) else includes text (literal p).

(** Files and proxy URLs are absent from the small runtime. *)
Definition small_runtime : Runtime :=
  {| RegExp := LiteralPattern;
     RegExp_new := literal_pattern;
     RegExp_test := literal_test;
     readFileSync := fun path =>
       Throw ("ENOENT: no such file or directory, open '" +:+ path +:+ "'");
     URL_new := fun text => Throw "Invalid URL" |}.

(** What [parseFloat] returns. *)
Inductive Float : Type :=
| Float_NaN
| Float_Infinity (negative : bool)
| Float_finite (negative : bool) (magnitude : Binary).

(** The exponent part of a decimal literal at the head of [s]: [e] or [E],
    an optional sign and at least one digit; 0 without one. *)
Definition exponent_part (s : string) : Z :=
  match s with
  | String c rest =>
      if Ascii.eqb c "e" || Ascii.eqb c "E" then
        match rest with
        | String "-" digits => - default 0 (leading_digits digits None)
        | String "+" digits => default 0 (leading_digits digits None)
        | _ => default 0 (leading_digits rest None)
        end
      else 0
  | EmptyString => 0
  end.

(** [parseFloat(s)]: after the leading white space, the longest prefix that
    is a decimal literal (sign, [Infinity] or digits with an optional
    fraction and exponent) is read, and its value is rounded to the nearest
    double; [NaN] when there is no such prefix. *)
Definition parseFloat (s : string) : Float :=
  let t := trimStart s in
  let '(negative, body) :=
    match t with
    | String "-" rest => (true, rest)
    | String "+" rest => (false, rest)
    | _ => (false, t)
    end in
  if startsWith body "Infinity" then Float_Infinity negative else
  let '(whole, after_whole) := span is_digit body in
  let '(fraction, after_fraction) :=
    match after_whole with
    | String "." rest => span is_digit rest
    | _ => (EmptyString, after_whole)
    end in
  if negb (truthy whole) && negb (truthy fraction) then Float_NaN else
  let digits := default 0 (leading_digits (whole +:+ fraction) None) in
  let power := exponent_part after_fraction - Z.of_nat (String.length fraction) in
  let size := Z.of_nat (String.length (whole +:+ fraction)) in
  if digits =? 0 then Float_finite negative {| mantissa := 0; exponent := 0 |}
  else if 310 <? power then Float_Infinity negative
  else if size + power <? -330 then Float_finite negative {| mantissa := 0; exponent := 0 |}
  else match nearest_double (digits * 10 ^ Z.max 0 power) (10 ^ Z.max 0 (- power)) with
       | Some b => Float_finite negative b
       | None => Float_Infinity negative
       end.

(** The integer [b] stands for, when its exponent is not negative. *)
Definition integer_of (b : Binary) : Z := mantissa b * 2 ^ exponent b.

Definition ten_21 : Z := 1000000000000000000000.

(** The shortest decimal [s * 10 ^ p] that reads back as the double [v], an
    integer: [digits] digits are tried, then one more. *)
Fixpoint shortest_decimal (fuel : nat) (v : Z) (size : Z) (digits : Z) : Z * Z :=
  match fuel with
  | O => (v, 0)
  | S fuel' =>
      let p := size - digits in
      let low := v / 10 ^ p in
      let reads_back s :=
        match nearest_double (s * 10 ^ p) 1 with
        | Some b => integer_of b =? v
        | None => false
        end in
      let near_low := v - low * 10 ^ p in
      let near_high := (low + 1) * 10 ^ p - v in
      match reads_back low, reads_back (low + 1) with
      | true, true =>
          if near_low <? near_high then (low, p)
          else if near_high <? near_low then (low + 1, p)
               else if Z.even low then (low, p) else (low + 1, p)
      | true, false => (low, p)
      | false, true => (low + 1, p)
      | false, false => shortest_decimal fuel' v size (digits + 1)
      end
  end.

Fixpoint drop_trailing_zeros (fuel : nat) (s : Z) : Z :=
  match fuel with
  | O => s
  | S fuel' => if (0 <? s) && (s mod 10 =? 0) then drop_trailing_zeros fuel' (s / 10) else s
  end.

(** [String(x)] for a finite double [v >= 1e21]: the shortest digits, a
    point after the first when there are more, and the exponent. *)
Definition exponential_text (v : Z) : string :=
  let size := Z.of_nat (String.length (pretty v)) in
  let '(s, p) := shortest_decimal 17 v size 1 in
  let power := Z.of_nat (String.length (pretty (s * 10 ^ p))) - 1 in
  match pretty (drop_trailing_zeros 17 s) with
  | String first EmptyString => String first ("e+" +:+ pretty power)
  | String first more => String first ("." +:+ more +:+ "e+" +:+ pretty power)
  | EmptyString => EmptyString
  end.

(** [x.toFixed(1)]. *)
Definition toFixed1 (x : Float) : string :=
  match x with
  | Float_NaN => "NaN"
  | Float_Infinity negative => (if negative then "-" else "") +:+ "Infinity"
  | Float_finite negative b =>
      let sign := if negative && (0 <? mantissa b) then "-" else "" in
      if (0 <=? exponent b) && (ten_21 <=? integer_of b)
      then sign +:+ exponential_text (integer_of b)
      else
        let n :=
          if 0 <=? exponent b then 10 * integer_of b
          else (20 * mantissa b + 2 ^ (- exponent b)) / 2 ^ (1 - exponent b) in
        sign +:+ pretty (n / 10) +:+ "." +:+ pretty (n mod 10)
  end.

(** [parseFloat] and [toFixed(1)] on texts of 8-bit code units, computed
    over the integers. *)
Definition decimal_text : FloatText :=
  {| parseFloat_isNaN := fun s =>
       match parseFloat s with
       | Float_NaN => true
       | _ => false
       end;
     parseFloat_toFixed1 := fun s => toFixed1 (parseFloat s) |}.

(* ===================================================================== *)
(** ** Vocabulary of the specification and example inputs *)
(* ===================================================================== *)

(** The seventeen diagnostic commands, in the order of the batch. *)
Definition all_commands : list string :=
  [commands.hostname; commands.ipAddresses; commands.osName;
   commands.osVersion; commands.kernelVersion; commands.uptime;
   commands.diskSpace; commands.memory; commands.cpuName;
   commands.cpuUsage; commands.gpus; commands.gpuPaths; commands.drives;
   commands.processes; commands.threads; commands.servicesRunning;
   commands.servicesInstalled].

(** A diagnostic command fails when [execCommand] rejects: [exec] reports
    an error, or the stream closes with an exit code other than 0. *)
Definition exec_fails (client : Session) (command : string) : bool :=
  match execCommand client command with
  | Ok _ => false
  | Throw _ => true
  end.

(** No optional field of the snapshot is populated. *)
Definition no_optional_field (s : ServerStatus) : Prop :=
  hostname s = None /\ ipAddresses s = None /\ osName s = None /\
  osVersion s = None /\ kernelVersion s = None /\ uptime s = None /\
  diskSpace s = None /\ memory s = None /\ cpu s = None /\ gpus s = None /\
  drives s = None /\ processes s = None /\ services s = None.

(** The snapshot of a collection in which nothing but, possibly, the disk
    usage was obtained: the two count structures are there, at zero. *)
Definition bare_status (disk : option Space) (now : string) : ServerStatus :=
  {| reachable := true;
     hostname := None; ipAddresses := None; osName := None;
     osVersion := None; kernelVersion := None; uptime := None;
     diskSpace := disk; drives := None; memory := None; cpu := None;
     gpus := None;
     processes := Some {| running := Num 0; threads := Num 0 |};
     services := Some {| services_running := Num 0; installed := Num 0 |};
     lastUpdated := Some now |}.

(** A session on which every [exec] reports an error. *)
Definition failing_session : Session := fun _ => ExecError "Not connected".

(** A session on which only the disk usage of the root file system is
    obtained. *)
Definition disk_only_session : Session := fun command =>
  if (command =? commands.diskSpace)%string
  then ExecClose [Stdout ("free:20G total:50G" +:+ String "010" "")] (Some 0)
  else ExecClose [Stderr "sh: command not found"] (Some 127).

Definition example_time : string := "2025-01-01T00:00:00.000Z".

(** The path segments of [s]. *)
Definition segments (s : string) : list string :=
  List.filter truthy (split "/" s).

Fixpoint list_prefix (a b : list string) : bool :=
  match a, b with
  | [], _ => true
  | x :: a', y :: b' => (x =? y)%string && list_prefix a' b'
  | _ :: _, [] => false
  end.

(** The absolute path [path] lies inside the tree of the directory [dir]:
    the segments of [dir] are the first segments of [path]. *)
Definition inside_tree (dir path : string) : bool :=
  list_prefix (segments dir) (segments path).

Section PolicyVocabulary.

Context {runtime : Runtime}.

(** [command] matches [pattern], read as a regular expression. *)
Definition matches (pattern command : string) : Prop :=
  exists regex, RegExp_new pattern = Ok regex /\ RegExp_test regex command = true.

(** Every pattern of the list is a regular expression. *)
Definition well_formed (patterns : option (list string)) : Prop :=
  forall pattern, In pattern (default [] patterns) ->
    exists regex, RegExp_new pattern = Ok regex.

(** The policy in the words of the specification: the allow-list is absent,
    empty or matched by the command, and the deny-list is absent, empty or
    not matched by it. *)
Definition policy_allows (whitelist blacklist : option (list string))
    (command : string) : Prop :=
  (whitelist = None \/ whitelist = Some [] \/
   exists pattern, In pattern (default [] whitelist) /\ matches pattern command)
  /\
  (blacklist = None \/ blacklist = Some [] \/
   forall pattern, In pattern (default [] blacklist) -> ~ matches pattern command).

(** The patterns of [pre] are regular expressions that [command] does not
    match. *)
Definition all_miss (pre : list string) (command : string) : Prop :=
  forall q, In q pre ->
    exists regex, RegExp_new q = Ok regex /\ RegExp_test regex command = false.

(** Going through the list in its order, the check comes to a malformed
    pattern, whose error is [msg]: no pattern before it matches. *)
Definition reaches_malformed (patterns : option (list string))
    (command msg : string) : Prop :=
  exists pre p rest,
    patterns = Some (pre ++ p :: rest)%list /\ all_miss pre command /\
    RegExp_new p = Throw msg.

(** Going through the list in its order, the check comes to a pattern that
    matches: the patterns before it are regular expressions. *)
Definition reaches_match (patterns : option (list string)) (command : string)
  : Prop :=
  exists pre p rest,
    patterns = Some (pre ++ p :: rest)%list /\ all_miss pre command /\
    matches p command.

End PolicyVocabulary.

(** The text a stream delivered on its standard output, and on its standard
    error. *)
Definition stdout_of (events : list StreamEvent) : string :=
  fold_left (fun text e => match e with Data chunk => text +:+ chunk | _ => text end)
            events "".

Definition stderr_of (events : list StreamEvent) : string :=
  fold_left (fun text e => match e with ErrData chunk => text +:+ chunk | _ => text end)
            events "".

(** The stream is still running: no close and no error so far. *)
Definition running_event (e : StreamEvent) : bool :=
  match e with
  | Close _ | Error _ => false
  | Data _ | ErrData _ | TimerFired => true
  end.

(** A descriptor with a password, an allow-list and a deny-list. *)
Definition example_config : SSHConfig :=
  {| name := Some "web"; host := "10.0.0.5"; port := 22; username := "deploy";
     password := Some "secret"; privateKey := None; passphrase := None;
     commandWhitelist := Some ["^ls"; "cat "];
     commandBlacklist := Some ["passwd"];
     socksProxy := None |}.

Definition example_manager : SSHConnectionManager :=
  setConfig new_manager [("web", example_config)] None.

(** Nothing connected yet. *)
Definition example_world : World :=
  {| manager := example_manager; attempts := []; ended := [] |}.

(** Nothing but the disk usage is populated. *)
Definition only_disk_populated (s : ServerStatus) : Prop :=
  diskSpace s <> None /\
  hostname s = None /\ ipAddresses s = None /\ osName s = None /\
  osVersion s = None /\ kernelVersion s = None /\ uptime s = None /\
  memory s = None /\ cpu s = None /\ gpus s = None /\ drives s = None /\
  processes s = None /\ services s = None.

(** A client whose authentication sequence is in flight, created by a
    [connect] call that waits for its ["ready"]. *)
Definition handshaking (key : string) (config : SSHConfig)
    (options : ConnectOptions) : Attempt :=
  {| attempt_key := key; attempt_config := config; link := Handshaking;
     call := AwaitingReady; sshConfig := Some options; collecting := false |}.

(** The example world after [connect("web")] has succeeded and the status
    collection it started has filled the cache. *)
Definition connected_world : World :=
  default example_world
    (run_events (runtime := small_runtime) (float_text := decimal_text)
       (connect (runtime := small_runtime) example_world (Some "web")).1
       [Ready 0%nat; Resume 0%nat;
        StatusSettled 0%nat failing_session example_time example_time]).

(** The working directory of the examples. *)
Definition example_cwd : string := "/home/user/app".

(* ===================================================================== *)
(** ** [connectAll], and the runs of the manager *)
(* ===================================================================== *)

Section Runs.

Context {runtime : Runtime} {float_text : FloatText}.

(** The loop of [connectAll()] over the names still to connect: every name
    is connected in turn, the loop waits where [connect] waits and an
    exception of [connect] ends it. The third component is the list of the
    names the loop has not come to. A [connect] that returns at once is
    followed directly by the next one: what other calls do in between is
    theirs, not the loop's. *)
Fixpoint connectAll_from (w : World) (names : list string)
  : World * Started unit * list string :=
  match names with
  | [] => (w, Finished (Ok ()), [])
  | name :: rest =>
      match connect w (Some name) with
      | (w', Finished (Ok _)) => connectAll_from w' rest
      | (w', Finished (Throw msg)) => (w', Finished (Throw msg), rest)
      | (w', Waiting c) => (w', Waiting c, rest)
      end
  end.

(** [connectAll()], up to its first suspension. *)
Definition connectAll (w : World) : World * Started unit * list string :=
  connectAll_from w (Object_keys (configs (manager w))).

(** The loop after its wait on client [c]: it goes on with the remaining
    names when the [connect] call of [c] has returned, and ends with the
    exception of that call when it was rejected. *)
Definition connectAll_resume (w : World) (c : Client) (rest : list string)
  : World * Started unit * list string :=
  match call <$> attempts w !! c with
  | Some Returned => connectAll_from w rest
  | Some (Failed msg) => (w, Finished (Throw msg), rest)
  | _ => (w, Waiting c, rest)
  end.

(** What can happen to the manager: a call of one of its methods, by its
    synchronous prefix, or a callback. *)
Inductive Action : Type :=
| CallSetConfig (newConfigs : list (string * SSHConfig)) (newDefault : option string)
| CallConnect (name : option string)
| CallConnectAll
| CallExecuteCommand (cmdString : string) (name : option string)
| CallUpload (cwd localPath remotePath : string) (name : option string)
| CallDownload (cwd remotePath localPath : string) (name : option string)
| CallDisconnect
| Callback (e : Event)
| ResumeConnectAll (c : Client) (rest : list string).

Definition perform (w : World) (a : Action) : option World :=
  match a with
  | CallSetConfig newConfigs newDefault =>
      Some (with_manager w (setConfig (manager w) newConfigs newDefault))
  | CallConnect name => Some (connect w name).1
  | CallConnectAll => Some (connectAll w).1.1
  | CallExecuteCommand cmdString name => Some (executeCommand_start w cmdString name).1
  | CallUpload cwd localPath remotePath name =>
      Some (upload_start w cwd localPath remotePath name).1
  | CallDownload cwd remotePath localPath name =>
      Some (download_start w cwd remotePath localPath name).1
  | CallDisconnect => Some (disconnect_call w)
  | Callback e => step w e
  | ResumeConnectAll c rest => Some (connectAll_resume w c rest).1.1
  end.




(** The worlds a fresh manager can get into. *)
Inductive reachable_world : World -> Prop :=
| reachable_fresh :
    reachable_world {| manager := new_manager; attempts := []; ended := [] |}
| reachable_perform (w w' : World) (a : Action) :
    reachable_world w -> perform w a = Some w' -> reachable_world w'.

End Runs.

(** What the maps of the manager say agrees with the clients:
    - a stored handle is a client that was created for that name and whose
      [connect] call has returned;
    - a call is resolved only after ["ready"];
    - a call waiting for its proxy has not started to authenticate;
    - a name is flagged connected only while a session established for it
      is open;
    - a cached snapshot is reachable and has its timestamp. *)
Record consistent (w : World) : Prop := {
  stored_returned :
    forall key (c : Client), clients (manager w) !! key = Some c ->
      exists a, attempts w !! c = Some a /\ attempt_key a = key /\ call a = Returned;
  resolved_ready :
    forall (c : Client) a, attempts w !! c = Some a ->
      call a = Resolved \/ call a = Returned ->
      link a = Established \/ link a = Gone;
  proxy_idle :
    forall (c : Client) a, attempts w !! c = Some a -> call a = AwaitingProxy -> link a = Idle;
  flag_established :
    forall key, connected (manager w) !! key = Some true ->
      exists (c : Client) a, attempts w !! c = Some a /\ attempt_key a = key /\
                  link a = Established;
  cached_reachable :
    forall key status, statusCache (manager w) !! key = Some status ->
      reachable status = true /\ is_Some (lastUpdated status);
}.


(** A descriptor with a key file and a password. *)
Definition keyfile_config : SSHConfig :=
  {| name := Some "db"; host := "10.0.0.6"; port := 22; username := "admin";
     password := Some "secret"; privateKey := Some "/home/user/.ssh/id_db";
     passphrase := None; commandWhitelist := None; commandBlacklist := None;
     socksProxy := None |}.

(** A descriptor reached through a SOCKS proxy. *)
Definition proxy_config : SSHConfig :=
  {| name := Some "far"; host := "192.168.7.2"; port := 2222; username := "ops";
     password := Some "secret"; privateKey := None; passphrase := None;
     commandWhitelist := None; commandBlacklist := None;
     socksProxy := Some "socks://10.0.0.1:1080" |}.

(** The small runtime, with a proxy URL it can read. *)
Definition proxy_runtime : Runtime :=
  {| RegExp := LiteralPattern;
     RegExp_new := literal_pattern;
     RegExp_test := literal_test;
     readFileSync := fun path =>
       Throw ("ENOENT: no such file or directory, open '" +:+ path +:+ "'");
     URL_new := fun text =>
       if startsWith text "socks://10.0.0.1:1080" then Ok ("10.0.0.1", Num 1080)
       else Throw "Invalid URL" |}.

(** Three servers configured, none connected. *)
Definition fleet_world : World :=
  {| manager :=
       setConfig new_manager
         [("web", example_config); ("db", keyfile_config); ("far", proxy_config)]
         None;
     attempts := []; ended := [] |}.

(** What [client.connect] is given for the example descriptor. *)
Definition example_options : ConnectOptions :=
  {| opt_host := "10.0.0.5"; opt_port := 22; opt_username := "deploy";
     opt_sock := false; opt_privateKey := None; opt_passphrase := None;
     opt_password := Some "secret" |}.

(** A descriptor whose allow-list ends in a malformed pattern, and one
    whose allow-list has it in the middle. *)
Definition lenient_config : SSHConfig :=
  {| name := Some "lab"; host := "10.0.0.7"; port := 22; username := "guest";
     password := Some "secret"; privateKey := None; passphrase := None;
     commandWhitelist := Some ["^cat"; "^ls"; "("];
     commandBlacklist := None; socksProxy := None |}.

Definition broken_config : SSHConfig :=
  {| name := Some "lab"; host := "10.0.0.7"; port := 22; username := "guest";
     password := Some "secret"; privateKey := None; passphrase := None;
     commandWhitelist := Some ["^cat"; "("; "^ls"];
     commandBlacklist := None; socksProxy := None |}.

(** A descriptor whose two lists end in a malformed pattern. *)
Definition guarded_config : SSHConfig :=
  {| name := Some "lab"; host := "10.0.0.7"; port := 22; username := "guest";
     password := Some "secret"; privateKey := None; passphrase := None;
     commandWhitelist := Some ["^ls"; "^cat"; "("];
     commandBlacklist := Some ["shadow"; "passwd"; "("]; socksProxy := None |}.

Definition guarded_manager : SSHConnectionManager :=
  setConfig new_manager [("lab", guarded_config)] None.

Definition lenient_manager : SSHConnectionManager :=
  setConfig new_manager [("lab", lenient_config)] None.

Definition broken_manager : SSHConnectionManager :=
  setConfig new_manager [("lab", broken_config)] None.

(** The callback of the timer. *)
Definition is_timer (e : StreamEvent) : bool :=
  match e with
  | TimerFired => true
  | _ => false
  end.

(** The client on which a callback runs. *)
Definition event_client (e : Event) : Client :=
  match e with
  | ProxyConnected c | ProxyFailed c _ | Ready c | Resume c
  | ClientError c _ | ClientClose c | StatusSettled c _ _ _ => c
  end.

(** The client whose [connect] call for [key] is the last to resume in the
    schedule [es], the clients being those of [w]; [stored] when no call for
    [key] resumes. *)
Fixpoint last_resumed (w : World) (key : string) (es : list Event)
    (stored : option Client) : option Client :=
  match es with
  | [] => stored
  | Resume c :: rest =>
      if bool_decide (attempt_key <$> attempts w !! c = Some key)
      then last_resumed w key rest (Some c)
      else last_resumed w key rest stored
  | _ :: rest => last_resumed w key rest stored
  end.

(** The ways of running two sequences side by side, each in its order. *)
Fixpoint interleavings {A : Type} (xs : list A) : list A -> list (list A) :=
  fix inner (ys : list A) : list (list A) :=
    match xs, ys with
    | [], _ => [ys]
    | _, [] => [xs]
    | x :: xs', y :: ys' =>
        (map (cons x) (interleavings xs' ys) ++ map (cons y) (inner ys'))%list
    end.

(** A client as [connect] creates it. *)
Definition fresh_attempt (a : Attempt) : Prop :=
  (call a = AwaitingProxy /\ link a = Idle) \/
  (call a = AwaitingReady /\ link a = Handshaking) \/
  (exists msg, call a = Failed msg /\ link a = Idle).

(** A text the collector stores: not empty, and without white space around
    it. *)
Definition trimmed (s : string) : Prop := truthy s = true /\ trim s = s.

(** No code unit of [s] is white space. *)
Fixpoint no_space (s : string) : bool :=
  match s with
  | EmptyString => true
  | String c rest => non_space c && no_space rest
  end.

(** No code unit of [s] is [sep]. *)
Fixpoint free_of (sep : ascii) (s : string) : bool :=
  match s with
  | EmptyString => true
  | String c rest => negb (Ascii.eqb c sep) && free_of sep rest
  end.

(** A count as the collector stores it: [NaN], an integer that is not
    negative (every double from [2 ^ 53] on is an even integer), or
    [Infinity]. *)
Definition floored (x : Double) : Prop :=
  x = NaN \/ x = Infinity false \/ exists n, x = Num n /\ 0 <= n.

(** A group of [free:(\S+)\s+total:(\S+)]: not empty, without white
    space. *)
Definition group_text (s : string) : Prop :=
  truthy s = true /\ no_space s = true.

(** A field of a [|]-separated line as the remote command prints it: no
    separator and no line break in it, no white space around it. *)
Definition field_text (s : string) : Prop :=
  free_of "|" s = true /\ free_of "010" s = true /\ trim s = s.

(** The string does not start with white space. *)
Definition head_clean (s : string) : Prop :=
  match s with
  | EmptyString => True
  | String c _ => is_space c = false
  end.

(** The line the [awk] program of the drives command prints for one file
    system. *)
Definition drive_line (d t u f p m : string) : string :=
  join "|" [d; t; u; f; p; m].

Definition newline : string := String "010" "".

(** A session on which the host name, the addresses, the GPUs with their
    device files and the drives are obtained. *)
Definition inventory_session : Session := fun command =>
  if (command =? commands.hostname)%string then
    ExecClose [Stdout ("  web-01 " +:+ newline)] (Some 0)
  else if (command =? commands.ipAddresses)%string then
    ExecClose [Stdout ("10.0.0.5" +:+ newline +:+ "127.0.0.1" +:+ newline
                       +:+ "192.168.1.4" +:+ newline)] (Some 0)
  else if (command =? commands.gpus)%string then
    ExecClose [Stdout ("NVIDIA|GeForce RTX 3080| 35" +:+ newline
                       +:+ "OTHER|N/A|" +:+ newline
                       +:+ "OTHER|Matrox G200|" +:+ newline)] (Some 0)
  else if (command =? commands.gpuPaths)%string then
    ExecClose [Stdout ("/dev/dri/card0" +:+ newline)] (Some 0)
  else if (command =? commands.drives)%string then
    ExecClose [Stdout ("/dev/sda1|50G|20G|30G|40%|/" +:+ newline)] (Some 0)
  else ExecError "Not connected".

(** A text of 310 digits. *)
Definition nines : string := string_of_list_ascii (repeat "9"%char 310).

(** A session on which the four count commands print a number of lines, a
    number beyond [2 ^ 53], nothing, and a number beyond the doubles. *)
Definition counting_session : Session := fun command =>
  if (command =? commands.processes)%string then
    ExecClose [Stdout ("143" +:+ newline)] (Some 0)
  else if (command =? commands.threads)%string then
    ExecClose [Stdout ("9007199254740995" +:+ newline)] (Some 0)
  else if (command =? commands.servicesRunning)%string then
    ExecClose [] (Some 0)
  else if (command =? commands.servicesInstalled)%string then
    ExecClose [Stdout (nines +:+ newline)] (Some 0)
  else ExecError "Not connected".

(** A segment of a resolved path: not empty, not [.] and not [..]. *)
Definition plain_segment (seg : string) : bool :=
  truthy seg && negb (seg =? ".")%string && negb (seg =? "..")%string.

(* ===================================================================== *)
(** * Properties *)
(* ===================================================================== *)

(** ** The status collector *)

Section CollectorFacts.

Context {float_text : FloatText}.

Lemma run_of_failure (client : Session) (command fallback : string) :
  exec_fails client command = true ->
  run client command fallback = fulfilled fallback.
Proof.
  unfold exec_fails, run.
  destruct (execCommand client command); [discriminate | reflexivity].
Qed.

Lemma run_of_success (client : Session) (command fallback out : string) :
  execCommand client command = Ok out ->
  run client command fallback = fulfilled out.
Proof. unfold run. intros ->. reflexivity. Qed.

(** Every entry of the batch is fulfilled: the [catch] of each command
    leaves nothing to reject. *)
Lemma run_fulfilled (client : Session) (command fallback : string) :
  exists value, run client command fallback = fulfilled value.
Proof. unfold run. destruct (execCommand client command); simpl; eauto. Qed.

Lemma collect_try_never_throws (client : Session) (now : string) :
  exists status, collect_try client now = Ok status /\ lastUpdated status = Some now.
Proof. unfold collect_try. eexists. split; reflexivity. Qed.

Lemma match_free_total_truthy (out : string) (groups : string * string) :
  match_free_total out = Some groups -> truthy out = true.
Proof. destruct out; [discriminate | reflexivity]. Qed.

Ltac command_in_batch :=
  unfold all_commands; repeat first [left; reflexivity | right].

Ltac other_command :=
  apply String.eqb_neq; vm_compute; reflexivity.

(** C4, as the code has it. [collectSystemStatus] never throws: for every
    session it returns a snapshot. When every diagnostic command fails, the
    snapshot has its timestamp, [reachable] is still [true], the fields
    from [hostname] to [drives] are absent, and [processes] and [services]
    are populated with zero counts (a failed count command is replaced by
    the text ["0"]). *)
Theorem collect_when_all_fail (client : Session) (connectionName now : string) :
  (exists status, collectSystemStatus client connectionName now = Ok status) /\
  ((forall command, In command all_commands -> exec_fails client command = true) ->
   collectSystemStatus client connectionName now = Ok (bare_status None now)).
Proof.
  split.
  - unfold collectSystemStatus.
    destruct (collect_try_never_throws client now) as (status & -> & _). eauto.
  - intros Hfail. unfold collectSystemStatus, collect_try.
    rewrite !run_of_failure by (apply Hfail; command_in_batch).
    reflexivity.
Qed.

(** C5, as the code has it. When the disk-usage command is the only one to
    succeed and its output has the [free:… total:…] form, the collection
    returns a snapshot with [diskSpace] populated from the two groups, with
    [processes] and [services] populated with zero counts, and with every
    other optional field absent. *)
Theorem collect_when_only_disk (client : Session) (connectionName now : string)
    (out f t : string) :
  execCommand client commands.diskSpace = Ok out ->
  match_free_total out = Some (f, t) ->
  (forall command, In command all_commands -> command <> commands.diskSpace ->
     exec_fails client command = true) ->
  collectSystemStatus client connectionName now
  = Ok (bare_status (Some {| free := f; total := t |}) now).
Proof.
  intros Hdisk Hmatch Hfail. unfold collectSystemStatus, collect_try.
  rewrite (run_of_success _ _ _ _ Hdisk).
  rewrite !run_of_failure by (apply Hfail; [command_in_batch | other_command]).
  unfold bare_status. simpl.
  rewrite (match_free_total_truthy _ _ Hmatch), Hmatch. reflexivity.
Qed.

End CollectorFacts.

(** C4 at a session on which every command fails. *)
Lemma collect_when_all_fail_witness :
  (forall command, In command all_commands ->
     exec_fails failing_session command = true) /\
  collectSystemStatus (float_text := decimal_text) failing_session "web" example_time
  = Ok (bare_status None example_time).
Proof.
  assert (H : forall command, In command all_commands ->
                exec_fails failing_session command = true)
    by (intros command _; reflexivity).
  split; [exact H |].
  exact (proj2 (collect_when_all_fail (float_text := decimal_text)
                  failing_session "web" example_time) H).
Defined.

(** C4 as the specification states it fails on the session on which every
    [exec] reports an error: the snapshot returned is reachable and carries
    the two count structures. *)
Lemma collect_when_all_fail_counterexample :
  (forall command, In command all_commands ->
     exec_fails failing_session command = true) /\
  exists status,
    collectSystemStatus (float_text := decimal_text) failing_session "web" example_time
    = Ok status /\
    ~ (reachable status = false /\ no_optional_field status).
Proof.
  split; [intros command _; reflexivity |].
  eexists. split; [reflexivity |].
  intros [Hreach _]. vm_compute in Hreach. discriminate Hreach.
Qed.

(** C5 at a session on which only the disk usage is obtained. *)
Lemma collect_when_only_disk_witness :
  collectSystemStatus (float_text := decimal_text) disk_only_session "web" example_time
  = Ok (bare_status (Some {| free := "20G"; total := "50G" |}) example_time).
Proof.
  apply (collect_when_only_disk (float_text := decimal_text)
           disk_only_session "web" example_time "free:20G total:50G" "20G" "50G").
  - vm_compute. reflexivity.
  - vm_compute. reflexivity.
  - intros command Hin Hne. unfold all_commands in Hin. simpl in Hin.
    repeat (destruct Hin as [<- | Hin];
            [first [ vm_compute; reflexivity | exfalso; apply Hne; reflexivity ] |]).
    destruct Hin.
Defined.

(** C5 as the specification states it fails on that session: the snapshot
    carries the two count structures next to the disk usage. *)
Lemma collect_when_only_disk_counterexample :
  exec_fails disk_only_session commands.diskSpace = false /\
  (forall command, In command all_commands -> command <> commands.diskSpace ->
     exec_fails disk_only_session command = true) /\
  exists status,
    collectSystemStatus (float_text := decimal_text) disk_only_session "web" example_time
    = Ok status /\
    ~ only_disk_populated status.
Proof.
  split; [vm_compute; reflexivity |]. split.
  - intros command Hin Hne. unfold all_commands in Hin. simpl in Hin.
    repeat (destruct Hin as [<- | Hin];
            [first [ vm_compute; reflexivity | exfalso; apply Hne; reflexivity ] |]).
    destruct Hin.
  - eexists. split; [reflexivity |].
    unfold only_disk_populated. intros H.
    destruct H as (_ & _ & _ & _ & _ & _ & _ & _ & _ & _ & _ & Hproc & _).
    vm_compute in Hproc. discriminate Hproc.
Qed.

(** ** The command policy *)

Section PolicyFacts.

Context {runtime : Runtime}.

(** A malformed pattern makes the check throw as soon as it is reached. *)
Lemma validateCommand_malformed_pattern (this : SSHConnectionManager)
    (command : string) (name : option string) (config : SSHConfig)
    (p : string) (ps : list string) (msg : string) :
  getConfig this name = Ok config ->
  commandWhitelist config = Some (p :: ps) ->
  RegExp_new p = Throw msg ->
  validateCommand this command name = Throw msg.
Proof.
  intros Hconfig Hw Hp. unfold validateCommand.
  rewrite Hconfig. simpl. rewrite Hw. simpl. rewrite Hp. reflexivity.
Qed.

(** On a list of regular expressions, [some] answers whether one of them
    matches. *)
Lemma some_pattern_matches_spec (patterns : list string) (command : string) :
  (forall pattern, In pattern patterns -> exists regex, RegExp_new pattern = Ok regex) ->
  exists b, some_pattern_matches patterns command = Ok b /\
            (b = true <-> exists pattern, In pattern patterns /\ matches pattern command).
Proof.
  induction patterns as [| p rest IH]; intros Hwf.
  - exists false. split; [reflexivity |]. split; [discriminate |].
    intros (p & [] & _).
  - destruct (Hwf p (or_introl eq_refl)) as [regex Hregex].
    cbn. rewrite Hregex. cbn.
    destruct (RegExp_test regex command) eqn:Htest.
    + exists true. split; [reflexivity |]. split; [| reflexivity].
      intros _. exists p. split; [left; reflexivity |]. exists regex. auto.
    + destruct IH as (b & Hb & Hiff).
      { intros q Hq. apply Hwf. right. exact Hq. }
      exists b. split; [exact Hb |]. rewrite Hiff. split.
      * intros (q & Hq & Hm). exists q. split; [right; exact Hq | exact Hm].
      * intros (q & [<- | Hq] & Hm).
        -- destruct Hm as (regex' & Hregex' & Htest').
           rewrite Hregex in Hregex'. injection Hregex' as <-. congruence.
        -- exists q. auto.
Qed.

(** The patterns before the first match are compiled and tried; those
    after it are not looked at. *)
Lemma some_pattern_matches_first (pre rest : list string) (p command : string) :
  (forall q, In q pre ->
     exists regex, RegExp_new q = Ok regex /\ RegExp_test regex command = false) ->
  some_pattern_matches (pre ++ p :: rest)%list command
  = (regex ← RegExp_new p;
     if RegExp_test regex command then Ok true
     else some_pattern_matches rest command).
Proof.
  induction pre as [| q pre IH]; intros Hpre; [reflexivity |].
  destruct (Hpre q (or_introl eq_refl)) as (regex & Hq & Ht).
  cbn. rewrite Hq. cbn. rewrite Ht. apply IH.
  intros q' Hq'. apply Hpre. right. exact Hq'.
Qed.

#[local] Arguments some_pattern_matches : simpl never.

Lemma configured_spec (patterns : option (list string)) :
  (configured patterns = None /\ (patterns = None \/ patterns = Some [])) \/
  (exists p ps, configured patterns = Some (p :: ps) /\ patterns = Some (p :: ps)).
Proof. destruct patterns as [[| p ps] |]; simpl; eauto 6. Qed.

(** Whenever [some] returns, it answers whether one of the patterns
    matches: a returned [false] has compiled and tried them all. *)
Lemma some_pattern_matches_sound (patterns : list string) (command : string)
    (b : bool) :
  some_pattern_matches patterns command = Ok b ->
  (b = true <-> exists pattern, In pattern patterns /\ matches pattern command).
Proof.
  revert b. induction patterns as [| p rest IH]; intros b.
  - intros [= <-]. split; [discriminate |]. intros (p & [] & _).
  - unfold some_pattern_matches; fold some_pattern_matches.
    destruct (RegExp_new p) as [regex | msg] eqn:Hregex; cbn; [| discriminate].
    destruct (RegExp_test regex command) eqn:Htest.
    + intros [= <-]. split; [| reflexivity].
      intros _. exists p. split; [left; reflexivity |]. exists regex. auto.
    + intros Hrest. rewrite (IH b Hrest). split.
      * intros (q & Hq & Hm). exists q. split; [right; exact Hq | exact Hm].
      * intros (q & [<- | Hq] & Hm).
        -- destruct Hm as (regex' & Hregex' & Htest').
           rewrite Hregex in Hregex'. injection Hregex' as <-. congruence.
        -- exists q. auto.
Qed.

(** [some] throws exactly when it comes to a malformed pattern, and the
    error is that of the pattern. *)
Lemma some_pattern_matches_throws_iff (patterns : list string) (command msg : string) :
  some_pattern_matches patterns command = Throw msg <->
  exists pre p rest, patterns = (pre ++ p :: rest)%list /\ all_miss pre command /\
                     RegExp_new p = Throw msg.
Proof.
  split.
  - induction patterns as [| p rest IH]; [discriminate |].
    unfold some_pattern_matches; fold some_pattern_matches.
    destruct (RegExp_new p) as [regex | msg'] eqn:Hregex; cbn.
    + destruct (RegExp_test regex command) eqn:Htest; [discriminate |].
      intros H. destruct (IH H) as (pre & q & rest' & -> & Hpre & Hq).
      exists (p :: pre), q, rest'. split; [reflexivity |]. split; [| exact Hq].
      intros r [<- | Hr]; [eauto | auto].
    + intros [= <-]. exists [], p, rest. split; [reflexivity |].
      split; [intros r [] | exact Hregex].
  - intros (pre & p & rest & -> & Hpre & Hp).
    rewrite (some_pattern_matches_first pre rest p command Hpre), Hp. reflexivity.
Qed.

(** [some] answers [true] exactly when it comes to a pattern that
    matches. *)
Lemma some_pattern_matches_true_iff (patterns : list string) (command : string) :
  some_pattern_matches patterns command = Ok true <->
  exists pre p rest, patterns = (pre ++ p :: rest)%list /\ all_miss pre command /\
                     matches p command.
Proof.
  split.
  - induction patterns as [| p rest IH]; [discriminate |].
    unfold some_pattern_matches; fold some_pattern_matches.
    destruct (RegExp_new p) as [regex | msg'] eqn:Hregex; cbn; [| discriminate].
    destruct (RegExp_test regex command) eqn:Htest.
    + intros _. exists [], p, rest. split; [reflexivity |].
      split; [intros r [] |]. exists regex. auto.
    + intros H. destruct (IH H) as (pre & q & rest' & -> & Hpre & Hq).
      exists (p :: pre), q, rest'. split; [reflexivity |]. split; [| exact Hq].
      intros r [<- | Hr]; [eauto | auto].
  - intros (pre & p & rest & -> & Hpre & regex & Hp & Ht).
    rewrite (some_pattern_matches_first pre rest p command Hpre), Hp. cbn.
    rewrite Ht. reflexivity.
Qed.

Lemma configured_app (pre rest : list string) (p : string) :
  configured (Some (pre ++ p :: rest)%list) = Some (pre ++ p :: rest)%list.
Proof. destruct pre; reflexivity. Qed.

(** A command that matches no pattern of a non-empty allow-list is denied;
    the deny-list is not even looked at. *)
Lemma validateCommand_allow_list_miss (this : SSHConnectionManager)
    (command : string) (name : option string) (config : SSHConfig)
    (p : string) (ps : list string) :
  getConfig this name = Ok config ->
  commandWhitelist config = Some (p :: ps) ->
  well_formed (commandWhitelist config) ->
  (forall pattern, In pattern (p :: ps) -> ~ matches pattern command) ->
  validateCommand this command name
  = Ok {| isAllowed := false;
          reason := Some "Command not in whitelist, execution forbidden" |}.
Proof.
  intros Hconfig Hw Hwf Hmiss. unfold validateCommand.
  rewrite Hconfig. simpl. rewrite Hw in *. simpl.
  destruct (some_pattern_matches_spec (p :: ps) command Hwf) as (b & -> & Hiff).
  destruct b; [| reflexivity].
  destruct (proj1 Hiff eq_refl) as (q & Hq & Hm). destruct (Hmiss q Hq Hm).
Qed.

(** C2, as the code has it. For a configured connection, the result of
    [validateCommand] depends on nothing but the command and the two lists:
    any other manager, name and descriptor with the same lists give the same
    result. When the patterns of both lists are regular expressions it
    returns a verdict; and whenever it returns a verdict, the verdict is
    "allowed" exactly when the allow-list is absent, empty or matched by the
    command and the deny-list is absent, empty or not matched by it. It
    throws, instead of returning, exactly when it comes to a malformed
    pattern, and the error is that of the pattern: a pattern of the
    allow-list before which no allow pattern matches or, the allow-list
    being absent, empty or passed, a pattern of the deny-list before which
    no deny pattern matches. With no list configured every command is
    allowed; with a non-empty allow-list of regular expressions, a command
    that matches none of them is denied, whatever the deny-list holds. *)
Theorem validateCommand_policy (this : SSHConnectionManager) (command : string)
    (name : option string) (config : SSHConfig) :
  getConfig this name = Ok config ->
  (forall (this' : SSHConnectionManager) (name' : option string) (config' : SSHConfig),
     getConfig this' name' = Ok config' ->
     commandWhitelist config' = commandWhitelist config ->
     commandBlacklist config' = commandBlacklist config ->
     validateCommand this' command name' = validateCommand this command name) /\
  (well_formed (commandWhitelist config) -> well_formed (commandBlacklist config) ->
   exists verdict, validateCommand this command name = Ok verdict) /\
  (forall verdict, validateCommand this command name = Ok verdict ->
     (isAllowed verdict = true <->
      policy_allows (commandWhitelist config) (commandBlacklist config) command)) /\
  (forall msg, validateCommand this command name = Throw msg <->
     reaches_malformed (commandWhitelist config) command msg \/
     ((configured (commandWhitelist config) = None \/
       reaches_match (commandWhitelist config) command) /\
      reaches_malformed (commandBlacklist config) command msg)) /\
  (configured (commandWhitelist config) = None ->
   configured (commandBlacklist config) = None ->
   validateCommand this command name = Ok {| isAllowed := true; reason := None |}) /\
  (forall p ps,
     commandWhitelist config = Some (p :: ps) ->
     well_formed (commandWhitelist config) ->
     (forall pattern, In pattern (p :: ps) -> ~ matches pattern command) ->
     validateCommand this command name
     = Ok {| isAllowed := false;
             reason := Some "Command not in whitelist, execution forbidden" |}).
Proof.
  intros Hconfig.
  split; [| split; [| split; [| split; [| split]]]].
  - intros this' name' config' Hconfig' Ew Eb.
    unfold validateCommand. rewrite Hconfig, Hconfig'. simpl. rewrite Ew, Eb. reflexivity.
  - intros Hwl Hbl. unfold validateCommand. rewrite Hconfig. simpl.
    unfold well_formed in *.
    destruct (configured_spec (commandWhitelist config))
      as [[-> Hw] | (p & ps & -> & Hw)];
    destruct (configured_spec (commandBlacklist config))
      as [[-> Hb] | (q & qs & -> & Hb)]; simpl.
    + eauto.
    + rewrite Hb in Hbl.
      destruct (some_pattern_matches_spec (q :: qs) command Hbl) as (b & -> & _).
      simpl. destruct b; eauto.
    + rewrite Hw in Hwl.
      destruct (some_pattern_matches_spec (p :: ps) command Hwl) as (b & -> & _).
      simpl. destruct b; simpl; eauto.
    + rewrite Hw in Hwl. rewrite Hb in Hbl.
      destruct (some_pattern_matches_spec (p :: ps) command Hwl) as (b & -> & _).
      simpl. destruct b; simpl; [| eauto].
      destruct (some_pattern_matches_spec (q :: qs) command Hbl) as (b' & -> & _).
      simpl. destruct b'; eauto.
  - intros verdict. unfold validateCommand. rewrite Hconfig. simpl.
    unfold policy_allows.
    destruct (configured_spec (commandWhitelist config))
      as [[-> Hw] | (p & ps & -> & Hw)]; simpl.
    + destruct (configured_spec (commandBlacklist config))
        as [[-> Hb] | (q & qs & -> & Hb)]; simpl.
      * intros [= <-]. simpl. split; [| reflexivity]. intros _. split; tauto.
      * destruct (some_pattern_matches (q :: qs) command) as [b |] eqn:Hscan;
          simpl; [| discriminate].
        pose proof (some_pattern_matches_sound _ _ _ Hscan) as Hiff.
        rewrite Hb. simpl.
        destruct b; intros [= <-]; simpl.
        -- split; [discriminate |]. intros [_ [H | [H | H]]]; try discriminate.
           destruct (proj1 Hiff eq_refl) as (r & Hr & Hm). exfalso. exact (H r Hr Hm).
        -- split; [| reflexivity]. intros _. split; [tauto |]. right. right.
           intros r Hr Hm. assert (false = true) by (apply Hiff; eauto). discriminate.
    + destruct (some_pattern_matches (p :: ps) command) as [b |] eqn:Hallow;
        simpl; [| discriminate].
      pose proof (some_pattern_matches_sound _ _ _ Hallow) as Hiff.
      rewrite Hw. simpl.
      destruct b; simpl.
      * destruct (configured_spec (commandBlacklist config))
          as [[-> Hb] | (q & qs & -> & Hb)]; simpl.
        -- intros [= <-]. simpl. split; [| reflexivity]. intros _. split; [| tauto].
           right. right. apply Hiff. reflexivity.
        -- destruct (some_pattern_matches (q :: qs) command) as [b' |] eqn:Hdeny;
             simpl; [| discriminate].
           pose proof (some_pattern_matches_sound _ _ _ Hdeny) as Hiff'.
           rewrite Hb. simpl.
           destruct b'; intros [= <-]; simpl.
           ++ split; [discriminate |]. intros [_ [H | [H | H]]]; try discriminate.
              destruct (proj1 Hiff' eq_refl) as (r & Hr & Hm). exfalso. exact (H r Hr Hm).
           ++ split; [| reflexivity]. intros _. split.
              ** right. right. apply Hiff. reflexivity.
              ** right. right. intros r Hr Hm.
                 assert (false = true) by (apply Hiff'; eauto). discriminate.
      * intros [= <-]. simpl.
        split; [discriminate |]. intros [[H | [H | H]] _]; try discriminate.
        apply Hiff in H. discriminate.
  - intros msg. unfold validateCommand. rewrite Hconfig. simpl.
    unfold reaches_malformed, reaches_match.
    assert (Hdeny : forall l (r : Result bool),
              configured (commandBlacklist config) = Some l ->
              some_pattern_matches l command = r ->
              (r = Throw msg <->
               exists pre p rest,
                 commandBlacklist config = Some (pre ++ p :: rest)%list /\
                 all_miss pre command /\ RegExp_new p = Throw msg)).
    { intros l r Hl <-. rewrite some_pattern_matches_throws_iff.
      destruct (configured_spec (commandBlacklist config))
        as [[E _] | (q & qs & E & Hb)]; rewrite E in Hl; [discriminate |].
      injection Hl as <-. rewrite Hb.
      split; intros (pre & r & rest & E' & H); exists pre, r, rest;
        (split; [congruence | exact H]). }
    assert (Hnodeny : configured (commandBlacklist config) = None ->
              ~ exists pre p rest,
                  commandBlacklist config = Some (pre ++ p :: rest)%list /\
                  all_miss pre command /\ RegExp_new p = Throw msg).
    { intros Hnone (pre & r & rest & E & _). rewrite E, configured_app in Hnone.
      discriminate. }
    destruct (configured_spec (commandWhitelist config))
      as [[-> Hw] | (p & ps & -> & Hw)]; simpl.
    + assert (Hnoallow : ~ exists pre p rest,
                commandWhitelist config = Some (pre ++ p :: rest)%list /\
                all_miss pre command /\ RegExp_new p = Throw msg).
      { intros (pre & r & rest & E & _).
        destruct Hw as [Hw | Hw]; rewrite Hw in E; [discriminate |].
        injection E as E. destruct pre; discriminate. }
      destruct (configured (commandBlacklist config)) as [l |] eqn:Hl; simpl.
      * destruct (some_pattern_matches l command) as [b | msg'] eqn:Hscan; simpl;
          pose proof (Hdeny l _ eq_refl Hscan) as Hthrown.
        -- split.
           ++ destruct b; discriminate.
           ++ intros [H | [_ H]]; [destruct (Hnoallow H) |].
              apply Hthrown in H. discriminate.
        -- split.
           ++ intros E. right. split; [left; reflexivity |].
              apply Hthrown. injection E as ->. reflexivity.
           ++ intros [H | [_ H]]; [destruct (Hnoallow H) |].
              apply Hthrown in H. injection H as ->. reflexivity.
      * split; [discriminate |].
        intros [H | [_ H]]; [destruct (Hnoallow H) | destruct (Hnodeny eq_refl H)].
    + assert (Hallow : forall r : Result bool,
                some_pattern_matches (p :: ps) command = r ->
                (r = Throw msg <->
                 exists pre q rest,
                   commandWhitelist config = Some (pre ++ q :: rest)%list /\
                   all_miss pre command /\ RegExp_new q = Throw msg) /\
                (r = Ok true <->
                 exists pre q rest,
                   commandWhitelist config = Some (pre ++ q :: rest)%list /\
                   all_miss pre command /\ matches q command)).
      { intros r <-. rewrite some_pattern_matches_throws_iff,
          some_pattern_matches_true_iff, Hw.
        split; split; intros (pre & q & rest & E & H); exists pre, q, rest;
          (split; [congruence | exact H]). }
      destruct (some_pattern_matches (p :: ps) command) as [b | msg'] eqn:Hscan; simpl;
        destruct (Hallow _ eq_refl) as [Hthrow Htrue].
      * destruct b; simpl.
        -- destruct (configured (commandBlacklist config)) as [l |] eqn:Hl; simpl.
           ++ destruct (some_pattern_matches l command) as [b' | msg'] eqn:Hdscan; simpl;
                pose proof (Hdeny l _ eq_refl Hdscan) as Hthrown.
              ** split.
                 --- destruct b'; discriminate.
                 --- intros [H | [_ H]]; [apply Hthrow in H; discriminate |].
                     apply Hthrown in H. discriminate.
              ** split.
                 --- intros E. right. split.
                     +++ right. apply Htrue. reflexivity.
                     +++ apply Hthrown. injection E as ->. reflexivity.
                 --- intros [H | [_ H]]; [apply Hthrow in H; discriminate |].
                     apply Hthrown in H. injection H as ->. reflexivity.
           ++ split; [discriminate |].
              intros [H | [_ H]]; [apply Hthrow in H; discriminate |].
              destruct (Hnodeny eq_refl H).
        -- split; [discriminate |].
           intros [H | [[H | H] _]].
           ++ apply Hthrow in H. discriminate.
           ++ discriminate H.
           ++ apply Htrue in H. discriminate.
      * split.
        -- intros E. left. apply Hthrow. injection E as ->. reflexivity.
        -- intros [H | [[H | H] _]].
           ++ apply Hthrow in H. injection H as ->. reflexivity.
           ++ discriminate H.
           ++ apply Htrue in H. discriminate.
  - intros Hw Hb. unfold validateCommand.
    rewrite Hconfig. simpl. rewrite Hw. simpl. rewrite Hb. reflexivity.
  - intros p ps Hw Hwf Hmiss.
    eapply validateCommand_allow_list_miss; eassumption.
Qed.

(** With no list configured every command is allowed, whatever the
    runtime makes of patterns. *)
Lemma validateCommand_without_lists (this : SSHConnectionManager)
    (command : string) (name : option string) (config : SSHConfig) :
  getConfig this name = Ok config ->
  configured (commandWhitelist config) = None ->
  configured (commandBlacklist config) = None ->
  validateCommand this command name = Ok {| isAllowed := true; reason := None |}.
Proof.
  intros Hconfig Hw Hb. unfold validateCommand.
  rewrite Hconfig. simpl. rewrite Hw. simpl. rewrite Hb. reflexivity.
Qed.

End PolicyFacts.

(** C2 at the example descriptor: [ls -l] matches the allow pattern [^ls]
    and not the deny pattern [passwd], and is allowed; [rm -rf /] matches no
    allow pattern and is denied. *)
Lemma validateCommand_policy_witness :
  (exists verdict,
     validateCommand (runtime := small_runtime) example_manager "ls -l" None
     = Ok verdict /\
     isAllowed verdict = true /\
     policy_allows (runtime := small_runtime)
       (commandWhitelist example_config) (commandBlacklist example_config) "ls -l") /\
  validateCommand (runtime := small_runtime) example_manager "rm -rf /" None
  = Ok {| isAllowed := false;
          reason := Some "Command not in whitelist, execution forbidden" |}.
Proof.
  assert (Hwl : well_formed (runtime := small_runtime) (commandWhitelist example_config)).
  { intros pattern Hin. simpl in Hin.
    destruct Hin as [<- | [<- | []]]; eexists; vm_compute; reflexivity. }
  assert (Hbl : well_formed (runtime := small_runtime) (commandBlacklist example_config)).
  { intros pattern Hin. simpl in Hin.
    destruct Hin as [<- | []]; eexists; vm_compute; reflexivity. }
  split.
  - destruct (validateCommand_policy (runtime := small_runtime)
                example_manager "ls -l" None example_config eq_refl)
      as (_ & Hreturns & Hright & _).
    destruct (Hreturns Hwl Hbl) as [verdict Hverdict].
    exists verdict. split; [exact Hverdict |].
    assert (Hallowed : isAllowed verdict = true)
      by (vm_compute in Hverdict; injection Hverdict as <-; reflexivity).
    split; [exact Hallowed |]. apply (Hright verdict Hverdict). exact Hallowed.
  - destruct (validateCommand_policy (runtime := small_runtime)
                example_manager "rm -rf /" None example_config eq_refl)
      as (_ & _ & _ & _ & _ & Hmiss).
    apply (Hmiss "^ls" ["cat "] eq_refl Hwl).
    intros pattern Hin (regex & Hregex & Htest). simpl in Hin.
    destruct Hin as [<- | [<- | []]]; vm_compute in Hregex;
      injection Hregex as <-; vm_compute in Htest; discriminate.
Defined.

(** C2 as the specification states it fails on a descriptor whose
    allow-list is [^cat], [(], [^ls]: the command [ls -l] matches the allow
    pattern [^ls] and there is no deny-list, so the policy allows it; yet
    [validateCommand] compiles [(] on its way to [^ls] and throws the error
    of [new RegExp] instead of returning "allowed". *)
Lemma validateCommand_policy_counterexample :
  getConfig broken_manager None = Ok broken_config /\
  policy_allows (runtime := small_runtime)
    (commandWhitelist broken_config) (commandBlacklist broken_config) "ls -l" /\
  RegExp_new (Runtime := small_runtime) "("
  = Throw "Invalid regular expression: /(/" /\
  validateCommand (runtime := small_runtime) broken_manager "ls -l" None
  = Throw "Invalid regular expression: /(/" /\
  ~ (exists verdict,
       validateCommand (runtime := small_runtime) broken_manager "ls -l" None
       = Ok verdict).
Proof.
  split; [reflexivity |]. split; [| split; [| split]].
  - split; [| left; reflexivity]. right. right.
    exists "^ls". split; [simpl; auto |].
    eexists. split; vm_compute; reflexivity.
  - vm_compute. reflexivity.
  - vm_compute. reflexivity.
  - intros [verdict H]. vm_compute in H. discriminate H.
Qed.

(** ** Local paths of transfers *)

Section TransferFacts.

Context {runtime : Runtime} {float_text : FloatText}.

(** A local path that fails the check stops [upload] and [download] at
    once: the call is rejected with the traversal error and the world is
    as before, no client created and nothing sent. *)
Lemma rejected_path_stops_transfer (w : World) (cwd localPath remotePath : string)
    (name : option string) :
  startsWith (path_resolve cwd localPath) cwd = false ->
  let failure : Started Client :=
    Finished (Throw "Path traversal detected. Local path must be within the working directory.") in
  upload_start w cwd localPath remotePath name = (w, failure) /\
  download_start w cwd remotePath localPath name = (w, failure).
Proof.
  intros Hout. unfold upload_start, download_start, validateLocalPath.
  rewrite Hout. simpl. split; reflexivity.
Qed.

End TransferFacts.

(** The two paths the specification names are stopped. *)
Lemma rejected_path_stops_transfer_examples :
  upload_start (runtime := small_runtime) example_world example_cwd
    "/etc/passwd" "/tmp/passwd" (Some "web")
  = (example_world,
     Finished (Throw "Path traversal detected. Local path must be within the working directory."))
  /\
  download_start (runtime := small_runtime) example_world example_cwd
    "/tmp/x" "../../x" (Some "web")
  = (example_world,
     Finished (Throw "Path traversal detected. Local path must be within the working directory.")).
Proof.
  split.
  - apply (rejected_path_stops_transfer (runtime := small_runtime)
             example_world example_cwd "/etc/passwd" "/tmp/passwd" (Some "web")).
    vm_compute. reflexivity.
  - apply (rejected_path_stops_transfer (runtime := small_runtime)
             example_world example_cwd "../../x" "/tmp/x" (Some "web")).
    vm_compute. reflexivity.
Qed.

(** C1 does not hold of the code. With the working directory
    [/home/user/app], the local path [/home/user/app-evil/id_rsa] lies
    outside the tree of the working directory, yet [validateLocalPath]
    accepts it (the resolved path starts with the text of the working
    directory), and [upload] and [download] go on to open a connection: a
    client is created and its authentication sequence is in flight. The same
    holds of the relative spelling [../app-evil/id_rsa]. *)
Theorem sibling_directory_passes_validation :
  inside_tree example_cwd (path_resolve example_cwd "/home/user/app-evil/id_rsa") = false /\
  validateLocalPath example_cwd "/home/user/app-evil/id_rsa"
  = Ok "/home/user/app-evil/id_rsa" /\
  validateLocalPath example_cwd "../app-evil/id_rsa"
  = Ok "/home/user/app-evil/id_rsa" /\
  (let '(w, started) :=
     upload_start (runtime := small_runtime) example_world example_cwd
       "/home/user/app-evil/id_rsa" "/tmp/id_rsa" (Some "web") in
   started = Waiting 0%nat /\ in_flight w "web" = 1%nat) /\
  (let '(w, started) :=
     download_start (runtime := small_runtime) example_world example_cwd
       "/tmp/id_rsa" "/home/user/app-evil/id_rsa" (Some "web") in
   started = Waiting 0%nat /\ in_flight w "web" = 1%nat).
Proof. vm_compute. repeat split; reflexivity. Qed.

(** ** Commands *)

Section CommandFacts.

Context {runtime : Runtime}.

(** While the stream is running, the handlers only fill the buffers: the
    standard output goes to [data], the promise stays pending and the delay
    of the timer is not touched. *)
Lemma running_stream (events : list StreamEvent) (st : Exec) :
  forallb running_event events = true ->
  let st' := fold_left on_event events st in
  promise st' = promise st /\
  delay st' = delay st /\
  data st'
  = fold_left (fun text e => match e with Data chunk => text +:+ chunk | _ => text end)
              events (data st).
Proof.
  revert st. induction events as [| e rest IH]; intros st Hrun; simpl.
  - auto.
  - simpl in Hrun. apply andb_true_iff in Hrun as [He Hrest].
    destruct (IH (on_event st e) Hrest) as (Hp & Hd & Hdata).
    rewrite Hp, Hd, Hdata.
    destruct e; simpl in *; try discriminate; auto.
    destruct (timeoutId st); auto.
Qed.

(** Once settled, the promise keeps its outcome. *)
Lemma settled_promise_is_final (events : list StreamEvent) (st : Exec)
    (r : Result string) :
  promise st = Some r ->
  promise (fold_left on_event events st) = Some r.
Proof.
  revert st. induction events as [| e rest IH]; intros st Hst; simpl; [exact Hst |].
  apply IH. destruct e; simpl; try rewrite Hst; auto.
  destruct (timeoutId st); auto.
Qed.

(** The delay given to [setTimeout] is never changed by a handler. *)
Lemma delay_is_kept (events : list StreamEvent) (st : Exec) :
  delay (fold_left on_event events st) = delay st.
Proof.
  revert st. induction events as [| e rest IH]; intros st; simpl; [reflexivity |].
  rewrite IH. destruct e; simpl; auto. destruct (timeoutId st); auto.
Qed.

Lemma check_command_allowed (this : SSHConnectionManager) (cmdString : string)
    (name : option string) (verdict : Verdict) :
  validateCommand this cmdString name = Ok verdict ->
  isAllowed verdict = true ->
  check_command this cmdString name = Ok ().
Proof.
  intros Hv Ha. unfold check_command. rewrite Hv. simpl. rewrite Ha. reflexivity.
Qed.

(** A stream that runs to its close resolves the call with the standard
    output accumulated so far, whatever the exit code and whatever arrived
    on the standard error. *)
Lemma close_resolves_with_stdout (timeout : Z) (events later : list StreamEvent)
    (code : option Z) :
  forallb running_event events = true ->
  promise (exec_phase timeout (ExecStream (events ++ Close code :: later)))
  = Some (Ok (stdout_of events)).
Proof.
  intros Hrun. unfold exec_phase. rewrite fold_left_app. simpl.
  apply settled_promise_is_final.
  match goal with
  | |- context [fold_left on_event events ?st0] =>
      destruct (running_stream events st0 Hrun) as (Hp & _ & Hdata)
  end.
  unfold settle_promise, cleanup. simpl. rewrite Hp, Hdata. reflexivity.
Qed.

(** C8. An allowed command whose session was obtained and whose stream
    closes with a non-zero exit code, without a stream error before the
    close, resolves the call with the output accumulated in [data]; the
    call is not rejected. *)
Theorem nonzero_exit_resolves (this : SSHConnectionManager) (cmdString : string)
    (name : option string) (timeout : option JsNum) (client : Client)
    (verdict : Verdict) (events later : list StreamEvent) (code : option Z) :
  validateCommand this cmdString name = Ok verdict ->
  isAllowed verdict = true ->
  forallb running_event events = true ->
  code <> Some 0 ->
  promise (executeCommand this cmdString name timeout (Ok client)
             (ExecStream (events ++ Close code :: later)))
  = Some (Ok (stdout_of events)).
Proof.
  intros Hv Ha Hrun _. unfold executeCommand.
  rewrite (check_command_allowed _ _ _ _ Hv Ha).
  apply close_resolves_with_stdout. exact Hrun.
Qed.

(** C9. A timeout option of 0 is treated as an absent one: the two calls
    behave alike in every respect, and when the command is allowed and a
    stream is obtained, the delay given to [setTimeout] is 30000 in both. *)
Theorem zero_timeout_is_default (this : SSHConnectionManager) (cmdString : string)
    (name : option string) (ensured : Result Client) (reply : ExecReply)
    (client : Client) (events : list StreamEvent) :
  check_command this cmdString name = Ok () ->
  executeCommand this cmdString name (Some (Num 0)) ensured reply
  = executeCommand this cmdString name None ensured reply /\
  delay (executeCommand this cmdString name None (Ok client) (ExecStream events))
  = Some 30000 /\
  delay (executeCommand this cmdString name (Some (Num 0)) (Ok client) (ExecStream events))
  = Some 30000.
Proof.
  intros Hcheck. split; [reflexivity |].
  unfold executeCommand. rewrite Hcheck. unfold exec_phase.
  rewrite !delay_is_kept. split; reflexivity.
Qed.

End CommandFacts.

(** C8 at the example: [ls -l] prints a line, complains on its standard
    error and exits with code 2. *)
Lemma nonzero_exit_resolves_witness :
  promise (executeCommand (runtime := small_runtime) example_manager "ls -l /nowhere"
             None None (Ok 0%nat)
             (ExecStream ([Data "total 0"; ErrData "ls: cannot access"] ++ Close (Some 2) :: [])))
  = Some (Ok "total 0").
Proof.
  apply (nonzero_exit_resolves (runtime := small_runtime) example_manager
           "ls -l /nowhere" None None 0%nat
           {| isAllowed := true; reason := None |}
           [Data "total 0"; ErrData "ls: cannot access"] [] (Some 2)).
  - vm_compute. reflexivity.
  - reflexivity.
  - reflexivity.
  - discriminate.
Defined.

(** C9 at the example. *)
Lemma zero_timeout_is_default_witness :
  executeCommand (runtime := small_runtime) example_manager "ls" None
    (Some (Num 0)) (Ok 0%nat) (ExecStream [Data "a"; TimerFired; Close None])
  = executeCommand (runtime := small_runtime) example_manager "ls" None
      None (Ok 0%nat) (ExecStream [Data "a"; TimerFired; Close None]) /\
  delay (executeCommand (runtime := small_runtime) example_manager "ls" None
           None (Ok 0%nat) (ExecStream [Data "a"]))
  = Some 30000 /\
  delay (executeCommand (runtime := small_runtime) example_manager "ls" None
           (Some (Num 0)) (Ok 0%nat) (ExecStream [Data "a"]))
  = Some 30000.
Proof.
  destruct (zero_timeout_is_default (runtime := small_runtime) example_manager
              "ls" None (Ok 0%nat) (ExecStream [Data "a"; TimerFired; Close None])
              0%nat [Data "a"]) as (H1 & H2 & H3).
  - vm_compute. reflexivity.
  - split; [exact H1 | split; [exact H2 | exact H3]].
Defined.

(** C3 does not hold of the code. [ls -l] is allowed by the example policy;
    its stream delivers ["out"] on the standard output and ["err"] on the
    standard error and closes. The call resolves with ["out"]: the text of
    the standard error was accumulated in [errorData] and is not part of
    the result. *)
Theorem executeCommand_leaves_stderr_out :
  let events := [Data "out"; ErrData "err"] in
  let call :=
    executeCommand (runtime := small_runtime) example_manager "ls -l" None None
      (Ok 0%nat) (ExecStream (events ++ [Close (Some 0)])) in
  check_command (runtime := small_runtime) example_manager "ls -l" None = Ok () /\
  promise call = Some (Ok "out") /\
  errorData call = "err" /\
  stdout_of events +:+ stderr_of events = "outerr".
Proof. vm_compute. repeat split; reflexivity. Qed.

(** ** Connections *)

Lemma or_default_idem (name : option string) (d : string) :
  or_default (Some (or_default name d)) d = or_default name d.
Proof.
  unfold or_default. destruct name as [s |].
  - destruct (truthy s) eqn:E; [rewrite E; reflexivity |].
    destruct (truthy d); reflexivity.
  - destruct (truthy d); reflexivity.
Qed.

Section TwoSlots.

Context {A : Type}.
Implicit Types (l : list A) (a b x : A).

Lemma lookup_first_slot l a b : (l ++ [a; b])%list !! length l = Some a.
Proof. induction l; simpl; auto. Qed.

Lemma lookup_second_slot l a b : (l ++ [a; b])%list !! S (length l) = Some b.
Proof. induction l; simpl; auto. Qed.

Lemma insert_first_slot l a b x :
  <[length l := x]> (l ++ [a; b])%list = (l ++ [x; b])%list.
Proof. induction l; simpl; [reflexivity | f_equal; auto]. Qed.

Lemma insert_second_slot l a b x :
  <[S (length l) := x]> (l ++ [a; b])%list = (l ++ [a; x])%list.
Proof. induction l; simpl; [reflexivity | f_equal; auto]. Qed.

End TwoSlots.

Section ConnectionFacts.

Context {runtime : Runtime} {float_text : FloatText}.

(** A call of [connect] for a name that is not both flagged connected and
    stored, with a descriptor that has no proxy and usable credentials,
    creates a client and starts its authentication sequence. *)
Lemma connect_starts (w : World) (name : option string) (key : string)
    (config : SSHConfig) (options : ConnectOptions) :
  or_default name (defaultName (manager w)) = key ->
  is_connected (manager w) key && bool_decide (is_Some (clients (manager w) !! key)) = false ->
  getConfig (manager w) (Some key) = Ok config ->
  truthy_opt (socksProxy config) = false ->
  authenticate key config false = Ok options ->
  connect w name
  = (add_attempt w (handshaking key config options), Waiting (length (attempts w))).
Proof.
  intros Hkey Hnot Hconfig Hproxy Hauth. unfold connect. rewrite Hkey.
  rewrite Hnot, Hconfig, Hproxy. unfold attempt_after_authenticate.
  rewrite Hauth. reflexivity.
Qed.

Lemma in_flight_add (w : World) (key : string) (config : SSHConfig)
    (options : ConnectOptions) :
  in_flight (add_attempt w (handshaking key config options)) key = S (in_flight w key).
Proof.
  unfold in_flight, add_attempt. simpl.
  rewrite List.filter_app, length_app. simpl.
  rewrite String.eqb_refl. simpl. lia.
Qed.


(** A callback replaces the attempt of its client, keeping its key, and
    only the continuation of a [connect] call writes the map of clients. *)
Lemma step_shape (w w' : World) (e : Event) :
  step w e = Some w' ->
  exists a a',
    attempts w !! event_client e = Some a /\
    attempts w' = <[event_client e := a']> (attempts w) /\
    attempt_key a' = attempt_key a /\
    clients (manager w')
    = match e with
      | Resume c => <[attempt_key a := c]> (clients (manager w))
      | _ => clients (manager w)
      end.
Proof.
  intros Hstep.
  destruct e as [c | c msg | c | c | c msg | c | c session t1 t2]; simpl in Hstep;
    destruct (attempts w !! c) as [a |] eqn:Ha; simpl in Hstep; try discriminate;
    exists a.
  - destruct (call a); try discriminate. injection Hstep as <-.
    eexists. split; [exact Ha |]. split; [reflexivity |]. split; [| reflexivity].
    unfold attempt_after_authenticate. destruct (authenticate _ _ _); reflexivity.
  - destruct (call a); try discriminate. injection Hstep as <-.
    eexists. repeat split; [exact Ha].
  - destruct (link a); try discriminate. injection Hstep as <-.
    eexists. split; [exact Ha |]. split; [reflexivity |]. split; [| reflexivity].
    destruct (call a); reflexivity.
  - destruct (call a); try discriminate. injection Hstep as <-.
    eexists. repeat split; [exact Ha].
  - destruct (link_open (link a)); try discriminate. injection Hstep as <-.
    eexists. split; [exact Ha |]. split; [reflexivity |]. split; [| reflexivity].
    destruct (call a); reflexivity.
  - destruct (link_open (link a)); try discriminate. injection Hstep as <-.
    eexists. repeat split; [exact Ha].
  - destruct (collecting a); try discriminate. injection Hstep as <-.
    eexists. repeat split; [exact Ha].
Qed.

(** A callback leaves every client with the name it was created for. *)
Lemma step_keeps_keys (w w' : World) (e : Event) (c : Client) :
  step w e = Some w' ->
  attempt_key <$> attempts w' !! c = attempt_key <$> attempts w !! c.
Proof.
  intros Hstep. destruct (step_shape w w' e Hstep) as (a & a' & Ha & -> & Hkey & _).
  destruct (decide (event_client e = c)) as [<- | Hne].
  - rewrite list_lookup_insert_eq by (eapply lookup_lt_Some, Ha).
    rewrite Ha. simpl. rewrite Hkey. reflexivity.
  - rewrite list_lookup_insert_ne by exact Hne. reflexivity.
Qed.

Lemma last_resumed_same_keys (w w' : World) (key : string) (es : list Event)
    (stored : option Client) :
  (forall c, attempt_key <$> attempts w' !! c = attempt_key <$> attempts w !! c) ->
  last_resumed w' key es stored = last_resumed w key es stored.
Proof.
  intros Hkeys. revert stored.
  induction es as [| e es IH]; intros stored; [reflexivity |].
  destruct e; simpl; auto. rewrite Hkeys.
  destruct (bool_decide _); apply IH.
Qed.

(** After any schedule of callbacks, the handle stored for a name is the
    client of the [connect] call for that name whose continuation ran last;
    it is the handle stored before when no such call resumed. *)
Lemma run_events_stores_last_resumed (es : list Event) (w w' : World) (key : string) :
  run_events w es = Some w' ->
  clients (manager w') !! key = last_resumed w key es (clients (manager w) !! key).
Proof.
  revert w. induction es as [| e es IH]; intros w; simpl.
  - intros [= <-]. reflexivity.
  - destruct (step w e) as [w1 |] eqn:Hstep; simpl; [| discriminate].
    intros Hrun. rewrite (IH w1 Hrun).
    rewrite (last_resumed_same_keys w w1) by (intros c; eapply step_keeps_keys, Hstep).
    destruct (step_shape w w1 e Hstep) as (a & a' & Ha & _ & _ & Hclients).
    rewrite Hclients.
    destruct e as [c | c msg | c | c | c msg | c | c session t1 t2]; try reflexivity.
    simpl in Ha. rewrite Ha. simpl.
    destruct (decide (attempt_key a = key)) as [<- | Hne].
    + rewrite bool_decide_eq_true_2 by reflexivity. rewrite lookup_insert_eq. reflexivity.
    + rewrite bool_decide_eq_false_2 by congruence.
      rewrite lookup_insert_ne by exact Hne. reflexivity.
Qed.

(** C6, as the code has it. For a name that is not connected (descriptor
    without proxy, usable credentials), two [connect] calls made before any
    callback runs each create their own client and start their own
    authentication sequence: two more sequences are in flight. An
    [ensureConnected], and so an [executeCommand] of an allowed command,
    arriving after the first call starts its own attempt as well. Whatever
    callbacks run afterwards and in whatever order, the handle stored for
    the name is that of the call whose continuation ran last. In every
    order in which both sessions become ready and both calls resume, both
    sessions are established, the name is flagged connected and the one
    handle stored for it is that of the call that resumed last. *)
Theorem concurrent_connects_both_authenticate (w : World) (name : option string)
    (config : SSHConfig) (options : ConnectOptions) :
  let key := or_default name (defaultName (manager w)) in
  let c1 := length (attempts w) in
  let c2 := S (length (attempts w)) in
  is_connected (manager w) key && bool_decide (is_Some (clients (manager w) !! key)) = false ->
  getConfig (manager w) (Some key) = Ok config ->
  truthy_opt (socksProxy config) = false ->
  authenticate key config false = Ok options ->
  exists w1 w2,
    connect w name = (w1, Waiting c1) /\
    connect w1 name = (w2, Waiting c2) /\
    ensureConnected w1 name = (w2, Waiting c2) /\
    (forall cmdString, check_command (manager w1) cmdString name = Ok () ->
       executeCommand_start w1 cmdString name = (w2, Waiting c2)) /\
    in_flight w2 key = (in_flight w key + 2)%nat /\
    (forall es w', run_events w2 es = Some w' ->
       clients (manager w') !! key
       = last_resumed w2 key es (clients (manager w) !! key)) /\
    (forall es, In es (interleavings [Ready c1; Resume c1] [Ready c2; Resume c2]) ->
       exists w' c,
         run_events w2 es = Some w' /\
         last es = Some (Resume c) /\
         clients (manager w') !! key = Some c /\
         is_connected (manager w') key = true /\
         link <$> attempts w' !! c1 = Some Established /\
         link <$> attempts w' !! c2 = Some Established).
Proof.
  intros key c1 c2 Hnot Hconfig Hproxy Hauth.
  set (a := handshaking key config options).
  set (w1 := add_attempt w a). set (w2 := add_attempt w1 a).
  assert (Hlen : length (attempts w1) = c2)
    by (unfold w1, add_attempt; simpl; rewrite length_app; simpl; lia).
  assert (H1 : connect w name = (w1, Waiting c1))
    by (apply connect_starts; auto).
  assert (H2 : connect w1 name = (w2, Waiting c2))
    by (rewrite <- Hlen; apply connect_starts; auto).
  assert (H3 : connect w1 (Some key) = (w2, Waiting c2))
    by (rewrite <- Hlen; apply connect_starts; auto; apply or_default_idem).
  assert (H4 : ensureConnected w1 name = (w2, Waiting c2)).
  { unfold ensureConnected. simpl. fold key.
    rewrite <- negb_andb, Hnot. simpl. rewrite H3. reflexivity. }
  exists w1, w2.
  split; [exact H1 |]. split; [exact H2 |]. split; [exact H4 |].
  split; [| split; [| split]].
  - intros cmdString Hcheck. unfold executeCommand_start. rewrite Hcheck. exact H4.
  - unfold w2, w1, a. rewrite !in_flight_add. lia.
  - intros es w' Hrun. apply (run_events_stores_last_resumed es w2 w' key Hrun).
  - intros es Hes. simpl in Hes.
    assert (Hflag : forall m : gmap string bool,
              match <[key := true]> m !! key with Some true => true | _ => false end = true)
      by (intros m; rewrite lookup_insert_eq; reflexivity).
    destruct Hes as [<- | [<- | [<- | [<- | [<- | [<- | []]]]]]];
      unfold w2, w1, add_attempt, run_events, step, set_attempt, set_connected,
        with_manager, is_connected; simpl;
      rewrite <- app_assoc; simpl; unfold c1, c2;
      repeat (first [ rewrite lookup_first_slot | rewrite lookup_second_slot
                    | rewrite insert_first_slot | rewrite insert_second_slot ]; simpl);
      eexists _, _; (split; [reflexivity |]); (split; [reflexivity |]); simpl;
      rewrite ?lookup_first_slot, ?lookup_second_slot;
      (split; [apply lookup_insert_eq |]); (split; [apply Hflag |]);
      split; reflexivity.
Qed.

End ConnectionFacts.

(** C6 at the example world: two calls of [connect("web")]. *)
Lemma concurrent_connects_both_authenticate_witness :
  exists w1 w2,
    connect (runtime := small_runtime) example_world (Some "web") = (w1, Waiting 0%nat) /\
    connect (runtime := small_runtime) w1 (Some "web") = (w2, Waiting 1%nat) /\
    ensureConnected (runtime := small_runtime) w1 (Some "web") = (w2, Waiting 1%nat) /\
    (forall cmdString,
       check_command (runtime := small_runtime) (manager w1) cmdString (Some "web") = Ok () ->
       executeCommand_start (runtime := small_runtime) w1 cmdString (Some "web")
       = (w2, Waiting 1%nat)) /\
    in_flight w2 "web" = (in_flight example_world "web" + 2)%nat /\
    (forall es w',
       run_events (runtime := small_runtime) (float_text := decimal_text) w2 es = Some w' ->
       clients (manager w') !! "web"
       = last_resumed w2 "web" es (clients (manager example_world) !! "web")) /\
    (forall es,
       In es (interleavings [Ready 0%nat; Resume 0%nat] [Ready 1%nat; Resume 1%nat]) ->
       exists w' c,
         run_events (runtime := small_runtime) (float_text := decimal_text) w2 es
         = Some w' /\
         last es = Some (Resume c) /\
         clients (manager w') !! "web" = Some c /\
         is_connected (manager w') "web" = true /\
         link <$> attempts w' !! 0%nat = Some Established /\
         link <$> attempts w' !! 1%nat = Some Established).
Proof.
  apply (concurrent_connects_both_authenticate (runtime := small_runtime)
           (float_text := decimal_text) example_world (Some "web") example_config
           {| opt_host := "10.0.0.5"; opt_port := 22; opt_username := "deploy";
              opt_sock := false; opt_privateKey := None; opt_passphrase := None;
              opt_password := Some "secret" |}).
  - vm_compute. reflexivity.
  - vm_compute. reflexivity.
  - reflexivity.
  - vm_compute. reflexivity.
Defined.

(** C6 as the specification states it fails on the example world: after
    two calls of [connect("web")] two authentication sequences are in
    flight, not one, and an [ensureConnected] arriving after the first call
    waits on a client of its own, not on the one of the first call. *)
Lemma concurrent_connects_counterexample :
  let '(w1, first) := connect (runtime := small_runtime) example_world (Some "web") in
  let '(w2, second) := connect (runtime := small_runtime) w1 (Some "web") in
  let '(_, waiting) := ensureConnected (runtime := small_runtime) w1 (Some "web") in
  is_connected (manager example_world) "web" = false /\
  first = Waiting 0%nat /\
  second = Waiting 1%nat /\
  in_flight w2 "web" = 2%nat /\
  in_flight w2 "web" <> 1%nat /\
  waiting = Waiting 1%nat /\
  waiting <> Waiting 0%nat.
Proof. vm_compute. repeat split; try reflexivity; discriminate. Qed.

(** ** Disconnecting *)

Lemma disconnect_empties_clients (this : SSHConnectionManager) :
  clients (disconnect this).1 = ∅.
Proof.
  unfold disconnect. destruct (0 <? size (clients this))%nat eqn:E; simpl.
  - reflexivity.
  - apply Nat.ltb_ge in E. apply map_size_empty_iff. lia.
Qed.

(** [end()] is called on every stored client. *)
Lemma disconnect_ends_stored (this : SSHConnectionManager) (key : string)
    (client : Client) :
  clients this !! key = Some client -> client ∈ (disconnect this).2.
Proof.
  intros Hstored. unfold disconnect.
  destruct (0 <? size (clients this))%nat eqn:E; simpl.
  - apply list_elem_of_fmap. exists (key, client). split; [reflexivity |].
    apply elem_of_map_to_list. exact Hstored.
  - apply Nat.ltb_ge in E.
    assert (Hempty : clients this = ∅) by (apply map_size_empty_iff; lia).
    rewrite Hempty, lookup_empty in Hstored. discriminate.
Qed.

(** Only the map of clients is touched. *)
Lemma disconnect_frame (this : SSHConnectionManager) :
  configs (disconnect this).1 = configs this /\
  defaultName (disconnect this).1 = defaultName this /\
  connected (disconnect this).1 = connected this /\
  statusCache (disconnect this).1 = statusCache this.
Proof.
  unfold disconnect. destruct (0 <? size (clients this))%nat; simpl; auto.
Qed.

Lemma disconnect_call_parts (w : World) :
  manager (disconnect_call w) = (disconnect (manager w)).1 /\
  attempts (disconnect_call w) = attempts w /\
  ended (disconnect_call w) = (ended w ++ (disconnect (manager w)).2)%list.
Proof. unfold disconnect_call. destruct (disconnect (manager w)); simpl; auto. Qed.



Section DisconnectFacts.

Context {runtime : Runtime} {float_text : FloatText}.


(** C7, as the code has it. After [disconnect()]: the map of clients is
    empty, [end()] having been called on every client it held; the
    descriptors and the default name are unchanged; a configured name is
    still configured and [connect] for it does not return early but creates
    a new client. The connected flags are as they were before the call:
    [disconnect] does not clear them, the ["close"] handler of an ended
    client does when its event is delivered. *)
Theorem disconnect_drops_handles_keeps_flags (w : World) (name : option string)
    (config : SSHConfig) :
  let w' := disconnect_call w in
  getConfig (manager w) name = Ok config ->
  clients (manager w') = ∅ /\
  (forall key client, clients (manager w) !! key = Some client -> client ∈ ended w') /\
  configs (manager w') = configs (manager w) /\
  defaultName (manager w') = defaultName (manager w) /\
  connected (manager w') = connected (manager w) /\
  getConfig (manager w') name = Ok config /\
  (exists a,
     connect w' name = (add_attempt w' a, started_of (length (attempts w')) a) /\
     attempt_key a = or_default name (defaultName (manager w))) /\
  (forall c a, attempts w' !! c = Some a -> link_open (link a) = true ->
     exists w'', step w' (ClientClose c) = Some w'' /\
                 connected (manager w'') !! attempt_key a = Some false).
Proof.
  intros w' Hconfig.
  destruct (disconnect_call_parts w) as (Hm & Ha & He).
  destruct (disconnect_frame (manager w)) as (Hc & Hd & Hf & _).
  fold w' in Hm, Ha, He. rewrite <- Hm in Hc, Hd, Hf.
  assert (Hclients : clients (manager w') = ∅)
    by (rewrite Hm; apply disconnect_empties_clients).
  assert (Hconfig' : getConfig (manager w') name = Ok config)
    by (unfold getConfig in *; rewrite Hc, Hd; exact Hconfig).
  repeat split; auto.
  - intros key client Hstored. rewrite He. apply elem_of_app. right.
    eapply disconnect_ends_stored, Hstored.
  - unfold connect. rewrite Hclients, lookup_empty, andb_false_r.
    assert (Hkey : getConfig (manager w')
                     (Some (or_default name (defaultName (manager w')))) = Ok config)
      by (unfold getConfig in *; rewrite or_default_idem; exact Hconfig').
    rewrite Hkey. eexists. split; [reflexivity |].
    rewrite Hd.
    destruct (truthy_opt (socksProxy config)).
    + destruct (URL_new _); reflexivity.
    + unfold attempt_after_authenticate. destruct (authenticate _ _ _); reflexivity.
  - intros c a Hc' Hopen. simpl. rewrite Hc'. simpl. rewrite Hopen.
    eexists. split; [reflexivity |]. simpl. apply lookup_insert_eq.
Qed.







End DisconnectFacts.

(** The connected example world is the one the callbacks produce. *)
Lemma connected_world_reached :
  run_events (runtime := small_runtime) (float_text := decimal_text)
    (connect (runtime := small_runtime) example_world (Some "web")).1
    [Ready 0%nat; Resume 0%nat;
     StatusSettled 0%nat failing_session example_time example_time]
  = Some connected_world /\
  is_connected (manager connected_world) "web" = true /\
  clients (manager connected_world) !! "web" = Some 0%nat /\
  statusCache (manager connected_world) !! "web"
  = Some (bare_status None example_time).
Proof. vm_compute. repeat split; reflexivity. Qed.

(** C7 at the connected example world. *)
Lemma disconnect_drops_handles_keeps_flags_witness :
  let w' := disconnect_call connected_world in
  clients (manager w') = ∅ /\
  (forall key client,
     clients (manager connected_world) !! key = Some client -> client ∈ ended w') /\
  configs (manager w') = configs (manager connected_world) /\
  defaultName (manager w') = defaultName (manager connected_world) /\
  connected (manager w') = connected (manager connected_world) /\
  getConfig (manager w') (Some "web") = Ok example_config /\
  (exists a,
     connect (runtime := small_runtime) w' (Some "web")
     = (add_attempt w' a, started_of (length (attempts w')) a) /\
     attempt_key a = or_default (Some "web") (defaultName (manager connected_world))) /\
  (forall c a, attempts w' !! c = Some a -> link_open (link a) = true ->
     exists w'',
       step (runtime := small_runtime) (float_text := decimal_text) w' (ClientClose c)
       = Some w'' /\
       connected (manager w'') !! attempt_key a = Some false).
Proof.
  apply (disconnect_drops_handles_keeps_flags (runtime := small_runtime)
           (float_text := decimal_text) connected_world (Some "web") example_config).
  vm_compute. reflexivity.
Defined.

(** C7 as the specification states it fails on the connected example
    world: right after [disconnect()] the flag of ["web"] is still set, and
    [getAllServerInfos] still reports the server as connected. *)
Lemma disconnect_keeps_flag_counterexample :
  let w' := disconnect_call connected_world in
  clients (manager connected_world) !! "web" = Some 0%nat /\
  clients (manager w') !! "web" = None /\
  connected (manager w') !! "web" = Some true /\
  info_connected <$> getAllServerInfos (manager w') = [true].
Proof. vm_compute. repeat split; reflexivity. Qed.



(* ===================================================================== *)
(** * Further properties of the code *)
(* ===================================================================== *)

(** ** What the maps of the manager say about the clients *)

Lemma lookup_add_attempt (w : World) (a a0 : Attempt) (c : Client) :
  attempts (add_attempt w a) !! c = Some a0 ->
  attempts w !! c = Some a0 \/ (c = length (attempts w) /\ a0 = a).
Proof.
  unfold add_attempt. simpl. intros H.
  apply lookup_snoc_Some in H. destruct H as [[_ H] | [H1 H2]]; auto.
Qed.

Lemma lookup_add_attempt_old (w : World) (a a0 : Attempt) (c : Client) :
  attempts w !! c = Some a0 -> attempts (add_attempt w a) !! c = Some a0.
Proof.
  intros H. unfold add_attempt. simpl.
  rewrite lookup_app_l; [exact H | eapply lookup_lt_Some, H].
Qed.

Lemma consistent_add_attempt (w : World) (a : Attempt) :
  consistent w -> fresh_attempt a -> consistent (add_attempt w a).
Proof.
  intros [H1 H2 H3 H4 H5] Hfresh. split.
  - intros key c Hc. destruct (H1 key c Hc) as (a0 & Ha0 & Hk & Hr).
    exists a0. auto using lookup_add_attempt_old.
  - intros c a0 Ha0 Hcall. apply lookup_add_attempt in Ha0 as [Ha0 | [_ ->]]; eauto.
    destruct Hfresh as [[E _] | [[E _] | (msg & E & _)]];
      rewrite E in Hcall; destruct Hcall; discriminate.
  - intros c a0 Ha0 Hcall. apply lookup_add_attempt in Ha0 as [Ha0 | [_ ->]]; eauto.
    destruct Hfresh as [[_ E] | [[E _] | (msg & E & _)]]; auto;
      rewrite E in Hcall; discriminate.
  - intros key Hflag. destruct (H4 key Hflag) as (c & a0 & Ha0 & Hk & Hl).
    exists c, a0. auto using lookup_add_attempt_old.
  - exact H5.
Qed.

Section Preservation.


Context {runtime : Runtime} {float_text : FloatText}.

Lemma attempt_after_authenticate_fresh (key : string) (config : SSHConfig) (sock : bool) :
  fresh_attempt (attempt_after_authenticate key config sock) /\
  attempt_key (attempt_after_authenticate key config sock) = key.
Proof.
  unfold attempt_after_authenticate, fresh_attempt.
  destruct (authenticate key config sock); simpl; eauto 6.
Qed.

Lemma connect_shape (w : World) (name : option string) :
  (connect w name).1 = w \/
  exists a, (connect w name).1 = add_attempt w a /\ fresh_attempt a.
Proof.
  unfold connect.
  destruct (is_connected _ _ && _); [left; reflexivity |].
  destruct (getConfig _ _) as [config | msg]; [| left; reflexivity].
  right. eexists. split; [reflexivity |].
  destruct (truthy_opt (socksProxy config)).
  - unfold fresh_attempt. destruct (URL_new _); simpl; eauto 6.
  - apply attempt_after_authenticate_fresh.
Qed.

Lemma consistent_connect (w : World) (name : option string) :
  consistent w -> consistent (connect w name).1.
Proof.
  intros H. destruct (connect_shape w name) as [-> | (a & -> & Ha)];
    auto using consistent_add_attempt.
Qed.

Lemma ensureConnected_shape (w : World) (name : option string) :
  (ensureConnected w name).1 = w \/
  exists name', (ensureConnected w name).1 = (connect w name').1.
Proof.
  unfold ensureConnected.
  destruct (negb _ || negb _); [| left; reflexivity].
  right. exists (Some (or_default name (defaultName (manager w)))).
  destruct (connect w _) as [w' [[u | msg] | c]]; reflexivity.
Qed.

Lemma consistent_ensureConnected (w : World) (name : option string) :
  consistent w -> consistent (ensureConnected w name).1.
Proof.
  intros H. destruct (ensureConnected_shape w name) as [-> | (n & ->)];
    auto using consistent_connect.
Qed.

Lemma consistent_connectAll_from (names : list string) (w : World) :
  consistent w -> consistent (connectAll_from w names).1.1.
Proof.
  revert w. induction names as [| name rest IH]; intros w H; simpl; [exact H |].
  pose proof (consistent_connect w (Some name) H) as H'.
  destruct (connect w (Some name)) as [w' [[u | msg] | c]]; simpl in *; auto.
Qed.

Lemma consistent_same_maps (w w' : World) :
  clients (manager w') = clients (manager w) \/ clients (manager w') = ∅ ->
  connected (manager w') = connected (manager w) ->
  statusCache (manager w') = statusCache (manager w) ->
  attempts w' = attempts w ->
  consistent w -> consistent w'.
Proof.
  intros Hc Hf Hs Ha [H1 H2 H3 H4 H5]. split; rewrite ?Ha, ?Hf, ?Hs; auto.
  intros key c. destruct Hc as [-> | ->]; [apply H1 |].
  rewrite lookup_empty. discriminate.
Qed.

Lemma lookup_replaced (l : list Attempt) (c c' : Client) (a a' : Attempt) :
  l !! c = Some a ->
  <[c := a']> l !! c' = if decide (c = c') then Some a' else l !! c'.
Proof.
  intros H. destruct (decide (c = c')) as [<- | Hne].
  - apply list_lookup_insert_eq. eapply lookup_lt_Some, H.
  - apply list_lookup_insert_ne, Hne.
Qed.

(** The shape of a callback: the attempt of one client is replaced, its
    key kept, and one of the maps may get an entry. *)
Lemma consistent_step (w w' : World) (e : Event) :
  consistent w -> step w e = Some w' -> consistent w'.
Proof.
  intros [H1 H2 H3 H4 H5] Hstep.
  destruct e as [c | c msg | c | c | c msg | c | c session t1 t2]; simpl in Hstep;
    destruct (attempts w !! c) as [a |] eqn:Ha; simpl in Hstep; try discriminate.
  - (* ProxyConnected *)
    destruct (call a) eqn:Hcall; try discriminate. injection Hstep as <-.
    destruct (attempt_after_authenticate_fresh (attempt_key a) (attempt_config a) true)
      as [Hfresh Hkey].
    pose proof (H3 c a Ha Hcall) as Hidle.
    split; simpl.
    + intros key c0 Hc0. destruct (H1 key c0 Hc0) as (a0 & Ha0 & Hk & Hr).
      rewrite (lookup_replaced _ c c0 a _ Ha).
      destruct (decide (c = c0)) as [<- |]; [| eauto].
      rewrite Ha in Ha0. injection Ha0 as <-. congruence.
    + intros c0 a0. rewrite (lookup_replaced _ c c0 a _ Ha).
      destruct (decide (c = c0)) as [<- |]; [| eauto].
      intros [= <-] Hc.
      destruct Hfresh as [[E _] | [[E _] | (m & E & _)]];
        rewrite E in Hc; destruct Hc; discriminate.
    + intros c0 a0. rewrite (lookup_replaced _ c c0 a _ Ha).
      destruct (decide (c = c0)) as [<- |]; [| eauto].
      intros [= <-] Hc.
      destruct Hfresh as [[_ E] | [[E _] | (m & E & _)]]; auto;
        rewrite E in Hc; discriminate.
    + intros key Hflag. destruct (H4 key Hflag) as (c0 & a0 & Ha0 & Hk & Hl).
      exists c0, a0. rewrite (lookup_replaced _ c c0 a _ Ha).
      destruct (decide (c = c0)) as [<- |]; [| auto].
      rewrite Ha in Ha0. injection Ha0 as <-. congruence.
    + exact H5.
  - (* ProxyFailed *)
    destruct (call a) eqn:Hcall; try discriminate. injection Hstep as <-.
    pose proof (H3 c a Ha Hcall) as Hidle.
    split; simpl.
    + intros key c0 Hc0. destruct (H1 key c0 Hc0) as (a0 & Ha0 & Hk & Hr).
      rewrite (lookup_replaced _ c c0 a _ Ha).
      destruct (decide (c = c0)) as [<- |]; [| eauto].
      rewrite Ha in Ha0. injection Ha0 as <-. congruence.
    + intros c0 a0. rewrite (lookup_replaced _ c c0 a _ Ha).
      destruct (decide (c = c0)) as [<- |]; [| eauto].
      intros [= <-]. simpl. intros [E | E]; discriminate.
    + intros c0 a0. rewrite (lookup_replaced _ c c0 a _ Ha).
      destruct (decide (c = c0)) as [<- |]; [| eauto].
      intros [= <-]. simpl. discriminate.
    + intros key Hflag. destruct (H4 key Hflag) as (c0 & a0 & Ha0 & Hk & Hl).
      exists c0, a0. rewrite (lookup_replaced _ c c0 a _ Ha).
      destruct (decide (c = c0)) as [<- |]; [| auto].
      rewrite Ha in Ha0. injection Ha0 as <-. congruence.
    + exact H5.
  - (* Ready *)
    destruct (link a) eqn:Hlink; try discriminate. injection Hstep as <-.
    assert (Hw : attempts (set_connected w (attempt_key a) true) !! c = Some a) by exact Ha.
    split; simpl.
    + intros key c0 Hc0. destruct (H1 key c0 Hc0) as (a0 & Ha0 & Hk & Hr).
      rewrite (lookup_replaced _ c c0 a _ Ha). simpl.
      destruct (decide (c = c0)) as [<- |]; [| eauto].
      rewrite Ha in Ha0. injection Ha0 as <-.
      rewrite Hr. eexists. split; [reflexivity |]. simpl. auto.
    + intros c0 a0. rewrite (lookup_replaced _ c c0 a _ Ha). simpl.
      destruct (decide (c = c0)) as [<- |]; [| eauto].
      intros [= <-] _. destruct (call a); simpl; auto.
    + intros c0 a0. rewrite (lookup_replaced _ c c0 a _ Ha). simpl.
      destruct (decide (c = c0)) as [<- |]; [| eauto].
      intros [= <-] Hc. exfalso.
      assert (call a = AwaitingProxy) as E
        by (destruct (call a) eqn:Hca; simpl in Hc; rewrite ?Hca in Hc; congruence).
      rewrite (H3 c a Ha E) in Hlink. discriminate.
    + intros key Hflag.
      destruct (decide (attempt_key a = key)) as [<- | Hne].
      * exists c. eexists. rewrite (lookup_replaced _ c c a _ Ha).
        destruct (decide (c = c)); [| congruence].
        split; [reflexivity |]. destruct (call a); simpl; auto.
      * rewrite lookup_insert_ne in Hflag by exact Hne.
        destruct (H4 key Hflag) as (c0 & a0 & Ha0 & Hk & Hl).
        exists c0, a0. rewrite (lookup_replaced _ c c0 a _ Ha). simpl.
        destruct (decide (c = c0)) as [<- |]; [| auto].
        rewrite Ha in Ha0. injection Ha0 as <-. congruence.
    + exact H5.
  - (* Resume *)
    destruct (call a) eqn:Hcall; try discriminate. injection Hstep as <-.
    pose proof (H2 c a Ha (or_introl Hcall)) as Hready.
    split; simpl.
    + intros key c0 Hc0.
      destruct (decide (attempt_key a = key)) as [<- | Hne].
      * rewrite lookup_insert_eq in Hc0. injection Hc0 as <-.
        eexists. rewrite list_lookup_insert_eq by (eapply lookup_lt_Some, Ha).
        split; [reflexivity |]. simpl. auto.
      * rewrite lookup_insert_ne in Hc0 by exact Hne.
        destruct (H1 key c0 Hc0) as (a0 & Ha0 & Hk & Hr).
        destruct (decide (c = c0)) as [<- | Hc].
        -- rewrite Ha in Ha0. injection Ha0 as <-. congruence.
        -- exists a0. rewrite list_lookup_insert_ne by exact Hc. auto.
    + intros c0 a0. destruct (decide (c = c0)) as [<- | Hc].
      * rewrite list_lookup_insert_eq by (eapply lookup_lt_Some, Ha).
        intros [= <-] _. exact Hready.
      * rewrite list_lookup_insert_ne by exact Hc. eauto.
    + intros c0 a0. destruct (decide (c = c0)) as [<- | Hc].
      * rewrite list_lookup_insert_eq by (eapply lookup_lt_Some, Ha).
        intros [= <-]. simpl. discriminate.
      * rewrite list_lookup_insert_ne by exact Hc. eauto.
    + intros key Hflag. destruct (H4 key Hflag) as (c0 & a0 & Ha0 & Hk & Hl).
      destruct (decide (c = c0)) as [<- | Hc].
      * rewrite Ha in Ha0. injection Ha0 as <-. eexists c, _.
        rewrite list_lookup_insert_eq by (eapply lookup_lt_Some, Ha).
        split; [reflexivity |]. simpl. auto.
      * exists c0, a0. rewrite list_lookup_insert_ne by exact Hc. auto.
    + exact H5.
  - (* ClientError *)
    destruct (link_open (link a)) eqn:Hopen; try discriminate. injection Hstep as <-.
    assert (Hw : attempts (set_connected w (attempt_key a) false) !! c = Some a) by exact Ha.
    set (a' := match call a with
               | AwaitingReady => with_call a _
               | _ => a
               end).
    assert (Hk' : attempt_key a' = attempt_key a)
      by (unfold a'; destruct (call a); reflexivity).
    assert (Hl' : link a' = link a)
      by (unfold a'; destruct (call a); reflexivity).
    assert (Hc' : call a' = call a \/ (call a = AwaitingReady /\ exists m, call a' = Failed m))
      by (unfold a'; destruct (call a) eqn:E; simpl; rewrite ?E; eauto).
    split; simpl.
    + intros key c0 Hc0. destruct (H1 key c0 Hc0) as (a0 & Ha0 & Hk & Hr).
      rewrite (lookup_replaced _ c c0 a _ Ha). simpl.
      destruct (decide (c = c0)) as [<- |]; [| eauto].
      rewrite Ha in Ha0. injection Ha0 as <-.
      exists a'. split; [reflexivity |]. split; [congruence |].
      destruct Hc' as [E | [E _]]; congruence.
    + intros c0 a0. rewrite (lookup_replaced _ c c0 a _ Ha). simpl.
      destruct (decide (c = c0)) as [<- |]; [| eauto].
      intros [= <-] Hc. rewrite Hl'.
      destruct Hc' as [E | [_ (m & E)]]; [rewrite E in Hc; eauto |].
      rewrite E in Hc. destruct Hc; discriminate.
    + intros c0 a0. rewrite (lookup_replaced _ c c0 a _ Ha). simpl.
      destruct (decide (c = c0)) as [<- |]; [| eauto].
      intros [= <-] Hc. rewrite Hl'.
      destruct Hc' as [E | [_ (m & E)]]; [rewrite E in Hc; eauto |].
      rewrite E in Hc. discriminate.
    + intros key Hflag.
      destruct (decide (attempt_key a = key)) as [<- | Hne].
      * rewrite lookup_insert_eq in Hflag. discriminate.
      * rewrite lookup_insert_ne in Hflag by exact Hne.
        destruct (H4 key Hflag) as (c0 & a0 & Ha0 & Hk & Hl).
        exists c0, a0. rewrite (lookup_replaced _ c c0 a _ Ha). simpl.
        destruct (decide (c = c0)) as [<- |]; [| auto].
        rewrite Ha in Ha0. injection Ha0 as <-. congruence.
    + exact H5.
  - (* ClientClose *)
    destruct (link_open (link a)) eqn:Hopen; try discriminate. injection Hstep as <-.
    assert (Hw : attempts (set_connected w (attempt_key a) false) !! c = Some a) by exact Ha.
    split; simpl.
    + intros key c0 Hc0. destruct (H1 key c0 Hc0) as (a0 & Ha0 & Hk & Hr).
      rewrite (lookup_replaced _ c c0 a _ Ha). simpl.
      destruct (decide (c = c0)) as [<- |]; [| eauto].
      rewrite Ha in Ha0. injection Ha0 as <-. eexists. split; [reflexivity |]. auto.
    + intros c0 a0. rewrite (lookup_replaced _ c c0 a _ Ha). simpl.
      destruct (decide (c = c0)) as [<- |]; [| eauto].
      intros [= <-] _. simpl. auto.
    + intros c0 a0. rewrite (lookup_replaced _ c c0 a _ Ha). simpl.
      destruct (decide (c = c0)) as [<- |]; [| eauto].
      intros [= <-] Hc. simpl in Hc. rewrite (H3 c a Ha Hc) in Hopen. discriminate.
    + intros key Hflag.
      destruct (decide (attempt_key a = key)) as [<- | Hne].
      * rewrite lookup_insert_eq in Hflag. discriminate.
      * rewrite lookup_insert_ne in Hflag by exact Hne.
        destruct (H4 key Hflag) as (c0 & a0 & Ha0 & Hk & Hl).
        exists c0, a0. rewrite (lookup_replaced _ c c0 a _ Ha). simpl.
        destruct (decide (c = c0)) as [<- |]; [| auto].
        rewrite Ha in Ha0. injection Ha0 as <-. congruence.
    + exact H5.
  - (* StatusSettled *)
    destruct (collecting a) eqn:Hcol; try discriminate. injection Hstep as <-.
    split; simpl.
    + intros key c0 Hc0. destruct (H1 key c0 Hc0) as (a0 & Ha0 & Hk & Hr).
      destruct (decide (c = c0)) as [<- | Hc].
      * rewrite Ha in Ha0. injection Ha0 as <-. eexists.
        rewrite list_lookup_insert_eq by (eapply lookup_lt_Some, Ha).
        split; [reflexivity |]. auto.
      * exists a0. rewrite list_lookup_insert_ne by exact Hc. auto.
    + intros c0 a0. destruct (decide (c = c0)) as [<- | Hc].
      * rewrite list_lookup_insert_eq by (eapply lookup_lt_Some, Ha).
        intros [= <-]. simpl. eauto.
      * rewrite list_lookup_insert_ne by exact Hc. eauto.
    + intros c0 a0. destruct (decide (c = c0)) as [<- | Hc].
      * rewrite list_lookup_insert_eq by (eapply lookup_lt_Some, Ha).
        intros [= <-]. simpl. eauto.
      * rewrite list_lookup_insert_ne by exact Hc. eauto.
    + intros key Hflag. destruct (H4 key Hflag) as (c0 & a0 & Ha0 & Hk & Hl).
      destruct (decide (c = c0)) as [<- | Hc].
      * rewrite Ha in Ha0. injection Ha0 as <-. eexists c, _.
        rewrite list_lookup_insert_eq by (eapply lookup_lt_Some, Ha).
        split; [reflexivity |]. auto.
      * exists c0, a0. rewrite list_lookup_insert_ne by exact Hc. auto.
    + intros key status.
      destruct (decide (attempt_key a = key)) as [<- | Hne].
      * rewrite lookup_insert_eq. intros [= <-].
        unfold collectSystemStatus, collect_try. simpl. eauto.
      * rewrite lookup_insert_ne by exact Hne. apply H5.
Qed.

Lemma consistent_perform (w w' : World) (a : Action) :
  consistent w -> perform w a = Some w' -> consistent w'.
Proof.
  intros H Hp. destruct a; simpl in Hp; try (injection Hp as <-).
  - eapply consistent_same_maps; [left | | | | exact H]; reflexivity.
  - apply consistent_connect, H.
  - apply consistent_connectAll_from, H.
  - unfold executeCommand_start. destruct (check_command _ _ _); [| exact H].
    apply consistent_ensureConnected, H.
  - unfold upload_start. destruct (validateLocalPath _ _); [| exact H].
    apply consistent_ensureConnected, H.
  - unfold download_start. destruct (validateLocalPath _ _); [| exact H].
    apply consistent_ensureConnected, H.
  - destruct (disconnect_call_parts w) as (Hm & Ha & _).
    destruct (disconnect_frame (manager w)) as (_ & _ & Hf & Hs).
    eapply consistent_same_maps; [| | | exact Ha | exact H]; rewrite Hm; auto.
    right. apply disconnect_empties_clients.
  - eapply consistent_step; eassumption.
  - unfold connectAll_resume.
    destruct (call <$> attempts w !! c) as [[| | | | msg] |]; try exact H.
    apply consistent_connectAll_from, H.
Qed.

Lemma reachable_consistent (w : World) : reachable_world w -> consistent w.
Proof.
  induction 1 as [| w w' a _ IH Hp].
  - split; simpl; intros *; rewrite ?lookup_empty; discriminate.
  - eapply consistent_perform; eassumption.
Qed.

End Preservation.

Section RunFacts.

Context {runtime : Runtime} {float_text : FloatText}.

Lemma reachable_run_events (es : list Event) (w w' : World) :
  reachable_world w -> run_events w es = Some w' -> reachable_world w'.
Proof.
  revert w. induction es as [| e rest IH]; intros w Hw; simpl.
  - intros [= <-]. exact Hw.
  - destruct (step w e) as [w1 |] eqn:Hstep; simpl; [| discriminate].
    apply IH. eapply reachable_perform with (a := Callback e); eassumption.
Qed.

(** In every world a fresh manager can get into, a handle stored for a
    name is a client that [connect] created for that very name, whose
    session became ready and whose [connect] call has returned. *)
Theorem stored_handle_is_ready_client (w : World) (key : string) (c : Client) :
  reachable_world w ->
  clients (manager w) !! key = Some c ->
  exists a, attempts w !! c = Some a /\ attempt_key a = key /\
            call a = Returned /\ (link a = Established \/ link a = Gone).
Proof.
  intros Hw Hc. pose proof (reachable_consistent w Hw) as H.
  destruct (stored_returned w H key c Hc) as (a & Ha & Hk & Hr).
  exists a. repeat split; auto.
  eapply (resolved_ready w H); eauto.
Qed.

(** In every world a fresh manager can get into, a name is flagged
    connected (and reported so by [getAllServerInfos]) only while a session
    established for that name is open. *)
Theorem connected_flag_has_session (w : World) (info : ServerInfo) :
  reachable_world w ->
  info ∈ getAllServerInfos (manager w) ->
  info_connected info = true ->
  exists (c : Client) a, attempts w !! c = Some a /\
                         attempt_key a = info_name info /\ link a = Established.
Proof.
  intros Hw Hin Hflag. pose proof (reachable_consistent w Hw) as H.
  apply list_elem_of_omap in Hin as (key & _ & Hinfo).
  destruct (config_of (configs (manager w)) key); simpl in Hinfo; [| discriminate].
  injection Hinfo as <-. simpl in *.
  apply (flag_established w H). unfold is_connected in Hflag.
  destruct (connected (manager w) !! key) as [[|] |]; congruence.
Qed.

(** In every world a fresh manager can get into, every snapshot in the
    cache (and so every status [getAllServerInfos] shows) has [reachable]
    set and carries its timestamp: a collection never stores
    [reachable: false]. *)
Theorem cached_snapshot_is_reachable (w : World) (key : string)
    (status : ServerStatus) :
  reachable_world w ->
  statusCache (manager w) !! key = Some status ->
  reachable status = true /\ is_Some (lastUpdated status).
Proof.
  intros Hw Hs. exact (cached_reachable w (reachable_consistent w Hw) key status Hs).
Qed.

End RunFacts.

Lemma connected_world_reachable :
  reachable_world (runtime := small_runtime) (float_text := decimal_text)
    connected_world.
Proof.
  eapply (reachable_run_events (runtime := small_runtime) (float_text := decimal_text)
            [Ready 0%nat; Resume 0%nat;
             StatusSettled 0%nat failing_session example_time example_time]
            (connect (runtime := small_runtime) example_world (Some "web")).1).
  - apply (reachable_perform example_world _ (CallConnect (Some "web")));
      [| reflexivity].
    apply (reachable_perform {| manager := new_manager; attempts := []; ended := [] |}
             _ (CallSetConfig [("web", example_config)] None));
      [apply reachable_fresh | reflexivity].
  - vm_compute. reflexivity.
Qed.

Lemma stored_handle_is_ready_client_witness :
  exists a, attempts connected_world !! 0%nat = Some a /\ attempt_key a = "web" /\
            call a = Returned /\ (link a = Established \/ link a = Gone).
Proof.
  apply (stored_handle_is_ready_client (runtime := small_runtime)
           (float_text := decimal_text) connected_world "web" 0%nat).
  - exact connected_world_reachable.
  - vm_compute. reflexivity.
Defined.

Lemma connected_flag_has_session_witness :
  exists (c : Client) a, attempts connected_world !! c = Some a /\
                         attempt_key a = "web" /\ link a = Established.
Proof.
  apply (connected_flag_has_session (runtime := small_runtime)
           (float_text := decimal_text) connected_world
           {| info_name := "web"; info_host := "10.0.0.5"; info_port := 22;
              info_username := "deploy"; info_connected := true;
              info_status := Some (bare_status None example_time) |}).
  - exact connected_world_reachable.
  - vm_compute. apply elem_of_cons. left. reflexivity.
  - reflexivity.
Defined.

Lemma cached_snapshot_is_reachable_witness :
  reachable (bare_status None example_time) = true /\
  is_Some (lastUpdated (bare_status None example_time)).
Proof.
  apply (cached_snapshot_is_reachable (runtime := small_runtime)
           (float_text := decimal_text) connected_world "web").
  - exact connected_world_reachable.
  - vm_compute. reflexivity.
Defined.

(** ** The life cycle of a connection *)

Section OneSlot.

Context {A : Type}.
Implicit Types (l : list A) (a x : A).

Lemma lookup_last_slot l a : (l ++ [a])%list !! length l = Some a.
Proof. induction l; simpl; auto. Qed.

Lemma insert_last_slot l a x : <[length l := x]> (l ++ [a])%list = (l ++ [x])%list.
Proof. induction l; simpl; [reflexivity | f_equal; auto]. Qed.

End OneSlot.

Section LifeCycle.

Context {runtime : Runtime} {float_text : FloatText}.

Lemma in_flight_add_other (w : World) (a : Attempt) (key : string) :
  link a <> Handshaking ->
  in_flight (add_attempt w a) key = in_flight w key.
Proof.
  intros Hl. unfold in_flight, add_attempt. simpl.
  rewrite List.filter_app, length_app. simpl.
  destruct (link a); try congruence; rewrite andb_false_r; simpl; lia.
Qed.



(** After the flag of a name was cleared, [ensureConnected] connects
    anew. *)
Lemma connect_starts_after (w w' : World) (name : option string) (key : string)
    (config : SSHConfig) (options : ConnectOptions) :
  or_default name (defaultName (manager w)) = key ->
  configs (manager w') = configs (manager w) ->
  defaultName (manager w') = defaultName (manager w) ->
  is_connected (manager w') key = false ->
  getConfig (manager w) (Some key) = Ok config ->
  truthy_opt (socksProxy config) = false ->
  authenticate key config false = Ok options ->
  ensureConnected w' name
  = (add_attempt w' (handshaking key config options), Waiting (length (attempts w'))).
Proof.
  intros Hkey Hc Hd Hflag Hconfig Hproxy Hauth.
  unfold ensureConnected. rewrite Hd, Hkey, Hflag. simpl.
  rewrite (connect_starts w' (Some key) key config options); auto.
  - rewrite Hd, <- Hkey. apply or_default_idem.
  - rewrite Hflag. reflexivity.
  - unfold getConfig in *. rewrite Hc, Hd. exact Hconfig.
Qed.

(** An ["error"] while the authentication is in flight rejects the
    [connect] call with [SSH connection [key] failed: message], clears the
    flag of the name and leaves the map of clients as it was; the call never
    resumes, so the failed client is never stored, and the next
    [ensureConnected] for the name starts a new attempt. *)
Theorem handshake_error_rejects_connect (w : World) (name : option string)
    (config : SSHConfig) (options : ConnectOptions) (msg : string) :
  let key := or_default name (defaultName (manager w)) in
  let c := length (attempts w) in
  is_connected (manager w) key && bool_decide (is_Some (clients (manager w) !! key)) = false ->
  getConfig (manager w) (Some key) = Ok config ->
  truthy_opt (socksProxy config) = false ->
  authenticate key config false = Ok options ->
  exists w1 w',
    connect w name = (w1, Waiting c) /\
    step w1 (ClientError c msg) = Some w' /\
    call <$> attempts w' !! c
    = Some (Failed ("SSH connection [" +:+ key +:+ "] failed: " +:+ msg)) /\
    connected (manager w') !! key = Some false /\
    clients (manager w') = clients (manager w) /\
    step w' (Resume c) = None /\
    (ensureConnected w' name).2 = Waiting (S c).
Proof.
  intros key c Hnot Hconfig Hproxy Hauth.
  set (a := handshaking key config options).
  eexists (add_attempt w a), _.
  split; [apply connect_starts; auto |].
  split.
  { unfold step, add_attempt, set_attempt, set_connected, with_manager.
    simpl. unfold c. rewrite lookup_last_slot. simpl.
    rewrite insert_last_slot. reflexivity. }
  simpl. repeat split.
  - unfold c. rewrite lookup_last_slot. reflexivity.
  - apply lookup_insert_eq.
  - unfold c. rewrite lookup_last_slot. reflexivity.
  - erewrite (connect_starts_after w); eauto.
    + simpl. rewrite length_app. simpl. f_equal. unfold c. lia.
    + unfold is_connected. simpl. rewrite lookup_insert_eq. reflexivity.
Qed.

(** When the session of a stored client closes, the flag of the name is
    cleared while the handle stays in the map: [getClient] still returns
    the closed client, and the next [ensureConnected] creates a new client
    and authenticates again. *)
Theorem close_forces_reconnect (w : World) (name : option string)
    (config : SSHConfig) (options : ConnectOptions) (c : Client) (a : Attempt) :
  let key := or_default name (defaultName (manager w)) in
  clients (manager w) !! key = Some c ->
  attempts w !! c = Some a ->
  attempt_key a = key ->
  link a = Established ->
  getConfig (manager w) (Some key) = Ok config ->
  truthy_opt (socksProxy config) = false ->
  authenticate key config false = Ok options ->
  exists w1,
    step w (ClientClose c) = Some w1 /\
    is_connected (manager w1) key = false /\
    getClient (manager w1) name = Ok c /\
    ensureConnected w1 name
    = (add_attempt w1 (handshaking key config options), Waiting (length (attempts w))).
Proof.
  intros key Hstored Ha Hkey Hlink Hconfig Hproxy Hauth.
  eexists. split.
  { simpl. rewrite Ha. simpl. rewrite Hlink. simpl. rewrite Hkey. reflexivity. }
  assert (Hflag : is_connected
            (with_connected (manager w) (<[key := false]> (connected (manager w)))) key
          = false)
    by (unfold is_connected; simpl; rewrite lookup_insert_eq; reflexivity).
  repeat split.
  - exact Hflag.
  - unfold getClient. simpl. fold key. rewrite Hstored. reflexivity.
  - erewrite (connect_starts_after w); eauto.
    simpl. rewrite length_insert. reflexivity.
Qed.

(** When no credentials can be put together, [connect] fails at once:
    the call is rejected with the message of [authenticate], nothing is
    given to [client.connect], no authentication is in flight and no
    callback of the new client can ever run. With a key file configured,
    the failure is that of reading the file: a password configured next to
    it is not tried. *)
Theorem connect_without_credentials (w : World) (name : option string)
    (config : SSHConfig) (msg : string) :
  let key := or_default name (defaultName (manager w)) in
  is_connected (manager w) key && bool_decide (is_Some (clients (manager w) !! key)) = false ->
  getConfig (manager w) (Some key) = Ok config ->
  truthy_opt (socksProxy config) = false ->
  authenticate key config false = Throw msg ->
  exists a,
    connect w name = (add_attempt w a, Finished (Throw msg)) /\
    link a = Idle /\
    sshConfig a = None /\
    in_flight (add_attempt w a) key = in_flight w key /\
    (forall e, event_client e = length (attempts w) -> step (add_attempt w a) e = None) /\
    (truthy_opt (privateKey config) = true ->
     exists err, readFileSync (default "" (privateKey config)) = Throw err /\
                 msg = "Failed to read private key file for [" +:+ key +:+ "]: " +:+ err).
Proof.
  intros key Hnot Hconfig Hproxy Hauth.
  eexists. split.
  { unfold connect. fold key. rewrite Hnot, Hconfig, Hproxy.
    unfold attempt_after_authenticate. rewrite Hauth. reflexivity. }
  repeat split.
  - apply in_flight_add_other. discriminate.
  - intros e He. destruct e; simpl in He; subst; simpl;
      rewrite lookup_last_slot; reflexivity.
  - intros Hkeyfile. unfold authenticate in Hauth. rewrite Hkeyfile in Hauth.
    destruct (readFileSync _) as [content | err]; [discriminate |].
    injection Hauth as <-. eauto.
Qed.

(** With a SOCKS proxy configured, [connect] waits for the tunnel before
    it authenticates: no sequence is in flight and no ["ready"] can come.
    When the tunnel fails, the call is rejected with
    [Failed to create SOCKS proxy connection for [key]: message], the
    manager is as before and no callback of that client can ever run. *)
Theorem failed_proxy_never_authenticates (w : World) (name : option string)
    (config : SSHConfig) (endpoint : string * JsNum) (msg : string) :
  let key := or_default name (defaultName (manager w)) in
  let c := length (attempts w) in
  is_connected (manager w) key && bool_decide (is_Some (clients (manager w) !! key)) = false ->
  getConfig (manager w) (Some key) = Ok config ->
  truthy_opt (socksProxy config) = true ->
  URL_new (default "" (socksProxy config)) = Ok endpoint ->
  exists w1 w',
    connect w name = (w1, Waiting c) /\
    in_flight w1 key = in_flight w key /\
    step w1 (Ready c) = None /\
    step w1 (ProxyFailed c msg) = Some w' /\
    call <$> attempts w' !! c
    = Some (Failed ("Failed to create SOCKS proxy connection for [" +:+ key
                    +:+ "]: " +:+ msg)) /\
    manager w' = manager w /\
    (forall e, event_client e = c -> step w' e = None).
Proof.
  intros key c Hnot Hconfig Hproxy Hurl.
  eexists (add_attempt w _), _. split.
  { unfold connect. fold key. rewrite Hnot, Hconfig, Hproxy, Hurl. reflexivity. }
  split; [apply in_flight_add_other; discriminate |].
  split; [simpl; unfold c; rewrite lookup_last_slot; reflexivity |].
  split.
  { simpl. unfold c. rewrite lookup_last_slot. simpl. reflexivity. }
  simpl. repeat split.
  - unfold c. rewrite insert_last_slot, lookup_last_slot. reflexivity.
  - intros e He. destruct e; simpl in He; subst; simpl; unfold c;
      rewrite insert_last_slot, lookup_last_slot; reflexivity.
Qed.


(** The early return of [connect]. *)
Lemma connect_when_connected (w : World) (key : string) :
  truthy key = true ->
  is_connected (manager w) key = true ->
  is_Some (clients (manager w) !! key) ->
  connect w (Some key) = (w, Finished (Ok ())).
Proof.
  intros Ht Hf Hs. unfold connect, or_default. rewrite Ht, Hf.
  rewrite bool_decide_eq_true_2 by exact Hs. reflexivity.
Qed.

(** When every configured name is connected, [connectAll] returns at once
    and changes nothing. *)
Theorem connectAll_when_all_connected (w : World) :
  (forall key, In key (Object_keys (configs (manager w))) ->
     truthy key = true /\ is_connected (manager w) key = true /\
     is_Some (clients (manager w) !! key)) ->
  connectAll w = (w, Finished (Ok ()), []).
Proof.
  unfold connectAll. generalize (Object_keys (configs (manager w))) as names.
  induction names as [| name rest IH]; intros Hall; simpl; [reflexivity |].
  destruct (Hall name (or_introl eq_refl)) as (Ht & Hf & Hs).
  rewrite (connect_when_connected w name Ht Hf Hs).
  apply IH. intros key Hin. apply Hall. right. exact Hin.
Qed.

(** [connectAll] stops at the first name whose connection fails: when the
    authentication of the first configured name ends in an ["error"], the
    loop is rejected with the error of that [connect]; the remaining names
    are not attempted (one client was created in all). *)
Theorem connectAll_stops_at_first_failure (w : World) (name : string)
    (rest : list string) (config : SSHConfig) (options : ConnectOptions)
    (msg : string) :
  let c := length (attempts w) in
  Object_keys (configs (manager w)) = name :: rest ->
  truthy name = true ->
  is_connected (manager w) name && bool_decide (is_Some (clients (manager w) !! name)) = false ->
  getConfig (manager w) (Some name) = Ok config ->
  truthy_opt (socksProxy config) = false ->
  authenticate name config false = Ok options ->
  exists w1 w2,
    connectAll w = (w1, Waiting c, rest) /\
    step w1 (ClientError c msg) = Some w2 /\
    connectAll_resume w2 c rest
    = (w2, Finished (Throw ("SSH connection [" +:+ name +:+ "] failed: " +:+ msg)), rest) /\
    length (attempts w2) = S (length (attempts w)).
Proof.
  intros c Hkeys Ht Hnot Hconfig Hproxy Hauth.
  assert (Hkey : or_default (Some name) (defaultName (manager w)) = name)
    by (unfold or_default; rewrite Ht; reflexivity).
  eexists (add_attempt w (handshaking name config options)), _.
  split.
  { unfold connectAll. rewrite Hkeys. simpl.
    rewrite (connect_starts w (Some name) name config options); auto. }
  split.
  { simpl. unfold c. rewrite lookup_last_slot. simpl.
    unfold set_attempt, set_connected, with_manager. simpl.
    rewrite insert_last_slot. reflexivity. }
  split.
  - unfold connectAll_resume. simpl. unfold c. rewrite lookup_last_slot. reflexivity.
  - simpl. rewrite length_app. simpl. lia.
Qed.

End LifeCycle.

(** After [disconnect()], a second [disconnect()] changes nothing and ends
    no client, and [getClient] throws for every name. *)
Theorem disconnect_twice (this : SSHConnectionManager) (name : option string) :
  let this' := (disconnect this).1 in
  disconnect this' = (this', []) /\
  getClient this' name
  = Throw ("SSH client for '" +:+ or_default name (defaultName this) +:+ "' not connected").
Proof.
  intros this'.
  assert (Hc : clients this' = ∅) by apply disconnect_empties_clients.
  destruct (disconnect_frame this) as (_ & Hd & _ & _). fold this' in Hd.
  split.
  - unfold disconnect. rewrite Hc. reflexivity.
  - unfold getClient. rewrite Hc, Hd, lookup_empty. reflexivity.
Qed.



Lemma handshake_error_rejects_connect_witness :
  exists w1 w',
    connect (runtime := small_runtime) example_world (Some "web") = (w1, Waiting 0%nat) /\
    step (runtime := small_runtime) (float_text := decimal_text) w1
      (ClientError 0%nat "All configured authentication methods failed") = Some w' /\
    call <$> attempts w' !! 0%nat
    = Some (Failed ("SSH connection [" +:+ "web" +:+ "] failed: "
                    +:+ "All configured authentication methods failed")) /\
    connected (manager w') !! "web" = Some false /\
    clients (manager w') = clients (manager example_world) /\
    step (runtime := small_runtime) (float_text := decimal_text) w' (Resume 0%nat) = None /\
    (ensureConnected (runtime := small_runtime) w' (Some "web")).2 = Waiting 1%nat.
Proof.
  apply (handshake_error_rejects_connect (runtime := small_runtime)
           (float_text := decimal_text) example_world (Some "web")
           example_config example_options
           "All configured authentication methods failed"); vm_compute; reflexivity.
Defined.

Lemma close_forces_reconnect_witness :
  exists w1,
    step (runtime := small_runtime) (float_text := decimal_text) connected_world
      (ClientClose 0%nat) = Some w1 /\
    is_connected (manager w1) "web" = false /\
    getClient (manager w1) (Some "web") = Ok 0%nat /\
    ensureConnected (runtime := small_runtime) w1 (Some "web")
    = (add_attempt w1 (handshaking "web" example_config example_options),
       Waiting (length (attempts connected_world))).
Proof.
  apply (close_forces_reconnect (runtime := small_runtime)
           (float_text := decimal_text) connected_world (Some "web")
           example_config example_options 0%nat
           {| attempt_key := "web"; attempt_config := example_config;
              link := Established; call := Returned;
              sshConfig := Some example_options; collecting := false |});
    vm_compute; reflexivity.
Defined.

Lemma connect_without_credentials_witness :
  exists a,
    connect (runtime := small_runtime) fleet_world (Some "db")
    = (add_attempt fleet_world a,
       Finished (Throw ("Failed to read private key file for [db]: "
                        +:+ "ENOENT: no such file or directory, open "
                        +:+ "'/home/user/.ssh/id_db'"))) /\
    link a = Idle /\
    sshConfig a = None /\
    in_flight (add_attempt fleet_world a) "db" = in_flight fleet_world "db" /\
    (forall e, event_client e = length (attempts fleet_world) ->
       step (runtime := small_runtime) (float_text := decimal_text)
         (add_attempt fleet_world a) e = None) /\
    (truthy_opt (privateKey keyfile_config) = true ->
     exists err,
       readFileSync (Runtime := small_runtime) (default "" (privateKey keyfile_config))
       = Throw err /\
       "Failed to read private key file for [db]: "
       +:+ "ENOENT: no such file or directory, open " +:+ "'/home/user/.ssh/id_db'"
       = "Failed to read private key file for [" +:+ "db" +:+ "]: " +:+ err).
Proof.
  apply (connect_without_credentials (runtime := small_runtime)
           (float_text := decimal_text) fleet_world (Some "db") keyfile_config);
    vm_compute; reflexivity.
Defined.

Lemma failed_proxy_never_authenticates_witness :
  exists w1 w',
    connect (runtime := proxy_runtime) fleet_world (Some "far") = (w1, Waiting 0%nat) /\
    in_flight w1 "far" = in_flight fleet_world "far" /\
    step (runtime := proxy_runtime) (float_text := decimal_text) w1 (Ready 0%nat) = None /\
    step (runtime := proxy_runtime) (float_text := decimal_text) w1
      (ProxyFailed 0%nat "Proxy connection timed out") = Some w' /\
    call <$> attempts w' !! 0%nat
    = Some (Failed ("Failed to create SOCKS proxy connection for [" +:+ "far"
                    +:+ "]: " +:+ "Proxy connection timed out")) /\
    manager w' = manager fleet_world /\
    (forall e, event_client e = 0%nat ->
       step (runtime := proxy_runtime) (float_text := decimal_text) w' e = None).
Proof.
  apply (failed_proxy_never_authenticates (runtime := proxy_runtime)
           (float_text := decimal_text) fleet_world (Some "far") proxy_config
           ("10.0.0.1", Num 1080) "Proxy connection timed out");
    vm_compute; reflexivity.
Defined.

Lemma connectAll_when_all_connected_witness :
  connectAll (runtime := small_runtime) connected_world
  = (connected_world, Finished (Ok ()), []).
Proof.
  apply (connectAll_when_all_connected (runtime := small_runtime) connected_world).
  intros key Hin. vm_compute in Hin. destruct Hin as [<- | []].
  vm_compute. repeat split. eexists. reflexivity.
Defined.

Lemma connectAll_stops_at_first_failure_witness :
  exists w1 w2,
    connectAll (runtime := small_runtime) fleet_world
    = (w1, Waiting 0%nat, ["db"; "far"]) /\
    step (runtime := small_runtime) (float_text := decimal_text) w1
      (ClientError 0%nat "connect ECONNREFUSED") = Some w2 /\
    connectAll_resume (runtime := small_runtime) w2 0%nat ["db"; "far"]
    = (w2, Finished (Throw ("SSH connection [" +:+ "web" +:+ "] failed: "
                            +:+ "connect ECONNREFUSED")), ["db"; "far"]) /\
    length (attempts w2) = S (length (attempts fleet_world)).
Proof.
  apply (connectAll_stops_at_first_failure (runtime := small_runtime)
           (float_text := decimal_text) fleet_world "web" ["db"; "far"]
           example_config example_options "connect ECONNREFUSED");
    vm_compute; reflexivity.
Defined.

(** ** Descriptors and names *)

Lemma config_of_In (known : list (string * SSHConfig)) (key : string)
    (config : SSHConfig) :
  config_of known key = Some config -> In (key, config) known.
Proof.
  induction known as [| [k c] rest IH]; simpl; [discriminate |].
  destruct (k =? key)%string eqn:E.
  - intros [= <-]. apply String.eqb_eq in E. subst. left. reflexivity.
  - intros H. right. apply IH, H.
Qed.

Lemma config_of_first (k : string) (c : SSHConfig) (rest : list (string * SSHConfig)) :
  config_of ((k, c) :: rest) k = Some c.
Proof. simpl. rewrite String.eqb_refl. reflexivity. Qed.

Lemma configs_get_own (known : list (string * SSHConfig)) (key : string)
    (config : SSHConfig) :
  config_of known key = Some config -> configs_get known key = Some config.
Proof. unfold configs_get. intros ->. reflexivity. Qed.

Lemma configs_get_inherited (known : list (string * SSHConfig)) (key : string) :
  config_of known key = None -> In key Object_prototype_names ->
  configs_get known key = Some (inherited_member key).
Proof.
  unfold configs_get. intros -> Hin.
  assert (H : existsb (String.eqb key) Object_prototype_names = true)
    by (apply existsb_exists; exists key; split; [exact Hin | apply String.eqb_refl]).
  rewrite H. reflexivity.
Qed.

Lemma configs_get_undefined (known : list (string * SSHConfig)) (key : string) :
  config_of known key = None -> ~ In key Object_prototype_names ->
  configs_get known key = None.
Proof.
  unfold configs_get. intros -> Hout.
  destruct (existsb (String.eqb key) Object_prototype_names) eqn:H; [| reflexivity].
  apply existsb_exists in H as (k & Hk & E). apply String.eqb_eq in E. subst k.
  destruct (Hout Hk).
Qed.

Lemma configs_get_cases (known : list (string * SSHConfig)) (key : string)
    (config : SSHConfig) :
  configs_get known key = Some config ->
  config_of known key = Some config \/
  (config_of known key = None /\ In key Object_prototype_names /\
   config = inherited_member key).
Proof.
  unfold configs_get. destruct (config_of known key) as [c |]; [intros [= <-]; auto |].
  destruct (existsb (String.eqb key) Object_prototype_names) eqn:H; [| discriminate].
  intros [= <-]. right. split; [reflexivity |]. split; [| reflexivity].
  apply existsb_exists in H as (k & Hk & E). apply String.eqb_eq in E. subst k. exact Hk.
Qed.

Lemma prototype_name_truthy (key : string) :
  In key Object_prototype_names -> truthy key = true.
Proof.
  unfold Object_prototype_names. simpl.
  intros H. repeat (destruct H as [<- | H]; [reflexivity |]). destruct H.
Qed.

Section ConfigFacts.

#[local] Arguments config_of : simpl never.
#[local] Arguments configs_get : simpl never.

(** After [setConfig] with at least one descriptor, [getConfig()] without a
    name succeeds. The default name is the one asked for when that name is
    not empty and [configs[name]] is defined, and the first configured name
    when no default is asked for. It is a configured name unless the name
    asked for is one that [Object.prototype] defines and that is not
    configured: [configs[name]] is then the inherited member, the name
    becomes the default all the same and [getConfig()] returns that member,
    not a descriptor. *)
Theorem setConfig_default_is_configured (this : SSHConnectionManager)
    (newConfigs : list (string * SSHConfig)) (newDefault : option string) :
  newConfigs <> [] ->
  let this' := setConfig this newConfigs newDefault in
  (exists config, getConfig this' None = Ok config) /\
  ((forall d, newDefault = Some d -> In d Object_prototype_names ->
      is_Some (config_of newConfigs d)) ->
   exists config, getConfig this' None = Ok config /\
                  In (defaultName this', config) newConfigs) /\
  (forall d config, newDefault = Some d -> truthy d = true ->
     config_of newConfigs d = Some config ->
     defaultName this' = d /\ getConfig this' None = Ok config) /\
  (forall d, newDefault = Some d -> In d Object_prototype_names ->
     config_of newConfigs d = None ->
     defaultName this' = d /\ getConfig this' None = Ok (inherited_member d)) /\
  (newDefault = None ->
   exists config rest, newConfigs = (defaultName this', config) :: rest).
Proof.
  intros Hne this'. destruct newConfigs as [| [k c] rest]; [congruence |].
  pose proof (configs_get_own _ _ _ (config_of_first k c rest)) as Hfirst.
  assert (Hchosen : forall d config, truthy d = true ->
            configs_get ((k, c) :: rest) d = Some config ->
            newDefault = Some d ->
            defaultName this' = d /\ getConfig this' None = Ok config).
  { intros d config Ht Hd ->. unfold this', getConfig, setConfig. simpl.
    rewrite Ht. rewrite bool_decide_eq_true_2 by (rewrite Hd; eauto). simpl.
    rewrite Hd. auto. }
  assert (Hcases : (exists d config, newDefault = Some d /\ truthy d = true /\
                      configs_get ((k, c) :: rest) d = Some config /\
                      defaultName this' = d /\ getConfig this' None = Ok config) \/
                   (defaultName this' = k /\ getConfig this' None = Ok c)).
  { destruct newDefault as [d |].
    - destruct (truthy d && bool_decide (is_Some (configs_get ((k, c) :: rest) d))) eqn:E.
      + apply andb_true_iff in E as [Ht E]. apply bool_decide_eq_true in E as [config E].
        left. exists d, config. destruct (Hchosen d config Ht E eq_refl). auto.
      + right. unfold this', getConfig, setConfig. simpl. rewrite E. simpl.
        rewrite Hfirst. auto.
    - right. unfold this', getConfig, setConfig. simpl. rewrite Hfirst. auto. }
  split; [| split; [| split; [| split]]].
  - destruct Hcases as [(d & config & _ & _ & _ & _ & H) | [_ H]]; eauto.
  - intros Hown.
    destruct Hcases as [(d & config & -> & _ & Hd & -> & H) | [-> H]].
    + exists config. split; [exact H |].
      destruct (configs_get_cases _ _ _ Hd) as [Hc | (Hc & Hin & _)].
      * exact (config_of_In _ _ _ Hc).
      * destruct (Hown d eq_refl Hin) as [c' Hc']. congruence.
    + exists c. split; [exact H | left; reflexivity].
  - intros d config Hd Ht Hc.
    exact (Hchosen d config Ht (configs_get_own _ _ _ Hc) Hd).
  - intros d Hd Hin Hc.
    exact (Hchosen d _ (prototype_name_truthy d Hin) (configs_get_inherited _ _ Hc Hin) Hd).
  - intros ->. simpl. eauto.
Qed.

End ConfigFacts.

Section MoreFacts.

Context {runtime : Runtime} {float_text : FloatText}.

(** [executeCommand] for a name under which [configs] has nothing (it is
    not configured, and [Object.prototype] defines no member of that name)
    is rejected with [SSH configuration for 'key' not set] before anything
    else happens: no pattern is tried, no client is created, [exec] is not
    called and no timer is set. For a name that is not configured but that
    [Object.prototype] defines, [configs[key]] is the inherited member: the
    policy check passes for every command and the call, when the name is
    not connected, creates a client and is rejected for its lack of
    credentials, [client.connect] not being called. *)
Theorem executeCommand_unknown_name (w : World) (cmdString : string)
    (name : option string) (timeout : option JsNum) (ensured : Result Client)
    (reply : ExecReply) :
  let key := or_default name (defaultName (manager w)) in
  config_of (configs (manager w)) key = None ->
  (~ In key Object_prototype_names ->
   let failure := "SSH configuration for '" +:+ key +:+ "' not set" in
   executeCommand_start w cmdString name = (w, Finished (Throw failure)) /\
   executeCommand (manager w) cmdString name timeout ensured reply
   = rejected_call failure) /\
  (In key Object_prototype_names ->
   let failure := "No valid authentication method provided for [" +:+ key
                  +:+ "] (password or private key)" in
   check_command (manager w) cmdString name = Ok () /\
   (is_connected (manager w) key
    && bool_decide (is_Some (clients (manager w) !! key)) = false ->
    exists a,
      executeCommand_start w cmdString name
      = (add_attempt w a, Finished (Throw failure)) /\
      attempt_key a = key /\ link a = Idle /\ call a = Failed failure /\
      sshConfig a = None)).
Proof.
  intros key Hnone. split.
  - intros Hout failure.
    assert (Hcheck : check_command (manager w) cmdString name = Throw failure).
    { unfold check_command, validateCommand, getConfig. fold key.
      rewrite (configs_get_undefined _ _ Hnone Hout). reflexivity. }
    unfold executeCommand_start, executeCommand. rewrite Hcheck. split; reflexivity.
  - intros Hin failure.
    pose proof (configs_get_inherited _ _ Hnone Hin) as Hget.
    assert (Hcheck : check_command (manager w) cmdString name = Ok ()).
    { unfold check_command, validateCommand, getConfig. fold key.
      rewrite Hget. reflexivity. }
    split; [exact Hcheck |].
    intros Hnot. unfold executeCommand_start. rewrite Hcheck.
    unfold ensureConnected. fold key. rewrite <- negb_andb, Hnot. simpl.
    unfold connect.
    assert (Hkey : or_default (Some key) (defaultName (manager w)) = key)
      by (unfold or_default; rewrite (prototype_name_truthy key Hin); reflexivity).
    rewrite Hkey, Hnot. unfold getConfig. rewrite Hkey, Hget. simpl.
    eexists. split; [reflexivity |]. repeat split.
Qed.

(** [setConfig] replaces the descriptors and leaves the sessions alone: a
    name that is connected stays connected under whatever descriptors come
    next, [connect] and [ensureConnected] for it return the stored client
    at once, even when its descriptor was changed or removed. *)
Theorem setConfig_keeps_sessions (w : World) (key : string) (c : Client)
    (newConfigs : list (string * SSHConfig)) (newDefault : option string) :
  truthy key = true ->
  is_connected (manager w) key = true ->
  clients (manager w) !! key = Some c ->
  let w' := with_manager w (setConfig (manager w) newConfigs newDefault) in
  connect w' (Some key) = (w', Finished (Ok ())) /\
  ensureConnected w' (Some key) = (w', Finished (Ok c)).
Proof.
  intros Ht Hf Hc w'.
  assert (Hf' : is_connected (manager w') key = true) by exact Hf.
  assert (Hc' : clients (manager w') !! key = Some c) by exact Hc.
  assert (He : ensureConnected w' (Some key) = (w', Finished (Ok c))).
  { unfold ensureConnected, ensureConnected_resume, or_default.
    rewrite Ht, Hf', Hc'. rewrite bool_decide_eq_true_2 by eauto. reflexivity. }
  split; [| exact He].
  apply connect_when_connected; eauto.
Qed.

End MoreFacts.

Lemma setConfig_default_is_configured_witness :
  let known := [("web", example_config); ("db", keyfile_config)] in
  (let this' := setConfig new_manager known (Some "db") in
   defaultName this' = "db" /\ getConfig this' None = Ok keyfile_config) /\
  (let this' := setConfig new_manager known (Some "constructor") in
   defaultName this' = "constructor" /\
   getConfig this' None = Ok (inherited_member "constructor")).
Proof.
  split.
  - destruct (setConfig_default_is_configured new_manager
                [("web", example_config); ("db", keyfile_config)] (Some "db"))
      as (_ & _ & H & _); [discriminate |].
    apply (H "db" keyfile_config); reflexivity.
  - destruct (setConfig_default_is_configured new_manager
                [("web", example_config); ("db", keyfile_config)] (Some "constructor"))
      as (_ & _ & _ & H & _); [discriminate |].
    apply (H "constructor"); [reflexivity | simpl; auto | reflexivity].
Defined.

Lemma executeCommand_unknown_name_witness :
  (executeCommand_start (runtime := small_runtime) example_world "ls" (Some "backup")
   = (example_world,
      Finished (Throw ("SSH configuration for '" +:+ "backup" +:+ "' not set")))
   /\
   executeCommand (runtime := small_runtime) (manager example_world) "ls"
     (Some "backup") None (Ok 0%nat) (ExecStream [Data "x"; Close (Some 0)])
   = rejected_call ("SSH configuration for '" +:+ "backup" +:+ "' not set")) /\
  (check_command (runtime := small_runtime) (manager example_world) "rm -rf /"
     (Some "constructor") = Ok () /\
   exists a,
     executeCommand_start (runtime := small_runtime) example_world "rm -rf /"
       (Some "constructor")
     = (add_attempt example_world a,
        Finished (Throw ("No valid authentication method provided for ["
                         +:+ "constructor" +:+ "] (password or private key)"))) /\
     link a = Idle).
Proof.
  split.
  - apply (executeCommand_unknown_name (runtime := small_runtime) example_world "ls"
             (Some "backup") None (Ok 0%nat) (ExecStream [Data "x"; Close (Some 0)])).
    + vm_compute. reflexivity.
    + unfold Object_prototype_names. simpl. intros H.
      repeat (destruct H as [H | H]; [discriminate H |]). destruct H.
  - destruct (executeCommand_unknown_name (runtime := small_runtime) example_world
                "rm -rf /" (Some "constructor") None (Ok 0%nat) (ExecStream []))
      as [_ H]; [vm_compute; reflexivity |].
    destruct H as [Hcheck Hstart]; [simpl; auto |].
    split; [exact Hcheck |].
    destruct Hstart as (a & Ha & _ & Hlink & _); [vm_compute; reflexivity |].
    exists a. split; [exact Ha | exact Hlink].
Defined.

Lemma setConfig_keeps_sessions_witness :
  let w' := with_manager connected_world (setConfig (manager connected_world) [] None) in
  connect (runtime := small_runtime) w' (Some "web") = (w', Finished (Ok ())) /\
  ensureConnected (runtime := small_runtime) w' (Some "web") = (w', Finished (Ok 0%nat)).
Proof.
  apply (setConfig_keeps_sessions (runtime := small_runtime) connected_world
           "web" 0%nat [] None); vm_compute; reflexivity.
Defined.

(** ** More on the policy and on commands *)

Section MorePolicy.

Context {runtime : Runtime}.

(** The allow patterns are compiled one at a time and only up to the
    first that matches: with no deny-list, a command matching an allow
    pattern whose predecessors are well-formed is allowed whatever comes
    after that pattern, malformed patterns included. *)
Theorem validateCommand_first_match_wins (this : SSHConnectionManager)
    (command : string) (name : option string) (config : SSHConfig)
    (pre rest : list string) (p : string) :
  getConfig this name = Ok config ->
  commandWhitelist config = Some (pre ++ p :: rest)%list ->
  configured (commandBlacklist config) = None ->
  (forall q, In q pre ->
     exists regex, RegExp_new q = Ok regex /\ RegExp_test regex command = false) ->
  matches p command ->
  validateCommand this command name = Ok {| isAllowed := true; reason := None |}.
Proof.
  intros Hconfig Hw Hb Hpre (regex & Hp & Ht). unfold validateCommand.
  rewrite Hconfig. cbn. rewrite Hw.
  assert (Hc : configured (Some (pre ++ p :: rest)%list) = Some (pre ++ p :: rest)%list)
    by (destruct pre; reflexivity).
  rewrite Hc, (some_pattern_matches_first pre rest p command Hpre), Hp. cbn.
  rewrite Ht. cbn. rewrite Hb. reflexivity.
Qed.

(** A malformed allow pattern that is reached (no pattern before it
    matches) makes [validateCommand] throw the error of [new RegExp], and
    [executeCommand] is rejected with that error, not with a validation
    failure; [exec] is not called. *)
Theorem validateCommand_malformed_reached (this : SSHConnectionManager)
    (command : string) (name : option string) (config : SSHConfig)
    (pre rest : list string) (p msg : string) (timeout : option JsNum)
    (ensured : Result Client) (reply : ExecReply) :
  getConfig this name = Ok config ->
  commandWhitelist config = Some (pre ++ p :: rest)%list ->
  (forall q, In q pre ->
     exists regex, RegExp_new q = Ok regex /\ RegExp_test regex command = false) ->
  RegExp_new p = Throw msg ->
  validateCommand this command name = Throw msg /\
  executeCommand this command name timeout ensured reply = rejected_call msg.
Proof.
  intros Hconfig Hw Hpre Hp.
  assert (Hv : validateCommand this command name = Throw msg).
  { unfold validateCommand. rewrite Hconfig. cbn. rewrite Hw.
    assert (Hc : configured (Some (pre ++ p :: rest)%list) = Some (pre ++ p :: rest)%list)
      by (destruct pre; reflexivity).
    rewrite Hc, (some_pattern_matches_first pre rest p command Hpre), Hp. reflexivity. }
  split; [exact Hv |].
  unfold executeCommand, check_command. rewrite Hv. reflexivity.
Qed.

(** A pattern that matches and is preceded by regular expressions only
    makes [some] answer [true]; what follows it is not compiled. *)
Lemma some_pattern_matches_hit (pre rest : list string) (p command : string) :
  (forall q, In q pre -> exists regex, RegExp_new q = Ok regex) ->
  matches p command ->
  some_pattern_matches (pre ++ p :: rest)%list command = Ok true.
Proof.
  intros Hpre (regex & Hp & Ht).
  induction pre as [| q pre IH]; cbn.
  - rewrite Hp. cbn. rewrite Ht. reflexivity.
  - destruct (Hpre q (or_introl eq_refl)) as (regex' & Hq). rewrite Hq. cbn.
    destruct (RegExp_test regex' command); [reflexivity |].
    apply IH. intros q' Hq'. apply Hpre. right. exact Hq'.
Qed.

(** A command that passes the allow-list (there is none, or it holds a
    pattern that matches and is preceded by regular expressions only) and
    matches a deny pattern preceded by regular expressions only is denied
    with the reason [Command matches blacklist, execution forbidden]. The
    patterns that follow the matching ones are not compiled: they may be
    malformed. *)
Theorem validateCommand_deny_list_hit (this : SSHConnectionManager)
    (command : string) (name : option string) (config : SSHConfig)
    (pre rest : list string) (pattern : string) :
  getConfig this name = Ok config ->
  (configured (commandWhitelist config) = None \/
   exists before allow after,
     commandWhitelist config = Some (before ++ allow :: after)%list /\
     (forall q, In q before -> exists regex, RegExp_new q = Ok regex) /\
     matches allow command) ->
  commandBlacklist config = Some (pre ++ pattern :: rest)%list ->
  (forall q, In q pre -> exists regex, RegExp_new q = Ok regex) ->
  matches pattern command ->
  validateCommand this command name
  = Ok {| isAllowed := false;
          reason := Some "Command matches blacklist, execution forbidden" |}.
Proof.
  intros Hconfig Hallow Hb Hpre Hm. unfold validateCommand.
  rewrite Hconfig. cbn.
  assert (Hpass : match configured (commandWhitelist config) with
                  | Some whitelist => some_pattern_matches whitelist command
                  | None => Ok true
                  end = Ok true).
  { destruct Hallow as [-> | (before & allow & after & -> & Hbefore & Hallow)];
      [reflexivity |].
    assert (Hc : configured (Some (before ++ allow :: after)%list)
                 = Some (before ++ allow :: after)%list)
      by (destruct before; reflexivity).
    rewrite Hc. apply some_pattern_matches_hit; assumption. }
  rewrite Hpass. cbn. rewrite Hb.
  assert (Hc : configured (Some (pre ++ pattern :: rest)%list)
               = Some (pre ++ pattern :: rest)%list)
    by (destruct pre; reflexivity).
  rewrite Hc, (some_pattern_matches_hit pre rest pattern command Hpre Hm).
  reflexivity.
Qed.

End MorePolicy.

Section MoreCommands.

Context {runtime : Runtime} {float_text : FloatText}.

(** A denied command is rejected with [Command validation failed: ]
    followed by the reason, before the session is looked at: the world is
    unchanged (no client created), [exec] is not called and no timer is
    set. *)
Theorem denied_command_never_connects (w : World) (cmdString : string)
    (name : option string) (verdict : Verdict) (timeout : option JsNum)
    (ensured : Result Client) (reply : ExecReply) :
  validateCommand (manager w) cmdString name = Ok verdict ->
  isAllowed verdict = false ->
  let failure := "Command validation failed: " +:+ default "undefined" (reason verdict) in
  executeCommand_start w cmdString name = (w, Finished (Throw failure)) /\
  executeCommand (manager w) cmdString name timeout ensured reply = rejected_call failure.
Proof.
  intros Hv Hd failure.
  assert (Hcheck : check_command (manager w) cmdString name = Throw failure)
    by (unfold check_command; rewrite Hv; cbn; rewrite Hd; reflexivity).
  unfold executeCommand_start, executeCommand. rewrite Hcheck. split; reflexivity.
Qed.

(** An ["error"] of the stream before its close rejects the call with
    [Stream error: message]; a close that follows does not change that. *)
Theorem stream_error_rejects (this : SSHConnectionManager) (cmdString : string)
    (name : option string) (timeout : option JsNum) (client : Client)
    (events later : list StreamEvent) (msg : string) :
  check_command this cmdString name = Ok () ->
  forallb running_event events = true ->
  promise (executeCommand this cmdString name timeout (Ok client)
             (ExecStream (events ++ Error msg :: later)))
  = Some (Throw ("Stream error: " +:+ msg)).
Proof.
  intros Hcheck Hrun. unfold executeCommand. rewrite Hcheck.
  unfold exec_phase. rewrite fold_left_app. simpl.
  apply settled_promise_is_final.
  match goal with
  | |- context [fold_left on_event events ?st0] =>
      destruct (running_stream events st0 Hrun) as (Hp & _ & _)
  end.
  unfold settle_promise, cleanup. simpl. rewrite Hp. reflexivity.
Qed.

(** While the stream runs, [stream.close()] has been asked for exactly when
    the timer has fired, and the timer is pending exactly when it has
    not. *)
Lemma timer_of_running_stream (events : list StreamEvent) (st : Exec) :
  forallb running_event events = true ->
  closeAsked st = negb (timeoutId st) ->
  let st' := fold_left on_event events st in
  closeAsked st' = closeAsked st || existsb is_timer events /\
  closeAsked st' = negb (timeoutId st').
Proof.
  revert st. induction events as [| e rest IH]; intros st Hrun Hinv; simpl.
  - rewrite orb_false_r. auto.
  - simpl in Hrun. apply andb_true_iff in Hrun as [He Hrest].
    assert (Hinv' : closeAsked (on_event st e) = negb (timeoutId (on_event st e)))
      by (destruct e; simpl in *; try discriminate; auto;
          destruct (timeoutId st) eqn:E; simpl in *; rewrite ?E; auto).
    destruct (IH (on_event st e) Hrest Hinv') as [H1 H2].
    split; [| exact H2]. rewrite H1.
    destruct e; simpl in *; try discriminate; auto.
    destruct (timeoutId st) eqn:E; simpl in *; rewrite ?Hinv; simpl; auto.
Qed.

(** The timeout does not settle the call. While the stream has neither
    closed nor failed the promise is pending; [stream.close()] has been
    called exactly when the timer has fired, and the timer is pending
    exactly when it has not. *)
Theorem timeout_asks_to_close_and_waits (this : SSHConnectionManager)
    (cmdString : string) (name : option string) (timeout : option JsNum)
    (client : Client) (events : list StreamEvent) :
  check_command this cmdString name = Ok () ->
  forallb running_event events = true ->
  let call := executeCommand this cmdString name timeout (Ok client) (ExecStream events) in
  promise call = None /\
  closeAsked call = existsb is_timer events /\
  timeoutId call = negb (existsb is_timer events).
Proof.
  intros Hcheck Hrun call. unfold call, executeCommand. rewrite Hcheck.
  unfold exec_phase.
  match goal with
  | |- context [fold_left on_event events ?st0] =>
      destruct (running_stream events st0 Hrun) as (Hp & _ & _);
      destruct (timer_of_running_stream events st0 Hrun eq_refl) as (Hc & Hi)
  end.
  simpl in *. rewrite Hp, Hc. repeat split.
  rewrite Hc in Hi. rewrite Hi, negb_involutive. reflexivity.
Qed.

(** After the close or the error, the timer is disarmed for good. *)
Lemma disarmed_timer_is_final (events : list StreamEvent) (st : Exec) :
  timeoutId st = false ->
  let st' := fold_left on_event events st in
  timeoutId st' = false /\ closeAsked st' = closeAsked st.
Proof.
  revert st. induction events as [| e rest IH]; intros st Hst; simpl; [auto |].
  assert (H : timeoutId (on_event st e) = false /\ closeAsked (on_event st e) = closeAsked st)
    by (destruct e; simpl; rewrite ?Hst; auto).
  destruct H as [H1 H2]. destruct (IH (on_event st e) H1) as [H3 H4].
  split; [exact H3 | congruence].
Qed.

(** A stream that closes or fails before the timer fires clears the
    timer: [stream.close()] is never called for that command, whatever
    comes later. *)
Theorem close_before_timeout_disarms_timer (this : SSHConnectionManager)
    (cmdString : string) (name : option string) (timeout : option JsNum)
    (client : Client) (events later : list StreamEvent) (e : StreamEvent) :
  check_command this cmdString name = Ok () ->
  forallb running_event events = true ->
  existsb is_timer events = false ->
  running_event e = false ->
  let call :=
    executeCommand this cmdString name timeout (Ok client)
      (ExecStream (events ++ e :: later)) in
  timeoutId call = false /\ closeAsked call = false.
Proof.
  intros Hcheck Hrun Hno He call. unfold call, executeCommand. rewrite Hcheck.
  unfold exec_phase. rewrite fold_left_app. simpl.
  match goal with
  | |- context [fold_left on_event events ?st0] =>
      destruct (timer_of_running_stream events st0 Hrun eq_refl) as (Hc & _);
      set (st := fold_left on_event events st0) in *
  end.
  simpl in Hc. rewrite Hno in Hc.
  assert (H : timeoutId (on_event st e) = false /\ closeAsked (on_event st e) = false)
    by (destruct e; simpl in *; try discriminate; auto).
  destruct H as [H1 H2].
  destruct (disarmed_timer_is_final later (on_event st e) H1) as [H3 H4].
  split; [exact H3 | congruence].
Qed.

End MoreCommands.

Lemma validateCommand_first_match_wins_witness :
  validateCommand (runtime := small_runtime) lenient_manager "ls -l" None
  = Ok {| isAllowed := true; reason := None |}.
Proof.
  apply (validateCommand_first_match_wins (runtime := small_runtime)
           lenient_manager "ls -l" None lenient_config ["^cat"] ["("] "^ls").
  - reflexivity.
  - reflexivity.
  - reflexivity.
  - intros q [<- | []]. eexists. split; vm_compute; reflexivity.
  - eexists. split; vm_compute; reflexivity.
Defined.

Lemma validateCommand_malformed_reached_witness :
  validateCommand (runtime := small_runtime) broken_manager "ls -l" None
  = Throw ("Invalid regular expression: /" +:+ "(" +:+ "/") /\
  executeCommand (runtime := small_runtime) broken_manager "ls -l" None None
    (Ok 0%nat) (ExecStream [Data "x"; Close (Some 0)])
  = rejected_call ("Invalid regular expression: /" +:+ "(" +:+ "/").
Proof.
  apply (validateCommand_malformed_reached (runtime := small_runtime)
           broken_manager "ls -l" None broken_config ["^cat"] ["^ls"] "(").
  - reflexivity.
  - reflexivity.
  - intros q [<- | []]. eexists. split; vm_compute; reflexivity.
  - vm_compute. reflexivity.
Defined.

Lemma validateCommand_deny_list_hit_witness :
  validateCommand (runtime := small_runtime) guarded_manager "cat /etc/passwd" None
  = Ok {| isAllowed := false;
          reason := Some "Command matches blacklist, execution forbidden" |}.
Proof.
  apply (validateCommand_deny_list_hit (runtime := small_runtime)
           guarded_manager "cat /etc/passwd" None guarded_config
           ["shadow"] ["("] "passwd").
  - reflexivity.
  - right. exists ["^ls"], "^cat", ["("]. split; [reflexivity |]. split.
    + intros q Hin. simpl in Hin.
      destruct Hin as [<- | []]; eexists; vm_compute; reflexivity.
    + eexists. split; vm_compute; reflexivity.
  - reflexivity.
  - intros q Hin. simpl in Hin.
    destruct Hin as [<- | []]; eexists; vm_compute; reflexivity.
  - eexists. split; vm_compute; reflexivity.
Defined.

Lemma validateCommand_allow_list_miss_witness :
  validateCommand (runtime := small_runtime) example_manager "rm -rf /" None
  = Ok {| isAllowed := false;
          reason := Some "Command not in whitelist, execution forbidden" |}.
Proof.
  apply (validateCommand_allow_list_miss (runtime := small_runtime)
           example_manager "rm -rf /" None example_config "^ls" ["cat "]).
  - reflexivity.
  - reflexivity.
  - intros pattern Hin. simpl in Hin.
    destruct Hin as [<- | [<- | []]]; eexists; vm_compute; reflexivity.
  - intros pattern [<- | [<- | []]] (regex & Hnew & Htest);
      vm_compute in Hnew; injection Hnew as <-; vm_compute in Htest; discriminate.
Defined.

Lemma denied_command_never_connects_witness :
  executeCommand_start (runtime := small_runtime) example_world "rm -rf /" None
  = (example_world,
     Finished (Throw ("Command validation failed: "
                      +:+ "Command not in whitelist, execution forbidden"))) /\
  executeCommand (runtime := small_runtime) (manager example_world) "rm -rf /" None
    None (Ok 0%nat) (ExecStream [Data "x"; Close (Some 0)])
  = rejected_call ("Command validation failed: "
                   +:+ "Command not in whitelist, execution forbidden").
Proof.
  apply (denied_command_never_connects (runtime := small_runtime)
           example_world "rm -rf /" None
           {| isAllowed := false;
              reason := Some "Command not in whitelist, execution forbidden" |}
           None (Ok 0%nat) (ExecStream [Data "x"; Close (Some 0)])).
  - vm_compute. reflexivity.
  - reflexivity.
Defined.

Lemma stream_error_rejects_witness :
  promise (executeCommand (runtime := small_runtime) example_manager "ls -l" None
             None (Ok 0%nat)
             (ExecStream ([Data "total"; TimerFired] ++ Error "Channel lost" :: [Close None])))
  = Some (Throw ("Stream error: " +:+ "Channel lost")).
Proof.
  apply (stream_error_rejects (runtime := small_runtime) example_manager "ls -l"
           None None 0%nat [Data "total"; TimerFired] [Close None] "Channel lost").
  - vm_compute. reflexivity.
  - reflexivity.
Defined.

Lemma timeout_asks_to_close_and_waits_witness :
  let call :=
    executeCommand (runtime := small_runtime) example_manager "ls -l" None
      (Some (Num 5000)) (Ok 0%nat) (ExecStream [Data "total"; TimerFired; Data " 0"]) in
  promise call = None /\
  closeAsked call = existsb is_timer [Data "total"; TimerFired; Data " 0"] /\
  timeoutId call = negb (existsb is_timer [Data "total"; TimerFired; Data " 0"]).
Proof.
  apply (timeout_asks_to_close_and_waits (runtime := small_runtime) example_manager
           "ls -l" None (Some (Num 5000)) 0%nat [Data "total"; TimerFired; Data " 0"]).
  - vm_compute. reflexivity.
  - reflexivity.
Defined.

Lemma close_before_timeout_disarms_timer_witness :
  let call :=
    executeCommand (runtime := small_runtime) example_manager "ls -l" None None
      (Ok 0%nat) (ExecStream ([Data "total 0"] ++ Close (Some 0) :: [TimerFired])) in
  timeoutId call = false /\ closeAsked call = false.
Proof.
  apply (close_before_timeout_disarms_timer (runtime := small_runtime)
           example_manager "ls -l" None None 0%nat [Data "total 0"] [TimerFired]
           (Close (Some 0))).
  - vm_compute. reflexivity.
  - reflexivity.
  - reflexivity.
  - reflexivity.
Defined.

(** ** What a snapshot can hold *)

(** *** White space *)

Lemma trimEnd_idem (s : string) : trimEnd (trimEnd s) = trimEnd s.
Proof.
  induction s as [| c rest IH]; simpl; [reflexivity |].
  destruct (trimEnd rest) as [| d t] eqn:E.
  - destruct (is_space c) eqn:Hc; simpl; [reflexivity |]. rewrite Hc. reflexivity.
  - simpl in *. rewrite IH. reflexivity.
Qed.

Lemma trimStart_head_clean (s : string) : head_clean (trimStart s).
Proof.
  induction s as [| c rest IH]; simpl; [exact I |].
  destruct (is_space c) eqn:Hc; [exact IH | exact Hc].
Qed.

Lemma trimEnd_head_clean (s : string) : head_clean s -> head_clean (trimEnd s).
Proof.
  destruct s as [| c rest]; simpl; [auto |]. intros Hc.
  destruct (trimEnd rest); [rewrite Hc |]; exact Hc.
Qed.

Lemma trimStart_of_head_clean (s : string) : head_clean s -> trimStart s = s.
Proof. destruct s as [| c rest]; simpl; [auto |]. intros ->. reflexivity. Qed.

Lemma trim_idem (s : string) : trim (trim s) = trim s.
Proof.
  unfold trim.
  rewrite (trimStart_of_head_clean (trimEnd (trimStart s)))
    by apply trimEnd_head_clean, trimStart_head_clean.
  apply trimEnd_idem.
Qed.

Lemma trimEnd_truthy (s : string) :
  head_clean s -> truthy s = true -> truthy (trimEnd s) = true.
Proof.
  destruct s as [| c rest]; simpl; [discriminate |]. intros Hc _.
  destruct (trimEnd rest); [rewrite Hc |]; reflexivity.
Qed.

Section CollectorTexts.

Context {float_text : FloatText}.

(** An entry of the batch holds a trimmed text or its fallback. *)
Lemma run_value (client : Session) (command fallback value : string) :
  run client command fallback = fulfilled value ->
  value = fallback \/ trim value = value.
Proof.
  unfold run, execCommand. destruct (client command) as [msg | chunks code]; simpl.
  - intros [= <-]. auto.
  - destruct code as [[| |] |]; simpl; intros [= <-]; auto using trim_idem.
Qed.

Lemma text_field_trimmed (client : Session) (command value : string) :
  text_field (run client command "") = Some value -> trimmed value.
Proof.
  destruct (run_fulfilled client command "") as [v Hv]. rewrite Hv. simpl.
  destruct (truthy v) eqn:Ht; [| discriminate]. intros [= <-].
  split; [exact Ht |].
  destruct (run_value _ _ _ _ Hv) as [-> | H]; [discriminate | exact H].
Qed.

(** The texts of a snapshot ([hostname], [osName], [osVersion],
    [kernelVersion], [uptime]) are never empty and never have white space
    around them: an empty output leaves the field absent. *)
Theorem text_fields_are_trimmed (client : Session) (connectionName now : string)
    (status : ServerStatus) (value : string) :
  collectSystemStatus client connectionName now = Ok status ->
  hostname status = Some value \/ osName status = Some value \/
  osVersion status = Some value \/ kernelVersion status = Some value \/
  uptime status = Some value ->
  trimmed value.
Proof.
  unfold collectSystemStatus, collect_try. intros [= <-]. simpl.
  intros [H | [H | [H | [H | H]]]]; eapply text_field_trimmed, H.
Qed.

End CollectorTexts.

(** *** Runs of code units *)

Lemma span_run (p : ascii -> bool) (s run rest : string) :
  span p s = (run, rest) ->
  s = run +:+ rest /\
  (forall c tl, rest = String c tl -> p c = false).
Proof.
  revert run rest. induction s as [| c s IH]; simpl; intros run rest.
  - intros [= <- <-]. split; [reflexivity | discriminate].
  - destruct (p c) eqn:Hc.
    + destruct (span p s) as [r t]. intros [= <- <-].
      destruct (IH r t eq_refl) as [-> Hstop]. split; [reflexivity | exact Hstop].
    + intros [= <- <-]. split; [reflexivity |]. intros c' tl [= <- <-]. exact Hc.
Qed.

Lemma span_non_space (s run rest : string) :
  span non_space s = (run, rest) -> no_space run = true.
Proof.
  revert run rest. induction s as [| c s IH]; simpl; intros run rest.
  - intros [= <- <-]. reflexivity.
  - destruct (non_space c) eqn:Hc.
    + destruct (span non_space s) as [r t]. intros [= <- <-].
      simpl. rewrite Hc. exact (IH r t eq_refl).
    + intros [= <- <-]. reflexivity.
Qed.

Lemma span_of_run (f rest : string) :
  no_space f = true ->
  (forall c tl, rest = String c tl -> non_space c = false) ->
  span non_space (f +:+ rest) = (f, rest).
Proof.
  intros Hf Hstop. induction f as [| c f IH]; simpl.
  - destruct rest as [| c tl]; [reflexivity |].
    simpl. rewrite (Hstop c tl eq_refl). reflexivity.
  - simpl in Hf. apply andb_true_iff in Hf as [Hc Hf].
    rewrite Hc, (IH Hf). reflexivity.
Qed.

Lemma free_total_after_groups (s f t : string) :
  free_total_after s = Some (f, t) -> group_text f /\ group_text t.
Proof.
  unfold free_total_after.
  destruct (span non_space s) as [g1 r1] eqn:E1.
  destruct (span is_space r1) as [ws r2] eqn:E2.
  destruct (truthy g1 && truthy ws) eqn:Ht; [| discriminate].
  destruct (strip_prefix "total:" r2) as [r3 |]; [| discriminate].
  destruct (span non_space r3) as [g2 r4] eqn:E3.
  destruct (truthy g2) eqn:Ht2; [| discriminate].
  intros H. inversion H; subst. apply andb_true_iff in Ht as [Ht _].
  split; split; eauto using span_non_space.
Qed.

Lemma match_free_total_unfold (s : string) :
  match_free_total s
  = match match strip_prefix "free:" s with
          | Some rest => free_total_after rest
          | None => None
          end with
    | Some groups => Some groups
    | None =>
        match s with
        | EmptyString => None
        | String _ rest => match_free_total rest
        end
    end.
Proof. destruct s; reflexivity. Qed.

Lemma match_free_total_groups (s f t : string) :
  match_free_total s = Some (f, t) -> group_text f /\ group_text t.
Proof.
  induction s as [| c s IH]; rewrite match_free_total_unfold;
    destruct (strip_prefix "free:" _) as [rest |];
    try destruct (free_total_after rest) as [[f' t'] |] eqn:Hafter;
    try discriminate; auto;
    intros H; inversion H; subst; eapply free_total_after_groups, Hafter.
Qed.

Lemma append_empty (s : string) : s +:+ "" = s.
Proof.
  induction s as [| a s IH]; [reflexivity |].
  change (String a (s +:+ "") = String a s). rewrite IH. reflexivity.
Qed.

Lemma strip_prefix_app (p s : string) : strip_prefix p (p +:+ s) = Some s.
Proof.
  induction p as [| a p IH]; [destruct s; reflexivity |].
  change (strip_prefix (String a p) (String a (p +:+ s)) = Some s).
  simpl. rewrite Ascii.eqb_refl. exact IH.
Qed.

Lemma match_free_total_canonical (f t : string) :
  group_text f -> group_text t ->
  match_free_total ("free:" +:+ f +:+ " total:" +:+ t) = Some (f, t).
Proof.
  intros [Htf Hf] [Htt Ht].
  assert (Hafter : free_total_after (f +:+ " total:" +:+ t) = Some (f, t)).
  { unfold free_total_after.
    rewrite (span_of_run f (" total:" +:+ t) Hf)
      by (intros c tl [= <- <-]; reflexivity).
    simpl.
    pose proof (span_of_run t "" Ht) as Hspan. rewrite append_empty in Hspan.
    change ("" +:+ t) with t. rewrite Hspan by discriminate.
    rewrite Htf, Htt. reflexivity. }
  rewrite match_free_total_unfold, strip_prefix_app, Hafter. reflexivity.
Qed.

Section CollectorParsing.

Context {float_text : FloatText}.

Lemma space_field_groups (r : Settled string) (sp : Space) :
  space_field r = Some sp -> group_text (free sp) /\ group_text (total sp).
Proof.
  destruct r as [value | msg]; simpl; [| discriminate].
  destruct (truthy value); [| discriminate].
  destruct (match_free_total value) as [[f t] |] eqn:E; [| discriminate].
  intros [= <-]. simpl. eapply match_free_total_groups, E.
Qed.

(** The two parts of [diskSpace] and of [memory], when present, are not
    empty and contain no white space. *)
Theorem free_total_fields_are_groups (client : Session) (connectionName now : string)
    (status : ServerStatus) (sp : Space) :
  collectSystemStatus client connectionName now = Ok status ->
  diskSpace status = Some sp \/ memory status = Some sp ->
  group_text (free sp) /\ group_text (total sp).
Proof.
  unfold collectSystemStatus, collect_try. intros [= <-]. simpl.
  intros [H | H]; eapply space_field_groups, H.
Qed.

(** Round trip with the [awk] print of the two commands: an output
    [free:F total:T], with [F] and [T] non-empty and free of white space, is
    read back as [{free: F, total: T}], for the disk and for the memory. *)
Theorem free_total_round_trip (client : Session) (connectionName now : string)
    (f t : string) :
  group_text f -> group_text t ->
  (execCommand client commands.diskSpace = Ok ("free:" +:+ f +:+ " total:" +:+ t) ->
   exists status, collectSystemStatus client connectionName now = Ok status /\
                  diskSpace status = Some {| free := f; total := t |}) /\
  (execCommand client commands.memory = Ok ("free:" +:+ f +:+ " total:" +:+ t) ->
   exists status, collectSystemStatus client connectionName now = Ok status /\
                  memory status = Some {| free := f; total := t |}).
Proof.
  intros Hf Ht.
  pose proof (match_free_total_canonical f t Hf Ht) as Hm.
  assert (Hfield : space_field (fulfilled ("free:" +:+ f +:+ " total:" +:+ t))
                   = Some {| free := f; total := t |})
    by (unfold space_field, when_fulfilled;
        rewrite (match_free_total_truthy _ _ Hm), Hm; reflexivity).
  split; intros Hexec; unfold collectSystemStatus, collect_try;
    eexists; (split; [reflexivity |]); cbn [diskSpace memory];
    rewrite (run_of_success _ _ _ _ Hexec); exact Hfield.
Qed.

Lemma count_of_floored (value : string) : floored (count_of value).
Proof.
  unfold count_of, floored.
  destruct (minus_one (parseInt value)) as [[| z] | [|]]; simpl; auto.
  - right. right. eexists. split; [reflexivity | lia].
  - right. right. exists 0. split; [reflexivity | lia].
Qed.

(** A snapshot the collection returns is reachable, has its timestamp and
    has [processes] and [services] populated; each of the four counts is
    [NaN], an integer that is not negative, or [Infinity]. *)
Theorem counts_are_always_there (client : Session) (connectionName now : string)
    (status : ServerStatus) :
  collectSystemStatus client connectionName now = Ok status ->
  reachable status = true /\
  lastUpdated status = Some now /\
  exists p s,
    processes status = Some p /\ floored (running p) /\ floored (threads p) /\
    services status = Some s /\ floored (services_running s) /\ floored (installed s).
Proof.
  unfold collectSystemStatus, collect_try. intros [= <-]. simpl.
  destruct (run_fulfilled client commands.processes "0") as [v1 H1].
  destruct (run_fulfilled client commands.threads "0") as [v2 H2].
  destruct (run_fulfilled client commands.servicesRunning "0") as [v3 H3].
  destruct (run_fulfilled client commands.servicesInstalled "0") as [v4 H4].
  split; [reflexivity |]. split; [reflexivity |].
  rewrite H1, H2, H3, H4. simpl. eexists _, _.
  split; [reflexivity |]. split; [apply count_of_floored |].
  split; [apply count_of_floored |]. split; [reflexivity |].
  split; apply count_of_floored.
Qed.

End CollectorParsing.

(** *** Splitting *)

Lemma split_cons (sep c : ascii) (rest : string) :
  split sep (String c rest)
  = if Ascii.eqb c sep then EmptyString :: split sep rest
    else match split sep rest with
         | [] => [String c EmptyString]
         | seg :: segs => String c seg :: segs
         end.
Proof. reflexivity. Qed.



Lemma split_free (sep : ascii) (s : string) :
  free_of sep s = true -> split sep s = [s].
Proof.
  induction s as [| c rest IH]; [reflexivity |].
  simpl free_of. intros H. apply andb_true_iff in H as [Hc Hrest].
  rewrite split_cons, (IH Hrest). apply negb_true_iff in Hc. rewrite Hc. reflexivity.
Qed.

Lemma split_field (sep : ascii) (a rest : string) :
  free_of sep a = true ->
  split sep (a +:+ String sep rest) = a :: split sep rest.
Proof.
  induction a as [| c a IH]; intros H.
  - change ("" +:+ String sep rest) with (String sep rest).
    rewrite split_cons, Ascii.eqb_refl. reflexivity.
  - simpl free_of in H. apply andb_true_iff in H as [Hc Ha].
    change (String c a +:+ String sep rest) with (String c (a +:+ String sep rest)).
    rewrite split_cons, (IH Ha). apply negb_true_iff in Hc. rewrite Hc. reflexivity.
Qed.

Lemma free_of_app (sep : ascii) (a b : string) :
  free_of sep (a +:+ b) = free_of sep a && free_of sep b.
Proof.
  induction a as [| c a IH]; [reflexivity |].
  change (String c a +:+ b) with (String c (a +:+ b)). simpl. rewrite IH.
  apply andb_assoc.
Qed.

Lemma truthy_app (a b : string) : truthy a = true -> truthy (a +:+ b) = true.
Proof. destruct a; [discriminate | reflexivity]. Qed.

Lemma head_clean_app (a b : string) :
  truthy a = true -> head_clean a -> head_clean (a +:+ b).
Proof. destruct a; [discriminate | auto]. Qed.

Section CollectorLists.

Context {float_text : FloatText}.


Lemma gpu_of_line_named (gpuPaths : list string) (index : nat) (line : string)
    (gpu : Gpu) :
  gpu_of_line gpuPaths index line = Some gpu ->
  trimmed (gpu_name gpu) /\ gpu_name gpu <> "N/A" /\
  (exists vendor field rest,
     split "|" line = vendor :: field :: rest /\
     gpu_name gpu = trim field /\
     (is_Some (gpu_usage gpu) ->
      exists third more, rest = third :: more /\
                         truthy (trim third) = true /\ trim third <> "N/A")) /\
  (forall p, gpu_path gpu = Some p -> gpuPaths !! index = Some p /\ truthy p = true).
Proof.
  unfold gpu_of_line.
  destruct (split "|" line) as [| vendor [| field rest]]; try discriminate.
  cbn [length Nat.leb nth].
  set (name := trim field).
  destruct (truthy name) eqn:Ht; [| discriminate].
  destruct (name =? "N/A")%string eqn:Hna; [discriminate |].
  simpl. intros [= <-]. simpl.
  split; [split; [exact Ht | apply trim_idem] |].
  split; [apply String.eqb_neq, Hna |].
  split.
  - exists vendor, field, rest. split; [reflexivity |]. split; [reflexivity |].
    destruct rest as [| third more]; simpl; [intros [u Hu]; discriminate |].
    intros [u Hu]. exists third, more. split; [reflexivity |].
    destruct (truthy (trim third)) eqn:Hr; [| discriminate].
    destruct (trim (trim third) =? "")%string; [discriminate |].
    destruct (trim (trim third) =? "N/A")%string eqn:H2; [discriminate |].
    split; [reflexivity |]. apply String.eqb_neq in H2. rewrite trim_idem in H2. exact H2.
  - intros p. destruct (gpuPaths !! index) as [p' |]; [| discriminate].
    destruct (truthy p') eqn:Hp; [| discriminate]. intros [= <-]. auto.
Qed.

(** [gpus], when present, is not empty; every entry is made from a line of
    the output of the command that has at least two fields: its name is the
    second field without the white space around it, and is neither empty
    nor [N/A]; it has a utilization only if the line has a third field that
    is neither blank nor [N/A]. *)
Theorem gpu_entries_are_named (client : Session) (connectionName now : string)
    (status : ServerStatus) (entries : list Gpu) :
  collectSystemStatus client connectionName now = Ok status ->
  gpus status = Some entries ->
  entries <> [] /\
  forall gpu, gpu ∈ entries ->
    trimmed (gpu_name gpu) /\ gpu_name gpu <> "N/A" /\
    exists output line vendor field rest,
      run client commands.gpus "" = fulfilled output /\
      In line (split "010" output) /\
      split "|" line = vendor :: field :: rest /\
      gpu_name gpu = trim field /\
      (is_Some (gpu_usage gpu) ->
       exists third more, rest = third :: more /\
                          truthy (trim third) = true /\ trim third <> "N/A").
Proof.
  unfold collectSystemStatus, collect_try. intros [= <-]. cbn [gpus].
  destruct (run client commands.gpus "") as [value | msg]; [| discriminate].
  unfold gpus_field, when_fulfilled.
  destruct (truthy value && truthy (trim value)); [| discriminate].
  match goal with
  | |- context [omap id ?l] => set (found := omap id l)
  end.
  destruct (0 <? length found)%nat eqn:Hlen; [| discriminate].
  intros [= <-]. split.
  - intros Hnil. rewrite Hnil in Hlen. discriminate.
  - intros gpu Hin. apply list_elem_of_omap in Hin as (og & Hog & Hid).
    unfold id in Hid. subst og.
    apply elem_of_lookup_imap_1 in Hog as (index & line & Hgpu & Hline).
    symmetry in Hgpu.
    destruct (gpu_of_line_named _ _ _ _ Hgpu)
      as (H1 & H2 & (vendor & field & rest & H3 & H4 & H5) & _).
    split; [exact H1 |]. split; [exact H2 |].
    exists value, line, vendor, field, rest.
    split; [reflexivity |]. split; [| auto].
    apply list_elem_of_lookup_2, list_elem_of_In in Hline.
    unfold non_blank_lines in Hline. apply List.filter_In in Hline as [Hline _].
    exact Hline.
Qed.

Lemma drive_of_line_complete (line : string) (drive : Drive) :
  drive_of_line line = Some drive ->
  trimmed (device drive) /\ trimmed (mountPoint drive) /\
  trim (drive_total drive) = drive_total drive /\
  trim (used drive) = used drive /\
  trim (drive_free drive) = drive_free drive /\
  trim (usagePercent drive) = usagePercent drive /\
  filesystem drive = None.
Proof.
  unfold drive_of_line.
  destruct (6 <=? length (split "|" line))%nat; [| discriminate].
  set (dev := trim (nth 0 (split "|" line) "")).
  set (mnt := trim (nth 5 (split "|" line) "")).
  destruct (truthy dev) eqn:Hd; [| discriminate].
  destruct (truthy mnt) eqn:Hm; [| discriminate].
  simpl. intros [= <-]. simpl.
  split; [split; [exact Hd | apply trim_idem] |].
  split; [split; [exact Hm | apply trim_idem] |].
  repeat split; apply trim_idem.
Qed.

(** [drives], when present, is not empty; every entry has a device and a
    mount point that are not empty, all its texts are without white space
    around them, and [filesystem] is never set. *)
Theorem drive_entries_are_complete (client : Session) (connectionName now : string)
    (status : ServerStatus) (entries : list Drive) :
  collectSystemStatus client connectionName now = Ok status ->
  drives status = Some entries ->
  entries <> [] /\
  forall drive, drive ∈ entries ->
    trimmed (device drive) /\ trimmed (mountPoint drive) /\
    trim (drive_total drive) = drive_total drive /\
    trim (used drive) = used drive /\
    trim (drive_free drive) = drive_free drive /\
    trim (usagePercent drive) = usagePercent drive /\
    filesystem drive = None.
Proof.
  unfold collectSystemStatus, collect_try. intros [= <-]. cbn [drives].
  destruct (run client commands.drives "") as [value | msg]; [| discriminate].
  unfold drives_field, when_fulfilled.
  destruct (truthy value && truthy (trim value)); [| discriminate].
  match goal with
  | |- context [omap drive_of_line ?l] => set (found := omap drive_of_line l)
  end.
  destruct (0 <? length found)%nat eqn:Hlen; [| discriminate].
  intros [= <-]. split.
  - intros Hnil. rewrite Hnil in Hlen. discriminate.
  - intros drive Hin. apply list_elem_of_omap in Hin as (line & _ & Hline).
    eapply drive_of_line_complete, Hline.
Qed.

End CollectorLists.

Lemma trimmed_head_clean (s : string) : trim s = s -> head_clean s.
Proof.
  intros <-. apply trimEnd_head_clean, trimStart_head_clean.
Qed.

Lemma trim_truthy (s : string) :
  head_clean s -> truthy s = true -> truthy (trim s) = true.
Proof.
  intros Hh Ht. unfold trim. rewrite (trimStart_of_head_clean s Hh).
  apply trimEnd_truthy; assumption.
Qed.

Lemma omap_one {A B : Type} (f : A -> option B) (x : A) (y : B) :
  f x = Some y -> omap f [x] = [y].
Proof. intros H. cbn. rewrite H. reflexivity. Qed.

Section DriveLines.

Context {float_text : FloatText}.

Lemma drive_line_split (d t u f p m : string) :
  field_text d -> field_text t -> field_text u -> field_text f ->
  field_text p -> field_text m ->
  split "|" (drive_line d t u f p m) = [d; t; u; f; p; m].
Proof.
  intros (Hd & _) (Ht & _) (Hu & _) (Hf & _) (Hp & _) (Hm & _).
  unfold drive_line, join.
  change (d +:+ "|" +:+ t +:+ "|" +:+ u +:+ "|" +:+ f +:+ "|" +:+ p +:+ "|" +:+ m)
    with (d +:+ String "|" (t +:+ String "|" (u +:+ String "|"
            (f +:+ String "|" (p +:+ String "|" m))))).
  rewrite !split_field by assumption. rewrite (split_free _ _ Hm). reflexivity.
Qed.

Lemma drive_line_one_line (d t u f p m : string) :
  field_text d -> field_text t -> field_text u -> field_text f ->
  field_text p -> field_text m ->
  truthy d = true ->
  truthy (drive_line d t u f p m) = true /\
  truthy (trim (drive_line d t u f p m)) = true /\
  split "010" (drive_line d t u f p m) = [drive_line d t u f p m].
Proof.
  intros (_ & Hd & Hcd) (_ & Ht & _) (_ & Hu & _) (_ & Hf & _) (_ & Hp & _)
    (_ & Hm & _) Htd.
  assert (Htruthy : truthy (drive_line d t u f p m) = true)
    by (apply truthy_app, Htd).
  split; [exact Htruthy |]. split.
  - apply trim_truthy; [| exact Htruthy].
    apply head_clean_app; [exact Htd | apply trimmed_head_clean, Hcd].
  - apply split_free. unfold drive_line, join.
    change (d +:+ "|" +:+ t +:+ "|" +:+ u +:+ "|" +:+ f +:+ "|" +:+ p +:+ "|" +:+ m)
      with (d +:+ String "|" (t +:+ String "|" (u +:+ String "|"
              (f +:+ String "|" (p +:+ String "|" m))))).
    repeat (rewrite free_of_app; simpl free_of).
    rewrite Hd, Ht, Hu, Hf, Hp, Hm. reflexivity.
Qed.

(** Round trip with the [awk] print of the drives command: one line
    [device|total|used|free|percent|mount], its fields free of [|], of line
    breaks and of surrounding white space, device and mount point not
    empty, is read back as the one drive with these six texts. *)
Theorem drive_line_round_trip (client : Session) (connectionName now : string)
    (d t u f p m : string) :
  field_text d -> field_text t -> field_text u -> field_text f ->
  field_text p -> field_text m ->
  truthy d = true -> truthy m = true ->
  execCommand client commands.drives = Ok (drive_line d t u f p m) ->
  exists status,
    collectSystemStatus client connectionName now = Ok status /\
    drives status
    = Some [{| device := d; mountPoint := m; drive_total := t; used := u;
               drive_free := f; usagePercent := p; filesystem := None |}].
Proof.
  intros Fd Ft Fu Ff Fp Fm Htd Htm Hexec.
  destruct (drive_line_one_line d t u f p m Fd Ft Fu Ff Fp Fm Htd) as (H1 & H2 & H3).
  pose proof (drive_line_split d t u f p m Fd Ft Fu Ff Fp Fm) as Hsplit.
  unfold collectSystemStatus, collect_try. eexists. split; [reflexivity |].
  cbn [drives]. rewrite (run_of_success _ _ _ _ Hexec).
  unfold drives_field, when_fulfilled, non_blank_lines.
  rewrite H1, H2, H3. cbn [andb List.filter]. rewrite H2.
  erewrite omap_one; [reflexivity |].
  unfold drive_of_line. rewrite Hsplit. cbn [length Nat.leb nth].
  destruct Fd as (_ & _ & ->), Ft as (_ & _ & ->), Fu as (_ & _ & ->),
    Ff as (_ & _ & ->), Fp as (_ & _ & ->), Fm as (_ & _ & ->).
  rewrite Htd, Htm. reflexivity.
Qed.

End DriveLines.

Lemma getAllServerInfos_names_from (this : SSHConnectionManager)
    (known : list (string * SSHConfig)) :
  (forall key, In key (Object_keys known) -> is_Some (config_of (configs this) key)) ->
  info_name <$>
    omap (fun key =>
            config ← config_of (configs this) key;
            Some {| info_name := key;
                    info_host := host config;
                    info_port := port config;
                    info_username := username config;
                    info_connected := is_connected this key;
                    info_status := statusCache this !! key |})
         (Object_keys known)
  = Object_keys known.
Proof.
  induction known as [| [k c] rest IH]; intros Hall; [reflexivity |].
  simpl. destruct (Hall k (or_introl eq_refl)) as [config ->]. simpl.
  f_equal. apply IH. intros key Hin. apply Hall. right. exact Hin.
Qed.

Lemma config_of_key (known : list (string * SSHConfig)) (key : string) :
  In key (Object_keys known) -> is_Some (config_of known key).
Proof.
  induction known as [| [k c] rest IH]; simpl; [intros [] |].
  destruct (k =? key)%string eqn:E; [eauto |].
  intros [-> | Hin]; [rewrite String.eqb_refl in E; discriminate | auto].
Qed.

(** [getAllServerInfos] returns one entry per configured name, in the
    order of the configuration, whatever is connected; each entry carries
    the host, port and user name of the descriptor, the connected flag of
    the name ([false] when the name never connected) and the cached
    snapshot of the name, if any. *)
Theorem getAllServerInfos_lists_every_name (this : SSHConnectionManager) :
  info_name <$> getAllServerInfos this = Object_keys (configs this) /\
  forall info, info ∈ getAllServerInfos this ->
    exists config,
      config_of (configs this) (info_name info) = Some config /\
      info_host info = host config /\ info_port info = port config /\
      info_username info = username config /\
      info_connected info = is_connected this (info_name info) /\
      info_status info = statusCache this !! info_name info.
Proof.
  split.
  - apply getAllServerInfos_names_from. apply config_of_key.
  - intros info Hin. apply list_elem_of_omap in Hin as (key & _ & Hinfo).
    destruct (config_of (configs this) key) as [config |] eqn:E; [| discriminate].
    simpl in Hinfo. injection Hinfo as <-. simpl. rewrite E. eauto 10.
Qed.

Lemma text_fields_are_trimmed_witness : trimmed "web-01".
Proof.
  eapply (text_fields_are_trimmed (float_text := decimal_text) inventory_session
            "web" example_time).
  - reflexivity.
  - left. vm_compute. reflexivity.
Defined.

Lemma free_total_fields_are_groups_witness :
  group_text "20G" /\ group_text "50G".
Proof.
  eapply (free_total_fields_are_groups (float_text := decimal_text)
            disk_only_session "web" example_time _ {| free := "20G"; total := "50G" |}).
  - reflexivity.
  - left. vm_compute. reflexivity.
Defined.

Lemma free_total_round_trip_witness :
  exists status,
    collectSystemStatus (float_text := decimal_text) disk_only_session "web" example_time
    = Ok status /\
    diskSpace status = Some {| free := "20G"; total := "50G" |}.
Proof.
  destruct (free_total_round_trip (float_text := decimal_text) disk_only_session
              "web" example_time "20G" "50G") as [Hdisk _].
  - split; reflexivity.
  - split; reflexivity.
  - apply Hdisk. vm_compute. reflexivity.
Defined.


Lemma counts_are_always_there_witness :
  exists status p s,
    collectSystemStatus (float_text := decimal_text) counting_session "web" example_time
    = Ok status /\
    reachable status = true /\
    processes status = Some p /\ floored (running p) /\ floored (threads p) /\
    services status = Some s /\ floored (services_running s) /\ floored (installed s) /\
    running p = Num 142 /\ threads p = Num 9007199254740996 /\
    services_running s = NaN /\ installed s = Infinity false.
Proof.
  destruct (counts_are_always_there (float_text := decimal_text) counting_session
              "web" example_time _ eq_refl)
    as (Hreach & _ & p & s & Hp & H1 & H2 & Hs & H3 & H4).
  eexists _, p, s. split; [reflexivity |]. split; [exact Hreach |].
  split; [exact Hp |]. split; [exact H1 |]. split; [exact H2 |].
  split; [exact Hs |]. split; [exact H3 |]. split; [exact H4 |].
  vm_compute in Hp. injection Hp as <-. vm_compute in Hs. injection Hs as <-.
  vm_compute. repeat split; reflexivity.
Defined.

Lemma gpu_entries_are_named_witness :
  let entries :=
    [{| gpu_name := "GeForce RTX 3080"; gpu_usage := Some "35.0%";
        gpu_path := Some "/dev/dri/card0" |};
     {| gpu_name := "Matrox G200"; gpu_usage := None; gpu_path := None |}] in
  entries <> [] /\
  forall gpu, gpu ∈ entries ->
    trimmed (gpu_name gpu) /\ gpu_name gpu <> "N/A" /\
    exists output line vendor field rest,
      run inventory_session commands.gpus "" = fulfilled output /\
      In line (split "010" output) /\
      split "|" line = vendor :: field :: rest /\
      gpu_name gpu = trim field /\
      (is_Some (gpu_usage gpu) ->
       exists third more, rest = third :: more /\
                          truthy (trim third) = true /\ trim third <> "N/A").
Proof.
  eapply (gpu_entries_are_named (float_text := decimal_text) inventory_session
            "web" example_time).
  - reflexivity.
  - vm_compute. reflexivity.
Defined.

Lemma drive_entries_are_complete_witness :
  let entries :=
    [{| device := "/dev/sda1"; mountPoint := "/"; drive_total := "50G";
        used := "20G"; drive_free := "30G"; usagePercent := "40%";
        filesystem := None |}] in
  entries <> [] /\
  forall drive, drive ∈ entries ->
    trimmed (device drive) /\ trimmed (mountPoint drive) /\
    trim (drive_total drive) = drive_total drive /\
    trim (used drive) = used drive /\
    trim (drive_free drive) = drive_free drive /\
    trim (usagePercent drive) = usagePercent drive /\
    filesystem drive = None.
Proof.
  eapply (drive_entries_are_complete (float_text := decimal_text) inventory_session
            "web" example_time).
  - reflexivity.
  - vm_compute. reflexivity.
Defined.

Lemma drive_line_round_trip_witness :
  exists status,
    collectSystemStatus (float_text := decimal_text) inventory_session "web" example_time
    = Ok status /\
    drives status
    = Some [{| device := "/dev/sda1"; mountPoint := "/"; drive_total := "50G";
               used := "20G"; drive_free := "30G"; usagePercent := "40%";
               filesystem := None |}].
Proof.
  apply (drive_line_round_trip (float_text := decimal_text) inventory_session
           "web" example_time "/dev/sda1" "50G" "20G" "30G" "40%" "/");
    repeat split; reflexivity.
Defined.

(** ** The path handed to the file system *)

Lemma normalize_segments_plain (segs kept : list string) :
  forallb plain_segment kept = true ->
  forallb plain_segment (normalize_segments segs kept) = true.
Proof.
  revert kept. induction segs as [| seg rest IH]; intros kept Hkept; simpl.
  - rewrite forallb_forall in *. intros x Hx. apply Hkept.
    apply in_rev. exact Hx.
  - destruct ((seg =? "")%string || (seg =? ".")%string) eqn:Hdrop; [auto |].
    destruct (seg =? "..")%string eqn:Hup.
    + apply IH. destruct kept; [reflexivity |].
      simpl in Hkept. apply andb_true_iff in Hkept as [_ H]. exact H.
    + apply IH. simpl. rewrite Hkept, andb_true_r.
      apply orb_false_iff in Hdrop as [He Hd].
      unfold plain_segment. rewrite Hd, Hup.
      destruct seg; [discriminate | reflexivity].
Qed.

(** The path [validateLocalPath] returns, which is the one [upload] reads
    and [download] writes, is the resolved one: absolute, made of segments
    none of which is empty, [.] or [..], and starting with the text of the
    working directory. *)
Theorem validated_path_is_resolved (cwd localPath validated : string) :
  validateLocalPath cwd localPath = Ok validated ->
  validated = path_resolve cwd localPath /\
  startsWith validated cwd = true /\
  exists segs, validated = "/" +:+ join "/" segs /\
               forallb plain_segment segs = true.
Proof.
  unfold validateLocalPath.
  destruct (startsWith (path_resolve cwd localPath) cwd) eqn:Hstart; simpl;
    [| discriminate].
  intros [= <-]. split; [reflexivity |]. split; [exact Hstart |].
  unfold path_resolve. eexists. split; [reflexivity |].
  apply normalize_segments_plain. reflexivity.
Qed.

Lemma validated_path_is_resolved_witness :
  "/home/user/app/logs/app.log" = path_resolve example_cwd "data/.././logs//app.log" /\
  startsWith "/home/user/app/logs/app.log" example_cwd = true /\
  exists segs, "/home/user/app/logs/app.log" = "/" +:+ join "/" segs /\
               forallb plain_segment segs = true.
Proof.
  apply (validated_path_is_resolved example_cwd "data/.././logs//app.log").
  vm_compute. reflexivity.
Defined.
